(** * Restaurant-review vector search: chunking, embedding, similarity search

    A shallow embedding of the JavaScript services of the repository
    (the text chunker, the embedding client, the vector store client and
    the SQL function it calls) together with the properties that the
    specification states about them. *)

From Stdlib Require Import ZArith NArith List Lia Bool String Ascii QArith.
From Stdlib Require Import Sorting.Sorted Sorting.Permutation Lqa Qabs.
From Stdlib Require Import DecimalString DecimalNat FinFun.
Import ListNotations.

Open Scope Z_scope.

(* ================================================================== *)
(** * JavaScript strings *)
(* ================================================================== *)

(** A JavaScript string is a sequence of UTF-16 code units.  The string
    operations used by the chunker are embedded with the semantics of
    ECMAScript: indices are integers, [substring] clamps and swaps its
    arguments, [lastIndexOf] answers [-1] when nothing is found. *)
Module JsString.

Definition jsstring := list N.

(** A literal: the code units of an ASCII string. *)
Definition str (s : string) : jsstring :=
  List.map N_of_ascii (list_ascii_of_string s).

(** [s.length] *)
Definition len (s : jsstring) : Z := Z.of_nat (List.length s).

(** The code units matched by [\s] and removed by [trim]: the
    ECMAScript WhiteSpace and LineTerminator productions. *)
Definition is_space (c : N) : bool :=
  ((9 <=? c) && (c <=? 13) || (c =? 32) || (c =? 160) || (c =? 5760)
   || (8192 <=? c) && (c <=? 8202) || (c =? 8232) || (c =? 8233)
   || (c =? 8239) || (c =? 8287) || (c =? 12288) || (c =? 65279))%N.

(** The character class [[.!?]]. *)
Definition is_terminal (c : N) : bool :=
  ((c =? 46) || (c =? 33) || (c =? 63))%N.

Definition space : N := 32%N.

Fixpoint trimStart (s : jsstring) : jsstring :=
  match s with
  | [] => []
  | c :: t => if is_space c then trimStart t else s
  end.

Definition trimEnd (s : jsstring) : jsstring := rev (trimStart (rev s)).

(** [s.trim()] *)
Definition trim (s : jsstring) : jsstring := trimEnd (trimStart s).

(** [s.replace(/\s+/g, ' ')]: every maximal run of white space becomes
    one space.  The space is produced at the last code unit of the
    run. *)
Fixpoint replace_spaces (s : jsstring) : jsstring :=
  match s with
  | [] => []
  | c :: t =>
      if is_space c then
        match t with
        | c' :: _ => if is_space c' then replace_spaces t
                     else space :: replace_spaces t
        | [] => [space]
        end
      else c :: replace_spaces t
  end.

Definition clamp (n i : Z) : Z := Z.max 0 (Z.min i n).

(** [s.substring(a, b)]: both indices are clamped to [0, s.length],
    and swapped when the first exceeds the second. *)
Definition substring (s : jsstring) (a b : Z) : jsstring :=
  let a' := clamp (len s) a in
  let b' := clamp (len s) b in
  let lo := Z.min a' b' in
  let hi := Z.max a' b' in
  firstn (Z.to_nat (hi - lo)) (skipn (Z.to_nat lo) s).

(** [s.match(/[.!?]\s/g)]: the matched substrings, left to right,
    the search resuming after each match; the empty list stands for
    [null]. *)
Fixpoint match_sentence_ends (s : jsstring) : list jsstring :=
  match s with
  | c :: t =>
      match t with
      | d :: t' =>
          if is_terminal c && is_space d
          then [c; d] :: match_sentence_ends t'
          else match_sentence_ends t
      | [] => []
      end
  | [] => []
  end.

Fixpoint starts_with (p s : jsstring) : bool :=
  match p, s with
  | [], _ => true
  | _ :: _, [] => false
  | a :: p', b :: s' => (a =? b)%N && starts_with p' s'
  end.

(** Scan [s], whose first code unit has index [i], remembering in
    [acc] the last index at which [p] starts. *)
Fixpoint lastIndexOf_from (p s : jsstring) (i acc : Z) : Z :=
  match s with
  | [] => if starts_with p [] then i else acc
  | _ :: t => lastIndexOf_from p t (i + 1) (if starts_with p s then i else acc)
  end.

(** [s.lastIndexOf(p)] *)
Definition lastIndexOf (s p : jsstring) : Z := lastIndexOf_from p s 0 (-1).

End JsString.
Import JsString.

(* ================================================================== *)
(** * JSON values *)
(* ================================================================== *)

Module Json.

(** A parsed JSON document. *)
#[warnings="-register-all"]
Inductive json :=
| JNull
| JBool (b : bool)
| JNumber (q : Q)
| JString (s : jsstring)
| JArray (items : list json)
| JObject (fields : list (jsstring * json)).

(** [!!v] for a property that holds the JSON value [v], or is missing
    ([None], the value [undefined]). *)
Definition truthy (v : option json) : bool :=
  match v with
  | None => false
  | Some JNull => false
  | Some (JBool b) => b
  | Some (JNumber q) => negb (Qeq_bool q 0)
  | Some (JString s) => negb (len s =? 0)
  | Some (JArray _) => true
  | Some (JObject _) => true
  end.

Fixpoint same_string (a b : jsstring) : bool :=
  match a, b with
  | [], [] => true
  | x :: a', y :: b' => (x =? y)%N && same_string a' b'
  | _, _ => false
  end.

(** [object[key]] for an object read by [JSON.parse], which keeps the
    last of the members that have the same name. *)
Fixpoint property (key : jsstring) (fields : list (jsstring * json)) : option json :=
  match fields with
  | [] => None
  | (k, v) :: rest =>
      match property key rest with
      | Some v' => Some v'
      | None => if same_string k key then Some v else None
      end
  end.

(** [v.length === 0] for a value that is neither [null] nor
    [undefined]: a number or a boolean has no [length]. *)
Definition length_is_zero (v : json) : bool :=
  match v with
  | JNull => false
  | JBool _ => false
  | JNumber _ => false
  | JString s => len s =? 0
  | JArray items => match items with [] => true | _ :: _ => false end
  | JObject fields =>
      match property (str "length") fields with
      | Some (JNumber q) => Qeq_bool q 0
      | _ => false
      end
  end.

End Json.
Import Json.

(* ================================================================== *)
(** * The text chunker *)
(* ================================================================== *)

Module Chunker.

(** [new TextChunker(chunkSize, overlap)] *)
Record TextChunker := mkChunker { chunkSize : Z; overlap : Z }.

(** The default arguments of the constructor. *)
Definition default_chunker : TextChunker := mkChunker 500 50.

(** The right edge of the window that starts at [start]: the body of
    the loop of [chunkText] up to the computation of [end]. *)
Definition window_end (tc : TextChunker) (cleanedText : jsstring) (start : Z) : Z :=
  let end0 := start + chunkSize tc in
  if end0 <? len cleanedText then
    let searchStart := Z.max (end0 - 100) start in
    let possibleEnd := substring cleanedText searchStart end0 in
    match match_sentence_ends possibleEnd with
    | [] => end0
    | m :: ms =>
        let lastSentenceEnd := lastIndexOf possibleEnd (last ms m) in
        if lastSentenceEnd =? -1 then end0
        else searchStart + lastSentenceEnd + 1
    end
  else end0.

(** The chunk emitted for the window [start, end): nothing when it is
    empty after trimming. *)
Definition push_chunk (cleanedText : jsstring) (start end_ : Z)
    (chunks : list jsstring) : list jsstring :=
  let chunk := trim (substring cleanedText start end_) in
  if 0 <? len chunk then chunks ++ [chunk] else chunks.

(** The [while] loop of [chunkText].  The source loop has no bound;
    [fuel] counts iterations and [None] means that the fuel ran out
    before the loop was left. *)
Fixpoint chunkLoop (fuel : nat) (tc : TextChunker) (cleanedText : jsstring)
    (start : Z) (chunks : list jsstring) : option (list jsstring) :=
  match fuel with
  | O => None
  | S fuel' =>
      if start <? len cleanedText then
        let end_ := window_end tc cleanedText start in
        let chunks' := push_chunk cleanedText start end_ chunks in
        let start' := end_ - overlap tc in
        if start' >=? len cleanedText then Some chunks'
        else chunkLoop fuel' tc cleanedText start' chunks'
      else Some chunks
  end.

(** [text.trim().replace(/\s+/g, ' ')] *)
Definition clean (text : jsstring) : jsstring := replace_spaces (trim text).

(** [chunkText(text)], for a string argument. *)
Definition chunkText (fuel : nat) (tc : TextChunker) (text : jsstring)
    : option (list jsstring) :=
  if len text =? 0 then Some []
  else
    let cleanedText := clean text in
    if len cleanedText <=? chunkSize tc then Some [cleanedText]
    else chunkLoop fuel tc cleanedText 0 [].

(** How a call ends that does not run out of fuel: it returns, or it
    throws the [TypeError] of a call to something that is not a
    function. *)
Inductive completion (A : Type) :=
| Returns (a : A)
| TypeError.
Arguments Returns {A} a.
Arguments TypeError {A}.

(** [chunkText(text)], for any JSON value as argument: the guard
    [!text || text.length === 0] returns no chunk, and
    [text.trim()] throws when [text] is not a string. *)
Definition chunkTextAny (fuel : nat) (tc : TextChunker) (text : json)
    : option (completion (list jsstring)) :=
  if negb (truthy (Some text)) || length_is_zero text then Some (Returns [])
  else
    match text with
    | JString s => option_map Returns (chunkText fuel tc s)
    | _ => Some TypeError
    end.

(** A review as [chunkReview] reads it: each property may be missing
    ([undefined]); [text] holds any JSON value. *)
Record review := mkReview {
  review_id : option jsstring;
  text : option json;
  stars : option Z
}.

(** The objects built by [chunkReview]. *)
Record review_chunk := mkChunk {
  reviewId : jsstring;
  chunk_text : jsstring;
  chunkIndex : Z;
  chunk_stars : Z;
  originalReview : review
}.

(** [review.text || ''] *)
Definition text_or_empty (r : review) : json :=
  match text r with
  | Some t => if truthy (Some t) then t else JString []
  | None => JString []
  end.

(** [review.stars || 0]: a missing rating and the rating [0] are both
    falsy. *)
Definition stars_or_zero (r : review) : Z :=
  match stars r with
  | Some n => if n =? 0 then 0 else n
  | None => 0
  end.

(** [review.review_id || `review_${Date.now()}_${Math.random()}`]:
    a missing or empty identifier is falsy, and the template is then
    evaluated anew; [fresh k] is the string that its [k]-th evaluation
    produces. *)
Definition id_or_fresh (fresh : nat -> jsstring) (r : review) (k : nat) : jsstring :=
  match review_id r with
  | Some id => if len id =? 0 then fresh k else id
  | None => fresh k
  end.

(** [array.map((x, index) => f(x, index))], from index [i] on. *)
Fixpoint map_index {A B : Type} (f : A -> nat -> B) (i : nat) (l : list A) : list B :=
  match l with
  | [] => []
  | x :: t => f x i :: map_index f (S i) t
  end.

(** [chunkReview(review)]: the callback runs once per chunk, in index
    order, so the fallback identifier of chunk [index] comes from
    evaluation number [index] of the template. *)
Definition chunkReview (fuel : nat) (tc : TextChunker) (fresh : nat -> jsstring)
    (r : review) : option (completion (list review_chunk)) :=
  let reviewText := text_or_empty r in
  match chunkTextAny fuel tc reviewText with
  | None => None
  | Some TypeError => Some TypeError
  | Some (Returns chunks) =>
      Some (Returns
              (map_index
                 (fun chunk index =>
                    {| reviewId := id_or_fresh fresh r index;
                       chunk_text := chunk;
                       chunkIndex := Z.of_nat index;
                       chunk_stars := stars_or_zero r;
                       originalReview := r |})
                 0%nat chunks))
  end.



(** Configurations and texts used as examples below. *)
Definition cycling_chunker : TextChunker := mkChunker 10 5.
Definition cycling_text : jsstring := str "a. bbbbbbbbbbbbbbbbbbbb".
Definition small_chunker : TextChunker := mkChunker 4 0.
Definition small_text : jsstring := str "ab. cdefgh".

(** A review with an identifier and a rating, and one with neither;
    [counter_ids] numbers the identifiers generated as a fallback. *)
Definition sample_review : review :=
  mkReview (Some (str "yelp_0")) (Some (JString small_text)) (Some 5).
Definition anonymous_review : review :=
  mkReview None (Some (JString small_text)) None.
Definition counter_ids (k : nat) : jsstring :=
  str "review_" ++ [(48 + N.of_nat k)%N].
Definition sample_chunks : list review_chunk :=
  [ mkChunk (str "yelp_0") (str "ab.") 0 5 sample_review;
    mkChunk (str "yelp_0") (str "cde") 1 5 sample_review;
    mkChunk (str "yelp_0") (str "fgh") 2 5 sample_review ].

End Chunker.
Import Chunker.


(* ================================================================== *)
(** * Ingestion: from dataset rows to reviews *)
(* ================================================================== *)

Module Ingestion.

(** A row of the downloaded dataset, as [downloadYelpDataset] reads it:
    [row.row.text], which is copied as it is, whatever JSON value it
    holds ([None] when the row has no such member), and
    [row.row.label], a number. *)
Record dataset_row := mkDatasetRow { row_text : option json; label : Z }.

(** The callback of [data.rows.map] in [downloadYelpDataset]; [decimal]
    renders the index inside the template [`yelp_${index}`]. *)
Definition review_of_row (decimal : nat -> jsstring) (row : dataset_row)
    (index : nat) : review :=
  mkReview (Some (str "yelp_" ++ decimal index))
           (row_text row)
           (Some (label row + 1)).

(** The chunker that [processDataset] builds: [new TextChunker(300, 50)]. *)
Definition ingestion_chunker : TextChunker := mkChunker 300 50.

(** Example data: a row with label 4. *)
Definition sample_row : dataset_row := mkDatasetRow (Some (JString small_text)) 4.
Definition digit (k : nat) : jsstring := [(48 + N.of_nat k)%N].
Definition sample_ingested : list review_chunk :=
  let r := review_of_row digit sample_row 0 in
  [ mkChunk (str "yelp_0") (str "ab.") 0 5 r;
    mkChunk (str "yelp_0") (str "cde") 1 5 r;
    mkChunk (str "yelp_0") (str "fgh") 2 5 r ].

End Ingestion.

(* ================================================================== *)
(** * The embedding client *)
(* ================================================================== *)

Module Embedding.

(** What [fetch] resolves to: the status line and the body.
    [body_json] is what [response.json()] yields, [None] when the body
    is not a JSON document (the call then rejects). *)
Record response := mkResponse {
  ok : bool;
  status : Z;
  body_text : jsstring;
  body_json : option json
}.

(** The outcome of [await fetch(...)]. *)
Inductive fetch_outcome :=
| FetchRejected            (* no response: the request itself failed *)
| FetchResolved (r : response).

(** The errors thrown by [createEmbedding]. *)
Inductive error :=
| NetworkError
| HttpError (status : Z) (message : jsstring)
| JsonError
| InvalidFormat.

Inductive result (A : Type) :=
| Ok (a : A)
| Throw (e : error).
Arguments Ok {A} a.
Arguments Throw {A} e.

Definition embedding := list json.

(** [Array.isArray(embedding) && embedding.length === 384] *)
Definition is_embedding (j : json) : option embedding :=
  match j with
  | JArray items => if (List.length items =? 384)%nat then Some items else None
  | _ => None
  end.

(** The body of [createEmbedding] after [fetch]; the [catch] block
    logs and throws the error again. *)
Definition handle_response (o : fetch_outcome) : result embedding :=
  match o with
  | FetchRejected => Throw NetworkError
  | FetchResolved r =>
      if negb (ok r) then Throw (HttpError (status r) (body_text r))
      else
        match body_json r with
        | None => Throw JsonError
        | Some j =>
            match is_embedding j with
            | Some e => Ok e
            | None => Throw InvalidFormat
            end
        end
  end.

(** The inference service: the outcome of the [k]-th request ever
    made, as a function of the text sent. *)
Definition service := nat -> jsstring -> fetch_outcome.

(** What the client does to the outside, in order. *)
Inductive event :=
| Request (text : jsstring) (r : result embedding)
| Sleep (ms : Z).

Record world := mkWorld { calls : nat; log : list event }.

Definition sleep (ms : Z) (w : world) : world :=
  mkWorld (calls w) (log w ++ [Sleep ms]).

(** [createEmbedding(text)] *)
Definition createEmbedding (svc : service) (text : jsstring) (w : world)
    : result embedding * world :=
  let r := handle_response (svc (calls w) text) in
  (r, mkWorld (S (calls w)) (log w ++ [Request text r])).

(** The [for] loop of [createBatchEmbeddings]: [texts] are the texts
    from index [i] on, [n] is [texts.length] of the whole array. *)
Fixpoint batchLoop (svc : service) (texts : list jsstring) (i n : Z)
    (embeddings : list embedding) (w : world)
    : result (list embedding) * world :=
  match texts with
  | [] => (Ok embeddings, w)
  | text :: rest =>
      match createEmbedding svc text w with
      | (Ok e, w1) =>
          let w2 := if i <? n - 1 then sleep 1000 w1 else w1 in
          batchLoop svc rest (i + 1) n (embeddings ++ [e]) w2
      | (Throw _, w1) =>
          let w2 := sleep 3000 w1 in
          match createEmbedding svc text w2 with
          | (Ok e, w3) => batchLoop svc rest (i + 1) n (embeddings ++ [e]) w3
          | (Throw retryError, w3) => (Throw retryError, w3)
          end
      end
  end.

(** [createBatchEmbeddings(texts)] *)
Definition createBatchEmbeddings (svc : service) (texts : list jsstring)
    (w : world) : result (list embedding) * world :=
  batchLoop svc texts 0 (Z.of_nat (List.length texts)) [] w.

(** The requests of a log, each with the answer it got, are those of
    the service from request number [k] on. *)
Fixpoint answered (svc : service) (k : nat) (l : list event) : Prop :=
  match l with
  | [] => True
  | Request t r :: l' => r = handle_response (svc k t) /\ answered svc (S k) l'
  | Sleep _ :: l' => answered svc k l'
  end.

Fixpoint requests_in (l : list event) : nat :=
  match l with
  | [] => 0
  | Request _ _ :: l' => S (requests_in l')
  | Sleep _ :: l' => requests_in l'
  end.

(** What the specification allows for one text: an embedding at the
    first request, possibly followed by the pacing delay; or a failed
    request, the cooldown, and one more request whose outcome is
    final. *)
Inductive item_trace (t : jsstring) : list event -> result embedding -> Prop :=
| item_first (e : embedding) :
    item_trace t [Request t (Ok e)] (Ok e)
| item_first_paced (e : embedding) :
    item_trace t [Request t (Ok e); Sleep 1000] (Ok e)
| item_retried (x : error) (r : result embedding) :
    item_trace t [Request t (Throw x); Sleep 3000; Request t r] r.

(** What the specification allows for a batch: the texts are served
    in order, one embedding each, and the batch stops with the error
    of the first text whose retry fails. *)
Inductive batch_trace : list jsstring -> list event -> result (list embedding) -> Prop :=
| batch_done :
    batch_trace [] [] (Ok [])
| batch_next (t : jsstring) (rest : list jsstring) (l l' : list event)
    (e : embedding) (embs : list embedding) :
    item_trace t l (Ok e) ->
    batch_trace rest l' (Ok embs) ->
    batch_trace (t :: rest) (l ++ l') (Ok (e :: embs))
| batch_fails_later (t : jsstring) (rest : list jsstring) (l l' : list event)
    (e : embedding) (err : error) :
    item_trace t l (Ok e) ->
    batch_trace rest l' (Throw err) ->
    batch_trace (t :: rest) (l ++ l') (Throw err)
| batch_fails_here (t : jsstring) (rest : list jsstring) (l : list event)
    (err : error) :
    item_trace t l (Throw err) ->
    batch_trace (t :: rest) l (Throw err).

(** The result of a loop that already holds [acc]. *)
Definition extend (acc : list embedding) (r : result (list embedding))
    : result (list embedding) :=
  match r with
  | Ok es => Ok (acc ++ es)
  | Throw e => Throw e
  end.

(** The result of a batch whose first text got [e]. *)
Definition prepend (e : embedding) (r : result (list embedding))
    : result (list embedding) :=
  match r with
  | Ok es => Ok (e :: es)
  | Throw x => Throw x
  end.

(** Example data: a vector of the expected size and the text of its
    JSON document, a response that carries it with status 503 and one
    with status 200, a service that always answers the former, and one
    that fails every other request. *)
Definition zero_vector : embedding := repeat (JNumber 0) 384.
Definition zero_vector_text : jsstring :=
  str "[" ++ List.concat (repeat (str "0,") 383) ++ str "0]".
Definition unavailable : response :=
  mkResponse false 503 zero_vector_text (Some (JArray zero_vector)).
Definition good : response :=
  mkResponse true 200 zero_vector_text (Some (JArray zero_vector)).
Definition refusing_service : service := fun _ _ => FetchResolved unavailable.
Definition flaky_service : service :=
  fun k _ => if Nat.even k then FetchRejected else FetchResolved good.
Definition start_world : world := mkWorld 0 [].

End Embedding.

(* ================================================================== *)
(** * Ordering rows *)
(* ================================================================== *)

(** Sorting by a boolean "comes no later than" test, as [ORDER BY] and
    the ranking step do; insertion keeps equal elements in their
    original order. *)
Module OrderBy.
Section Sort.
Context {A : Type}.
Variable before : A -> A -> bool.

Fixpoint insert (x : A) (l : list A) : list A :=
  match l with
  | [] => [x]
  | y :: t => if before x y then x :: l else y :: insert x t
  end.

Definition sort (l : list A) : list A := fold_right insert [] l.
End Sort.
End OrderBy.

(* ================================================================== *)
(** * The vector store client and the SQL function behind it *)
(* ================================================================== *)

Module VectorStore.
Section Store.

Definition vector := list Q.

(** A [float8] value: a number, or NaN.  PostgreSQL treats NaN as
    equal to itself and greater than every number. *)
Inductive float8 :=
| Num (q : Q)
| NaN.

(** pgvector's cosine distance operator [<=>] on two vectors of the
    same dimension: 1 minus the quotient of the inner product by the
    root of the product of the squared norms, computed in floating
    point.  The quotient is 0/0 when one of the vectors has norm
    zero, and the distance is then NaN. *)
Variable cosine_distance : vector -> vector -> float8.

(** [1 - x] *)
Definition one_minus (x : float8) : float8 :=
  match x with
  | Num q => Num (1 - q)
  | NaN => NaN
  end.

(** [x > y] for a number [y]: NaN is greater than every number. *)
Definition greater (x : float8) (y : Q) : bool :=
  match x with
  | Num q => negb (Qle_bool q y)
  | NaN => true
  end.

(** [x <= y], the order of [ORDER BY ... ASC]: NaN comes after every
    number. *)
Definition ascending (x y : float8) : bool :=
  match x, y with
  | Num a, Num b => Qle_bool a b
  | _, NaN => true
  | NaN, Num _ => false
  end.

(** A row of [review_chunks], with the columns that the search
    function reads; [embedding] is the only nullable one of them. *)
Record review_chunks := mkRow {
  id : Z;
  review_id : jsstring;
  chunk_text : jsstring;
  chunk_index : Z;
  embedding : option vector;
  stars : Z
}.

(** A row of the table returned by [search_similar_reviews];
    [None] is SQL's NULL. *)
Record match_row := mkMatch {
  m_id : Z;
  m_review_id : jsstring;
  m_chunk_text : jsstring;
  m_chunk_index : Z;
  m_stars : Z;
  similarity : option float8
}.

Inductive store_error :=
| InvalidArguments    (* an argument cannot be converted to its type *)
| NegativeLimit       (* PostgreSQL: LIMIT must not be negative *)
| DifferentDimensions (a b : nat)
    (* pgvector: different vector dimensions a and b *)
| Unreachable.        (* the request did not reach the database *)

(** pgvector reads a vector of 1 to 16000 elements, each of which,
    rounded to [float4], is finite: its absolute value is below
    [2^128 - 2^103]. *)
Definition vector_in (v : vector) : bool :=
  (1 <=? Z.of_nat (List.length v)) && (Z.of_nat (List.length v) <=? 16000)
  && forallb (fun x => negb (Qle_bool (inject_Z (2 ^ 128 - 2 ^ 103)) (Qabs x))) v.

(** PostgreSQL reads an [int] between [-2^31] and [2^31 - 1]. *)
Definition int4_in (n : Z) : bool :=
  (- 2147483648 <=? n) && (n <=? 2147483647).

(** [embedding <=> query_embedding] on a row whose embedding has the
    dimension of the query; [None] is SQL's NULL, the result for a
    row without embedding. *)
Definition distance (query_embedding : vector) (r : review_chunks) : option float8 :=
  match embedding r with
  | Some e => Some (cosine_distance e query_embedding)
  | None => None
  end.

(** The operator fails on two vectors of different dimensions: the
    error raised while the table is scanned, if any.  The declared
    dimension of the parameter, [vector(384)], is not enforced. *)
Fixpoint dimension_error (query_embedding : vector) (table : list review_chunks)
    : option store_error :=
  match table with
  | [] => None
  | r :: rest =>
      match embedding r with
      | Some e =>
          if (List.length e =? List.length query_embedding)%nat
          then dimension_error query_embedding rest
          else Some (DifferentDimensions (List.length e)
                       (List.length query_embedding))
      | None => dimension_error query_embedding rest
      end
  end.

(** [WHERE 1 - (embedding <=> query_embedding) > match_threshold]:
    a row passes when the condition is true, not when it is NULL. *)
Definition where_clause (query_embedding : vector) (match_threshold : Q)
    (r : review_chunks) : bool :=
  match distance query_embedding r with
  | Some d => greater (one_minus d) match_threshold
  | None => false
  end.

(** [ORDER BY embedding <=> query_embedding]: ascending, NULLs
    last. *)
Definition order_clause (query_embedding : vector) (a b : review_chunks) : bool :=
  match distance query_embedding a, distance query_embedding b with
  | Some x, Some y => ascending x y
  | Some _, None => true
  | None, Some _ => false
  | None, None => true
  end.

(** The [SELECT] list. *)
Definition select (query_embedding : vector) (r : review_chunks) : match_row :=
  {| m_id := id r;
     m_review_id := review_id r;
     m_chunk_text := chunk_text r;
     m_chunk_index := chunk_index r;
     m_stars := stars r;
     similarity := option_map one_minus (distance query_embedding r) |}.

(** The SQL function [search_similar_reviews], called with a vector,
    a number and an integer.  The arguments are converted first; a
    negative limit is refused before the table is read, and with the
    limit 0 the table is not read at all. *)
Definition search_similar_reviews (table : list review_chunks)
    (query_embedding : vector) (match_threshold : Q) (match_count : Z)
    : store_error + list match_row :=
  if negb (vector_in query_embedding && int4_in match_count)
  then inl InvalidArguments
  else if match_count <? 0 then inl NegativeLimit
  else if match_count =? 0 then inr []
  else
    match dimension_error query_embedding table with
    | Some e => inl e
    | None =>
        let passed := filter (where_clause query_embedding match_threshold) table in
        let ordered := OrderBy.sort (order_clause query_embedding) passed in
        inr (List.map (select query_embedding)
               (firstn (Z.to_nat match_count) ordered))
    end.

(** What [await supabase.rpc(...)] resolves to: [{ data, error }]
    with one of the two set. *)
Record rpc_response := mkRpc {
  data : option (list match_row);
  error : option store_error
}.

(** [supabase.rpc('search_similar_reviews', ...)]; [online] tells
    whether the database can be reached. *)
Definition rpc_search_similar_reviews (online : bool) (table : list review_chunks)
    (query_embedding : vector) (match_threshold : Q) (match_count : Z)
    : rpc_response :=
  if online then
    match search_similar_reviews table query_embedding match_threshold match_count with
    | inr rows => mkRpc (Some rows) None
    | inl e => mkRpc None (Some e)
    end
  else mkRpc None (Some Unreachable).

Inductive outcome :=
| Returned (d : option (list match_row))
| Thrown (e : store_error).

(** [searchSimilar(queryEmbedding, matchThreshold, matchCount)] *)
Definition searchSimilar (online : bool) (table : list review_chunks)
    (queryEmbedding : vector) (matchThreshold : Q) (matchCount : Z) : outcome :=
  let r := rpc_search_similar_reviews online table queryEmbedding
             matchThreshold matchCount in
  match error r with
  | Some e => Thrown e
  | None => Returned (data r)
  end.

End Store.

(** Example data.  An operator that computes the cosine distance with
    the root taken to twelve decimals, and answers NaN when a norm is
    zero; vectors of 384 dimensions along the first two axes; a table
    of five chunks, one of them without embedding and one with the
    zero vector. *)
Definition inner (a b : vector) : Q :=
  fold_right Qplus 0%Q (List.map (fun p => (fst p * snd p)%Q) (combine a b)).
Definition root (x : Q) : Q :=
  Z.sqrt (Qnum x * 10 ^ 24 / Zpos (Qden x)) # 1000000000000.
Definition sample_cosine_distance (a b : vector) : float8 :=
  let norms := Qred (inner a a * inner b b)%Q in
  if Qeq_bool norms 0%Q then NaN
  else Num (Qred (1 - inner a b / root norms)%Q).
Definition plane (x y : Q) : vector := x :: y :: repeat 0%Q 382.
Definition sample_table : list review_chunks :=
  [ mkRow 1 (str "r1") (str "fine") 0 (Some (plane (6 # 10) (8 # 10))) 4;
    mkRow 2 (str "r1") (str "good") 1 (Some (plane (8 # 10) (6 # 10))) 5;
    mkRow 3 (str "r2") (str "cold") 0 None 1;
    mkRow 4 (str "r3") (str "meh") 0 (Some (plane 0%Q 0%Q)) 3;
    mkRow 5 (str "r4") (str "best") 0 (Some (plane 1%Q 0%Q)) 5 ].

End VectorStore.

(* ================================================================== *)
(** * Hybrid search and ranking *)
(* ================================================================== *)

(** The hybrid ranking service is not among the sources of the
    repository; its definitions follow section 4.4 of the
    specification, step by step.  Scores are rational numbers. *)
Module Hybrid.

(** Modelled from the spec: the [Query] configuration of the missing
    hybrid search service (section 3). *)
Record Query := mkQuery {
  rawText : jsstring;
  semanticWeight : Q;
  keywordWeight : Q;
  matchThreshold : Q;
  maxResults : nat
}.

(** Modelled from the spec: a match returned by one of the two store
    queries of the missing hybrid search service, with its native
    score (similarity, or lexical relevance). *)
Record hit := mkHit {
  h_chunkId : Z;
  h_reviewId : jsstring;
  h_text : jsstring;
  h_starRating : Z;
  h_score : Q
}.

(** Modelled from the spec: the [SearchResult] of the missing hybrid
    search service (section 3); an absent component score is
    [None]. *)
Record SearchResult := mkResult {
  chunkId : Z;
  reviewId : jsstring;
  text : jsstring;
  starRating : Z;
  semanticScore : option Q;
  keywordScore : option Q;
  combinedScore : Q
}.

(** Modelled from the spec: "missing score treated as 0" in step 4 of
    the missing hybrid search service. *)
Definition score_or_zero (s : option Q) : Q :=
  match s with Some x => x | None => 0 end.

(** Modelled from the spec: the entry that step 3 of the missing
    hybrid search service creates for a chunk seen for the first
    time. *)
Definition new_entry (h : hit) (sem kw : option Q) : SearchResult :=
  mkResult (h_chunkId h) (h_reviewId h) (h_text h) (h_starRating h) sem kw 0.

Definition set_semantic (s : Q) (r : SearchResult) : SearchResult :=
  mkResult (chunkId r) (reviewId r) (text r) (starRating r)
           (Some s) (keywordScore r) (combinedScore r).

Definition set_keyword (s : Q) (r : SearchResult) : SearchResult :=
  mkResult (chunkId r) (reviewId r) (text r) (starRating r)
           (semanticScore r) (Some s) (combinedScore r).

(** Modelled from the spec: the "mapping keyed by chunkId" of step 3
    of the missing hybrid search service, as a list with one entry
    per key: [record upd fresh k m] updates the entry of key [k], or
    adds [fresh] when there is none. *)
Fixpoint record (upd : SearchResult -> SearchResult) (fresh : SearchResult)
    (k : Z) (m : list SearchResult) : list SearchResult :=
  match m with
  | [] => [fresh]
  | r :: t => if chunkId r =? k then upd r :: t
              else r :: record upd fresh k t
  end.

(** Modelled from the spec: step 3 of the missing hybrid search
    service, "for each semantic hit, record its similarity as
    semanticScore". *)
Definition record_semantic (m : list SearchResult) (h : hit) : list SearchResult :=
  record (set_semantic (h_score h)) (new_entry h (Some (h_score h)) None)
         (h_chunkId h) m.

(** Modelled from the spec: step 3 of the missing hybrid search
    service, the maximum relevance score observed in the batch of
    keyword hits, 0 when the batch is empty. *)
Definition max_relevance (keywordHits : list hit) : Q :=
  match keywordHits with
  | [] => 0
  | h :: t => fold_left (fun m x => if Qle_bool m (h_score x) then h_score x else m)
                        t (h_score h)
  end.

(** Modelled from the spec: step 3 of the missing hybrid search
    service, "for each keyword hit, normalize its native relevance
    score [...] by dividing by the maximum relevance score observed
    in the batch [...] and record as keywordScore". *)
Definition record_keyword (top : Q) (m : list SearchResult) (h : hit)
    : list SearchResult :=
  let s := (h_score h / top)%Q in
  record (set_keyword s) (new_entry h None (Some s)) (h_chunkId h) m.

Definition score_map (semanticHits keywordHits : list hit) : list SearchResult :=
  fold_left (record_keyword (max_relevance keywordHits)) keywordHits
    (fold_left record_semantic semanticHits []).

(** Modelled from the spec: step 4 of the missing hybrid search
    service, the weighted sum renormalized by the sum of the
    weights. *)
Definition combine (q : Query) (r : SearchResult) : SearchResult :=
  mkResult (chunkId r) (reviewId r) (text r) (starRating r)
           (semanticScore r) (keywordScore r)
           ((semanticWeight q * score_or_zero (semanticScore r)
             + keywordWeight q * score_or_zero (keywordScore r))
            / (semanticWeight q + keywordWeight q)).

(** Modelled from the spec: the order of step 5 of the missing
    hybrid search service: descending combinedScore, then descending
    semanticScore (an absent one counting as 0), then ascending
    chunkId. *)
Definition ranks_before (a b : SearchResult) : bool :=
  match (combinedScore b ?= combinedScore a)%Q with
  | Lt => true
  | Gt => false
  | Eq =>
      match (score_or_zero (semanticScore b) ?= score_or_zero (semanticScore a))%Q with
      | Lt => true
      | Gt => false
      | Eq => chunkId a <=? chunkId b
      end
  end.

(** Modelled from the spec: steps 3 to 5 of the missing hybrid search
    service: the merged set, scored and sorted. *)
Definition merge (q : Query) (semanticHits keywordHits : list hit)
    : list SearchResult :=
  OrderBy.sort ranks_before
    (List.map (combine q) (score_map semanticHits keywordHits)).

(** Modelled from the spec: steps 3 to 6 of the missing hybrid search
    service, from the two hit lists on: merge, then "truncate to
    maxResults". *)
Definition search (q : Query) (semanticHits keywordHits : list hit)
    : list SearchResult :=
  firstn (maxResults q) (merge q semanticHits keywordHits).

(** Modelled from the spec: the order of step 5 of the missing hybrid
    search service, as a relation: [a] may come before [b]. *)
Definition ranked (a b : SearchResult) : Prop :=
  (combinedScore b < combinedScore a
   \/ (combinedScore b == combinedScore a
       /\ (score_or_zero (semanticScore b) < score_or_zero (semanticScore a)
           \/ (score_or_zero (semanticScore b) == score_or_zero (semanticScore a)
               /\ (chunkId a <= chunkId b)%Z))))%Q.

(** The keys of the mapping. *)
Definition keys (m : list SearchResult) : list Z := List.map chunkId m.

(** Chunk [k] occurs in [hits] with score [s], once rescaled by
    [norm]. *)
Definition scores_of (norm : Q -> Q) (hits : list hit) (k : Z) (s : Q) : Prop :=
  exists h, In h hits /\ h_chunkId h = k /\ s = norm (h_score h).

(** A mapping holds the scores [SV] and [KV]: one entry per chunk
    that has a score of either kind, a component being absent exactly
    when the chunk has no score of that kind. *)
Definition tracks (SV KV : Z -> Q -> Prop) (m : list SearchResult) : Prop :=
  NoDup (keys m)
  /\ (forall k, In k (keys m) <-> (exists s, SV k s) \/ (exists s, KV k s))
  /\ Forall (fun r =>
               (semanticScore r = None <-> ~ exists s, SV (chunkId r) s)
               /\ (forall s, semanticScore r = Some s -> SV (chunkId r) s)
               /\ (keywordScore r = None <-> ~ exists s, KV (chunkId r) s)
               /\ (forall s, keywordScore r = Some s -> KV (chunkId r) s)) m.

(** Example data: the scenario of section 8 of the specification. *)
Definition hit_A_semantic : hit := mkHit 1 (str "r1") (str "A") 5 (9 # 10).
Definition hit_A_keyword : hit := mkHit 1 (str "r1") (str "A") 5 2.
Definition hit_B_keyword : hit := mkHit 2 (str "r2") (str "B") 4 3.
Definition equal_weights : Query := mkQuery (str "pasta") 1 1 (7 # 10) 2.

End Hybrid.

(* ================================================================== *)
(** * Shapes of texts and chunks *)
(* ================================================================== *)

Module Shape.

(** [chunk] occurs in [s] as a run of consecutive code units. *)
Definition occurs_in (chunk s : jsstring) : Prop :=
  exists pre post, s = pre ++ chunk ++ post.

(** [s] neither starts nor ends with white space. *)
Definition no_outer_space (s : jsstring) : Prop :=
  (forall c, hd_error s = Some c -> is_space c = false)
  /\ (forall c, hd_error (rev s) = Some c -> is_space c = false).

(** Every white-space code unit of [s] is a U+0020 that stands between
    two code units that are not white space. *)
Definition single_spaced (s : jsstring) : Prop :=
  forall i ch,
    nth_error s i = Some ch -> is_space ch = true ->
    ch = space
    /\ (exists a, (0 < i)%nat /\ nth_error s (i - 1) = Some a /\ is_space a = false)
    /\ (exists b, nth_error s (S i) = Some b /\ is_space b = false).

(** The pattern [[.!?]\s] matches at index [j] of [s]. *)
Definition pattern_at (s : jsstring) (j : nat) : Prop :=
  exists a b,
    nth_error s j = Some a /\ is_terminal a = true
    /\ nth_error s (S j) = Some b /\ is_space b = true.

(** Position [e] of [s] is just after a sentence end: the terminal is at
    [e - 1] and the white space at [e]. *)
Definition sentence_end_at (s : jsstring) (e : Z) : Prop :=
  0 < e /\ pattern_at s (Z.to_nat (e - 1)).

End Shape.
Import Shape.


(* ================================================================== *)
(** * Reading a batch log *)
(* ================================================================== *)

Module BatchLog.
Import Embedding.

(** The delays of a log, in order. *)
Fixpoint sleeps (l : list event) : list Z :=
  match l with
  | [] => []
  | Sleep ms :: l' => ms :: sleeps l'
  | Request _ _ :: l' => sleeps l'
  end.

(** The texts of the requests that were answered with an embedding, in
    order. *)
Fixpoint embedded (l : list event) : list jsstring :=
  match l with
  | [] => []
  | Request t (Ok _) :: l' => t :: embedded l'
  | _ :: l' => embedded l'
  end.

(** The answer of the service to request number [k], for text [t]. *)
Definition answer (svc : service) (k : nat) (t : jsstring) : result embedding :=
  handle_response (svc k t).

(** The embedding inside an answer; the empty vector stands for none. *)
Definition embedding_of (r : result embedding) : embedding :=
  match r with Ok e => e | Throw _ => [] end.

(** The log of a batch in which every first request is answered with
    an embedding: one request per text, from request number [k] on, and
    the pacing delay between two requests. *)
Fixpoint paced (svc : service) (k : nat) (texts : list jsstring) : list event :=
  match texts with
  | [] => []
  | t :: rest =>
      Request t (answer svc k t)
        :: match rest with
           | [] => paced svc (S k) rest
           | _ :: _ => Sleep 1000 :: paced svc (S k) rest
           end
  end.

(** Example data: a service that always answers with the vector of
    zeros. *)
Definition steady_service : service := fun _ _ => FetchResolved good.

End BatchLog.

(* ================================================================== *)
(** * The model probe (test-api.js) *)
(* ================================================================== *)

Module TestApi.
Import Embedding.

(** [false], or the object [{ url, name, dimensions }]. *)
Inductive test_result :=
| Failed
| Working (url name : jsstring) (dimensions : nat).

Definition is_number (j : json) : bool :=
  match j with JNumber _ => true | _ => false end.

(** The body of [testModel(modelUrl, modelName)] after [fetch].  A
    rejected request or a body that is not JSON ends in the [catch]
    block; so does [x.toFixed(4)] on one of the first five elements
    when it is not a number. *)
Definition testModel (o : fetch_outcome) (modelUrl modelName : jsstring)
    : test_result :=
  match o with
  | FetchRejected => Failed
  | FetchResolved r =>
      if negb (ok r) then Failed
      else
        match body_json r with
        | None => Failed
        | Some (JArray result) =>
            if (0 <? List.length result)%nat then
              if forallb is_number (firstn 5 result)
              then Working modelUrl modelName (List.length result)
              else Failed
            else Failed
        | Some _ => Failed
        end
  end.

Definition slash : N := 47%N.

(** [s.split('/')]: the pieces between the slashes; [cur] is the piece
    being read. *)
Fixpoint split_slash (cur s : jsstring) : list jsstring :=
  match s with
  | [] => [cur]
  | c :: t => if (c =? slash)%N then cur :: split_slash [] t
              else split_slash (cur ++ [c]) t
  end.

(** [modelUrl.split('/').pop()] *)
Definition model_name (modelUrl : jsstring) : jsstring :=
  last (split_slash [] modelUrl) [].

(** What the probe does to the outside, in order. *)
Inductive probe_event :=
| Probe (modelUrl : jsstring) (r : test_result)
| Wait (ms : Z).

(** The [for] loop of [findWorkingModel] over the models that are left;
    [k] numbers the requests, and [svc k url] is the outcome of request
    number [k], sent to [url]. *)
Fixpoint try_models (svc : nat -> jsstring -> fetch_outcome) (k : nat)
    (models : list jsstring) : option test_result * list probe_event :=
  match models with
  | [] => (None, [])
  | modelUrl :: rest =>
      let modelName := model_name modelUrl in
      let result := testModel (svc k modelUrl) modelUrl modelName in
      match result with
      | Working _ _ _ => (Some result, [Probe modelUrl result])
      | Failed =>
          let (found, events) := try_models svc (S k) rest in
          (found, Probe modelUrl result :: Wait 2000 :: events)
      end
  end.

Definition MODELS_TO_TRY : list jsstring :=
  [ str "https://api-inference.huggingface.co/models/sentence-transformers/all-MiniLM-L6-v2";
    str "https://api-inference.huggingface.co/models/BAAI/bge-small-en-v1.5";
    str "https://api-inference.huggingface.co/models/thenlper/gte-small";
    str "https://api-inference.huggingface.co/models/sentence-transformers/all-mpnet-base-v2" ].

(** [findWorkingModel()]; [HF_API_KEY] is the key read from the
    environment, [None] when there is none.  An empty key is falsy. *)
Definition findWorkingModel (HF_API_KEY : option jsstring)
    (svc : nat -> jsstring -> fetch_outcome)
    : option test_result * list probe_event :=
  match HF_API_KEY with
  | None => (None, [])
  | Some key =>
      if len key =? 0 then (None, [])
      else try_models svc 0 MODELS_TO_TRY
  end.

(** The models probed, and the delays, in order. *)
Fixpoint probed (l : list probe_event) : list jsstring :=
  match l with
  | [] => []
  | Probe url _ :: l' => url :: probed l'
  | Wait _ :: l' => probed l'
  end.

Fixpoint waited (l : list probe_event) : list Z :=
  match l with
  | [] => []
  | Probe _ _ :: l' => waited l'
  | Wait ms :: l' => ms :: waited l'
  end.

(** The verdict on the model at [url] when it is request number [k]. *)
Definition verdict (svc : nat -> jsstring -> fetch_outcome) (k : nat)
    (url : jsstring) : test_result :=
  testModel (svc k url) url (model_name url).

(** Example data: a service on which only the second model answers,
    with 384 numbers. *)
Definition second_only : nat -> jsstring -> fetch_outcome :=
  fun k _ => if (k =? 1)%nat then FetchResolved good else FetchResolved unavailable.

End TestApi.


(* ================================================================== *)
(** * Chunking a list of reviews *)
(* ================================================================== *)

Module Reviews.

(** The lines written by [chunkReviews]:
    [`Chunking review ${index + 1}/${reviews.length}`] and
    [`Total chunks created: ${allChunks.length}`]. *)
Inductive console_line :=
| ChunkingReview (position total : Z)
| TotalChunks (n : Z).

(** How many times [chunkReview] evaluates the fallback template for a
    review that gave the chunks [out]: once per chunk when the review
    has no identifier, never otherwise. *)
Definition evaluations (r : review) (out : list review_chunk) : nat :=
  match review_id r with
  | Some id => if len id =? 0 then List.length out else 0%nat
  | None => List.length out
  end.

(** The [forEach] of [chunkReviews], from review number [index] on;
    [base] counts the evaluations of the fallback template made so
    far, [total] is [reviews.length]. *)
Fixpoint forEachReview (fuel : nat) (tc : TextChunker) (fresh : nat -> jsstring)
    (logProgress : bool) (total : Z) (index base : nat) (reviews : list review)
    (allChunks : list review_chunk) (console : list console_line)
    : option (completion (list review_chunk) * list console_line) :=
  match reviews with
  | [] => Some (Returns allChunks, console)
  | review :: rest =>
      let console' :=
        if logProgress && (index mod 100 =? 0)%nat
        then console ++ [ChunkingReview (Z.of_nat index + 1) total]
        else console in
      match chunkReview fuel tc (fun k => fresh (base + k)%nat) review with
      | None => None
      | Some TypeError => Some (TypeError, console')
      | Some (Returns reviewChunks) =>
          forEachReview fuel tc fresh logProgress total (S index)
            (base + evaluations review reviewChunks) rest
            (allChunks ++ reviewChunks) console'
      end
  end.

(** [chunkReviews(reviews, logProgress)]: the chunks returned, or the
    error thrown by [chunkReview], and the lines written. *)
Definition chunkReviews (fuel : nat) (tc : TextChunker) (fresh : nat -> jsstring)
    (reviews : list review) (logProgress : bool)
    : option (completion (list review_chunk) * list console_line) :=
  match forEachReview fuel tc fresh logProgress (Z.of_nat (List.length reviews))
          0 0 reviews [] [] with
  | None => None
  | Some (TypeError, console) => Some (TypeError, console)
  | Some (Returns allChunks, console) =>
      Some (Returns allChunks,
            if logProgress
            then console ++ [TotalChunks (Z.of_nat (List.length allChunks))]
            else console)
  end.

(** The progress lines for [n] reviews: one for every hundredth review,
    starting with the first. *)
Definition progress_lines (n : nat) : list console_line :=
  List.map (fun index => ChunkingReview (Z.of_nat index + 1) (Z.of_nat n))
           (filter (fun index => (index mod 100 =? 0)%nat) (seq 0 n)).

End Reviews.

(* ================================================================== *)
(** * Downloading the dataset *)
(* ================================================================== *)

Module Download.
Import Ingestion.

(** What the dataset server answers: the status, and [data.rows] when
    the body is a JSON document in which it is an array of objects
    that each have an object [row].  [None] stands for every other
    body: reading it throws, or the test of [data.rows] fails. *)
Record rows_response := mkRowsResponse {
  rows_ok : bool;
  rows_status : Z;
  data_rows : option (list dataset_row)
}.

(** The outcome of [await fetch(...)]. *)
Inductive rows_outcome :=
| RowsRejected
| RowsResolved (r : rows_response).

(** [`${index}`]: the decimal digits of an index. *)
Definition decimal (n : nat) : jsstring :=
  str (NilEmpty.string_of_uint (Nat.to_uint n)).

(** The sample data returned when the download fails. *)
Definition sample_data : list review :=
  [ mkReview (Some (str "sample_1"))
      (Some (JString (str "This restaurant was absolutely amazing! The food was delicious, the service was excellent, and the atmosphere was perfect. I especially loved the pasta dish - it was cooked to perfection with a rich, flavorful sauce. The staff was very attentive and friendly. Will definitely be coming back here again!")))
      (Some 5);
    mkReview (Some (str "sample_2"))
      (Some (JString (str "Had a terrible experience here. The food was cold, the service was slow, and the place was dirty. My burger was undercooked and the fries were soggy. The waiter seemed annoyed when I asked questions about the menu. Would not recommend this place to anyone.")))
      (Some 1);
    mkReview (Some (str "sample_3"))
      (Some (JString (str "Pretty good restaurant overall. The food was decent, nothing spectacular but satisfying. Service was okay, took a while to get our orders but the staff was polite. The prices are reasonable for the portion sizes. It's a solid choice if you're in the area.")))
      (Some 3) ].

(** [array.slice(0, limit)]: a negative [limit] counts from the end. *)
Definition slice_to {A : Type} (l : list A) (limit : Z) : list A :=
  if 0 <=? limit then firstn (Z.to_nat limit) l
  else firstn (List.length l - Z.to_nat (- limit)) l.

(** [downloadYelpDataset(limit)]: every failure inside the [try] block
    ends in the [catch] block, which returns the sample data. *)
Definition downloadYelpDataset (o : rows_outcome) (limit : Z) : list review :=
  match o with
  | RowsRejected => sample_data
  | RowsResolved r =>
      if negb (rows_ok r) then sample_data
      else
        match data_rows r with
        | None => sample_data
        | Some rows =>
            if (0 <? List.length rows)%nat
            then slice_to (map_index (review_of_row decimal) 0 rows) limit
            else sample_data
        end
  end.

(** Example data: a server that answers two rows. *)
Definition two_rows : rows_outcome :=
  RowsResolved (mkRowsResponse true 200
                  (Some [mkDatasetRow (Some (JString small_text)) 4;
                         mkDatasetRow (Some (JString (str "ok"))) 0])).

End Download.


(* ================================================================== *)
(** * The table behind the vector store client *)
(* ================================================================== *)

(** The writing methods of [VectorStore] send one statement each to the
    database.  What the database does is not code of this repository:
    it is given by a [server], which says for each statement, by its
    number, whether it is carried out, and which values the sequence
    behind [id BIGSERIAL] yields.  The client's code is modelled on
    top of it. *)
Module Store.
Import Embedding.

(** An object passed to [.insert(...)], with a member for each column
    of the table; a member that is [undefined] is not sent, and the
    column takes its default.  [insertBatchChunks] sends the objects
    of its caller as they are, so a caller can set any column, [id]
    included. *)
Record insert_row := mkInsert {
  i_id : option Z;
  i_review_id : option jsstring;
  i_chunk_text : option jsstring;
  i_chunk_index : option Z;
  i_embedding : option embedding;
  i_stars : option Z;
  i_text_search_vector : option jsstring;
  i_created_at : option jsstring
}.

(** A row of [review_chunks]: the values sent, and the identifier, the
    one sent or else one drawn from the sequence. *)
Record stored_row := mkStored { s_id : Z; s_row : insert_row }.

Record server := mkServer {
  carried : nat -> bool;         (* statement [k] succeeds *)
  serial : nat -> Z;             (* the [j]-th value of the sequence *)
  skipped : nat -> nat;          (* values lost when statement [k] fails *)
  representation : bool          (* [insert] answers the rows stored *)
}.

Record database := mkDb {
  table : list stored_row;
  statements : nat;
  drawn : nat
}.

Inductive store_error := StatementFailed (k : nat).

Definition empty_database : database := mkDb [] 0 0.

(** The row stored for the object at index [j] of a statement. *)
Definition store (sv : server) (d : database) (r : insert_row) (j : nat) : stored_row :=
  match i_id r with
  | Some given => mkStored given r
  | None => mkStored (serial sv (drawn d + j)) r
  end.

(** [INSERT INTO review_chunks ...] for [rows]: all of them are stored,
    or none. *)
Definition insert_statement (sv : server) (d : database) (rows : list insert_row)
    : (store_error + option (list stored_row)) * database :=
  let k := statements d in
  if carried sv k then
    let stored := map_index (store sv d) 0 rows in
    (inr (if representation sv then Some stored else None),
     mkDb (table d ++ stored) (S k) (drawn d + List.length rows))
  else
    (inl (StatementFailed k), mkDb (table d) (S k) (drawn d + skipped sv k)).

(** [insertChunk(reviewId, chunkText, chunkIndex, embedding, stars)]:
    the error is thrown again, the data returned. *)
Definition insertChunk (sv : server) (d : database)
    (reviewId chunkText : option jsstring) (chunkIndex : option Z)
    (embedding : option embedding) (stars : option Z)
    : (store_error + option (list stored_row)) * database :=
  insert_statement sv d
    [mkInsert None reviewId chunkText chunkIndex embedding stars None None].

(** [insertBatchChunks(chunks)] *)
Definition insertBatchChunks (sv : server) (d : database) (chunks : list insert_row)
    : (store_error + option (list stored_row)) * database :=
  insert_statement sv d chunks.

(** [getReviewCount()]: [select('*', { count: 'exact', head: true })]. *)
Definition getReviewCount (sv : server) (d : database)
    : (store_error + Z) * database :=
  let k := statements d in
  if carried sv k
  then (inr (Z.of_nat (List.length (table d))), mkDb (table d) (S k) (drawn d))
  else (inl (StatementFailed k), mkDb (table d) (S k) (drawn d)).

(** [clearAllData()]: [delete().neq('id', 0)] removes the rows whose
    [id] is not 0. *)
Definition clearAllData (sv : server) (d : database)
    : (store_error + unit) * database :=
  let k := statements d in
  if carried sv k
  then (inr tt, mkDb (filter (fun r => s_id r =? 0) (table d)) (S k) (drawn d))
  else (inl (StatementFailed k), mkDb (table d) (S k) (drawn d)).

(** The calls that a user of the client can make. *)
Inductive call :=
| CallInsertChunk (reviewId chunkText : option jsstring) (chunkIndex : option Z)
    (embedding : option embedding) (stars : option Z)
| CallInsertBatchChunks (chunks : list insert_row)
| CallGetReviewCount
| CallClearAllData.

Definition perform (sv : server) (d : database) (c : call) : database :=
  match c with
  | CallInsertChunk a b c e s => snd (insertChunk sv d a b c e s)
  | CallInsertBatchChunks chunks => snd (insertBatchChunks sv d chunks)
  | CallGetReviewCount => snd (getReviewCount sv d)
  | CallClearAllData => snd (clearAllData sv d)
  end.

(** The database after a sequence of calls on an empty table. *)
Definition after (sv : server) (calls : list call) : database :=
  fold_left (perform sv) calls empty_database.

(** The identifier of a row: the one sent with it, or else a value of
    the sequence. *)
Definition identified (sv : server) (r : stored_row) : Prop :=
  match i_id (s_row r) with
  | Some given => s_id r = given
  | None => exists j, s_id r = serial sv j
  end.

(** Every row of the table has such an identifier. *)
Definition from_sequence (sv : server) (d : database) : Prop :=
  Forall (identified sv) (table d).

(** A call that sends no row with the identifier 0. *)
Definition sends_no_zero (c : call) : Prop :=
  match c with
  | CallInsertBatchChunks chunks => Forall (fun r => i_id r <> Some 0) chunks
  | _ => True
  end.

(** No row was sent with the identifier 0. *)
Definition without_sent_zero (d : database) : Prop :=
  Forall (fun r => i_id (s_row r) <> Some 0) (table d).

(** Example data: a server that carries out every statement and counts
    identifiers from 1, and two calls that insert three rows. *)
Definition willing : server :=
  mkServer (fun _ => true) (fun j => Z.of_nat j + 1) (fun _ => 0%nat) false.
Definition sample_calls : list call :=
  [ CallInsertChunk (Some (str "r")) (Some (str "t")) (Some 0) None (Some 5);
    CallInsertBatchChunks
      [ mkInsert (Some 40) (Some (str "r")) (Some (str "u")) (Some 1) None (Some 5)
          None None;
        mkInsert None (Some (str "s")) (Some (str "v")) (Some 0) None (Some 2)
          None None ] ].

End Store.

(* ================================================================== *)
(** * The ingestion pipeline *)
(* ================================================================== *)

Module Pipeline.
Import Embedding Store Ingestion Download.

Record state := mkState {
  world_of : world;
  db_of : database;
  processedCount : Z
}.

(** The objects of [insertData]: [embeddings[index]] is [undefined]
    when the array is too short. *)
Definition insertData (batch : list review_chunk) (embeddings : list embedding)
    : list insert_row :=
  map_index
    (fun chunk index =>
       mkInsert None (Some (reviewId chunk)) (Some (Chunker.chunk_text chunk))
                (Some (chunkIndex chunk)) (nth_error embeddings index)
                (Some (chunk_stars chunk)) None None)
    0 batch.

Definition batchSize : nat := 10.

(** The [for] loop of [processDataset] from index [i] on.  A batch
    whose embeddings or whose insertion fail is given up, and the loop
    goes on with the next one. *)
Fixpoint batchesLoop (fuel : nat) (svc : service) (sv : server)
    (chunks : list review_chunk) (i : nat) (st : state) : option state :=
  match fuel with
  | O => None
  | S fuel' =>
      if (i <? List.length chunks)%nat then
        let batch := firstn batchSize (skipn i chunks) in
        let texts := List.map Chunker.chunk_text batch in
        match createBatchEmbeddings svc texts (world_of st) with
        | (Throw _, w1) =>
            batchesLoop fuel' svc sv chunks (i + batchSize)
              (mkState w1 (db_of st) (processedCount st))
        | (Ok embeddings, w1) =>
            match insertBatchChunks sv (db_of st) (insertData batch embeddings) with
            | (inl _, d1) =>
                batchesLoop fuel' svc sv chunks (i + batchSize)
                  (mkState w1 d1 (processedCount st))
            | (inr _, d1) =>
                batchesLoop fuel' svc sv chunks (i + batchSize)
                  (mkState (sleep 1000 w1) d1
                     (processedCount st + Z.of_nat (List.length batch)))
            end
        end
      else Some st
  end.

(** How [processDataset] ends: [process.exit(1)], or its last two
    lines, the chunks processed and the chunks counted in the table. *)
Inductive ending :=
| Exit1
| Finished (processed total : Z).

(** [processDataset()].  Without API key the constructor of
    [EmbeddingService] throws, and the outer [catch] exits; it does so
    too when [chunkReviews] throws and when the last count fails. *)
Definition processDataset (fuel loop_fuel : nat) (HF_API_KEY : option jsstring)
    (fresh : nat -> jsstring) (o : rows_outcome) (svc : service) (sv : server)
    (w : world) (d : database) : option (ending * state) :=
  let no_key := match HF_API_KEY with
                | None => true
                | Some key => len key =? 0
                end in
  if no_key then Some (Exit1, mkState w d 0)
  else
    let reviews := downloadYelpDataset o 50 in
    match Reviews.chunkReviews fuel ingestion_chunker fresh reviews true with
    | None => None
    | Some (TypeError, _) => Some (Exit1, mkState w d 0)
    | Some (Returns chunks, _) =>
        match batchesLoop loop_fuel svc sv chunks 0 (mkState w d 0) with
        | None => None
        | Some st =>
            match getReviewCount sv (db_of st) with
            | (inl _, d') => Some (Exit1, mkState (world_of st) d' (processedCount st))
            | (inr totalCount, d') =>
                Some (Finished (processedCount st) totalCount,
                      mkState (world_of st) d' (processedCount st))
            end
        end
    end.

(** A stored row has an embedding, and the log holds a request for the
    text of the row that was answered with it. *)
Definition embedded_row (l : list event) (r : stored_row) : Prop :=
  exists t e,
    i_chunk_text (s_row r) = Some t
    /\ i_embedding (s_row r) = Some e
    /\ In (Request t (Ok e)) l.

(** A stored row holds the identifier, text, index and rating of a
    chunk. *)
Definition row_of_chunk (ch : review_chunk) (r : stored_row) : Prop :=
  i_review_id (s_row r) = Some (reviewId ch)
  /\ i_chunk_text (s_row r) = Some (Chunker.chunk_text ch)
  /\ i_chunk_index (s_row r) = Some (chunkIndex ch)
  /\ i_stars (s_row r) = Some (chunk_stars ch).

(** A review on whose text [chunkText] throws: the text is not a
    string, and it passes the guard [!text || text.length === 0]. *)
Definition unreadable (r : review) : Prop :=
  exists v, text r = Some v
            /\ truthy (Some v) = true
            /\ length_is_zero v = false
            /\ forall s, v <> JString s.

(** The batch that starts at index [p]: [chunks.slice(p, p + batchSize)]. *)
Definition batch_at (chunks : list review_chunk) (p : nat) : list review_chunk :=
  firstn batchSize (skipn p chunks).

(** Example data: the pipeline on the two-row answer, with a service
    and a server that never fail; and on an answer whose second row
    has the number 42 as text. *)
Definition smooth_run : option (ending * state) :=
  processDataset 4 2 (Some (str "hf_key")) counter_ids two_rows
    BatchLog.steady_service willing start_world empty_database.
Definition number_row : rows_outcome :=
  RowsResolved (mkRowsResponse true 200
                  (Some [mkDatasetRow (Some (JString small_text)) 4;
                         mkDatasetRow (Some (JNumber 42)) 0])).
Definition broken_run : option (ending * state) :=
  processDataset 4 2 (Some (str "hf_key")) counter_ids number_row
    BatchLog.steady_service willing start_world empty_database.

End Pipeline.


(* ================================================================== *)
(** * Properties of the string operations *)
(* ================================================================== *)

Section StringFacts.

Lemma len_nonneg (s : jsstring) : 0 <= len s.
Proof. unfold len; lia. Qed.

Lemma len_app (s t : jsstring) : len (s ++ t) = len s + len t.
Proof. unfold len; rewrite length_app; lia. Qed.

Lemma len_nil_iff (s : jsstring) : len s = 0 <-> s = [].
Proof.
  unfold len; split; intros H.
  - destruct s; [reflexivity | simpl in H; lia].
  - subst; reflexivity.
Qed.

(** [trimStart] removes a prefix made of white space only. *)
Lemma trimStart_split (s : jsstring) :
  exists ws, s = ws ++ trimStart s /\ Forall (fun c => is_space c = true) ws.
Proof.
  induction s as [|c t IH]; simpl.
  - exists []; split; [reflexivity | constructor].
  - destruct (is_space c) eqn:Hc.
    + destruct IH as (ws & Heq & Hws).
      exists (c :: ws); split.
      * simpl; f_equal; exact Heq.
      * constructor; assumption.
    + exists []; split; [reflexivity | constructor].
Qed.

Lemma trimEnd_split (s : jsstring) :
  exists ws, s = trimEnd s ++ ws /\ Forall (fun c => is_space c = true) ws.
Proof.
  unfold trimEnd.
  destruct (trimStart_split (rev s)) as (ws & Heq & Hws).
  exists (rev ws); split.
  - rewrite <- rev_app_distr, <- Heq, rev_involutive; reflexivity.
  - apply Forall_rev; exact Hws.
Qed.

(** [trim] removes white space at both ends and nothing else. *)
Lemma trim_split (s : jsstring) :
  exists l r, s = l ++ trim s ++ r
              /\ Forall (fun c => is_space c = true) l
              /\ Forall (fun c => is_space c = true) r.
Proof.
  unfold trim.
  destruct (trimStart_split s) as (l & Hl & Hlws).
  destruct (trimEnd_split (trimStart s)) as (r & Hr & Hrws).
  exists l, r; split; [| split; assumption].
  rewrite <- Hr; exact Hl.
Qed.

Lemma trim_len_le (s : jsstring) : len (trim s) <= len s.
Proof.
  destruct (trim_split s) as (l & r & Heq & _).
  rewrite Heq at 2; rewrite !len_app.
  pose proof (len_nonneg l); pose proof (len_nonneg r); lia.
Qed.

Lemma replace_spaces_len_le (s : jsstring) : len (replace_spaces s) <= len s.
Proof.
  unfold len.
  induction s as [|c t IH]; simpl; [lia |].
  destruct (is_space c).
  - destruct t as [|c' t']; [simpl; lia |].
    destruct (is_space c'); simpl in *; lia.
  - simpl; lia.
Qed.

(** Cleaning never makes a text longer. *)
Lemma clean_len_le (s : jsstring) : len (clean s) <= len s.
Proof.
  unfold clean.
  pose proof (replace_spaces_len_le (trim s)); pose proof (trim_len_le s); lia.
Qed.

Lemma lastIndexOf_from_range (p s : jsstring) (i acc : Z) :
  lastIndexOf_from p s i acc = acc \/ i <= lastIndexOf_from p s i acc.
Proof.
  revert i acc; induction s as [|c t IH]; intros i acc; simpl.
  - destruct (starts_with p []); [right; lia | left; reflexivity].
  - destruct (IH (i + 1) (if starts_with p (c :: t) then i else acc)) as [H | H].
    + rewrite H; destruct (starts_with p (c :: t)); [right; lia | left; reflexivity].
    + right; lia.
Qed.

(** [lastIndexOf] answers [-1] or an index. *)
Lemma lastIndexOf_range (s p : jsstring) :
  lastIndexOf s p = -1 \/ 0 <= lastIndexOf s p.
Proof. apply lastIndexOf_from_range. Qed.

End StringFacts.

(* ================================================================== *)
(** * Properties of the chunker *)
(* ================================================================== *)

Section ShortTexts.

(** C4 (as amended).  A text that still has a character after cleaning
    and is no longer than the chunk size yields exactly one chunk, the
    cleaned text, whatever the fuel: the loop is not entered. *)
Theorem chunkText_short_single (fuel : nat) (tc : TextChunker) (text : jsstring) :
  clean text <> [] ->
  len text <= chunkSize tc ->
  chunkText fuel tc text = Some [clean text].
Proof.
  intros Hne Hle; unfold chunkText.
  destruct (len text =? 0) eqn:H0.
  - apply Z.eqb_eq, len_nil_iff in H0; subst text.
    exfalso; apply Hne; reflexivity.
  - pose proof (clean_len_le text) as Hc.
    replace (len (clean text) <=? chunkSize tc) with true
      by (symmetry; apply Z.leb_le; lia).
    reflexivity.
Qed.

Lemma chunkText_short_single_witness :
  chunkText 0 (mkChunker 20 0) (str "  Great   food. ") = Some [str "Great food."].
Proof.
  apply (chunkText_short_single 0 (mkChunker 20 0) (str "  Great   food. ")).
  - vm_compute; discriminate.
  - vm_compute; discriminate.
Defined.

(** C4, as stated, fails on the empty text: its length is within any
    non-negative chunk size, and no chunk is returned. *)
Lemma chunkText_short_empty_counterexample :
  ~ (forall (fuel : nat) (tc : TextChunker) (text : jsstring),
        len text <= chunkSize tc ->
        chunkText fuel tc text = Some [clean text]).
Proof.
  intros H.
  specialize (H 0%nat default_chunker []).
  assert (Hle : len [] <= chunkSize default_chunker) by (vm_compute; discriminate).
  specialize (H Hle); vm_compute in H; discriminate H.
Qed.

(** C5.  A text of three spaces is empty after cleaning, and
    [chunkText] returns one chunk for it, the empty string. *)
Theorem chunkText_blank_input (fuel : nat) :
  clean (str "   ") = []
  /\ chunkText fuel default_chunker (str "   ") = Some [[]].
Proof. split; reflexivity. Qed.

End ShortTexts.

Section NoProgress.

Lemma chunkLoop_step (fuel : nat) (tc : TextChunker) (c : jsstring)
    (start : Z) (chunks : list jsstring) (e : Z) :
  window_end tc c start = e ->
  (start <? len c) = true ->
  (e - overlap tc >=? len c) = false ->
  chunkLoop (S fuel) tc c start chunks
  = chunkLoop fuel tc c (e - overlap tc) (push_chunk c start e chunks).
Proof.
  intros He Hs Hx; simpl; rewrite Hs, He, Hx; reflexivity.
Qed.

(** From a start position between -10 and -3 the loop comes back to
    such a position: -3, -6, -9, -4, -7, -10, -5, -8, and -3 again. *)
Lemma chunkLoop_cycle (fuel : nat) :
  forall (start : Z) (chunks : list jsstring),
    -10 <= start <= -3 ->
    chunkLoop fuel cycling_chunker cycling_text start chunks = None.
Proof.
  induction fuel as [|fuel IH]; intros start chunks Hs; [reflexivity |].
  assert (Hcases : start = -10 \/ start = -9 \/ start = -8 \/ start = -7
                   \/ start = -6 \/ start = -5 \/ start = -4 \/ start = -3) by lia.
  destruct Hcases as [H|[H|[H|[H|[H|[H|[H|H]]]]]]]; subst start.
  - rewrite (chunkLoop_step _ _ _ _ _ 0) by (vm_compute; reflexivity).
    apply IH; cbn; lia.
  - rewrite (chunkLoop_step _ _ _ _ _ 1) by (vm_compute; reflexivity).
    apply IH; cbn; lia.
  - rewrite (chunkLoop_step _ _ _ _ _ 2) by (vm_compute; reflexivity).
    apply IH; cbn; lia.
  - rewrite (chunkLoop_step _ _ _ _ _ (-5)) by (vm_compute; reflexivity).
    apply IH; cbn; lia.
  - rewrite (chunkLoop_step _ _ _ _ _ (-4)) by (vm_compute; reflexivity).
    apply IH; cbn; lia.
  - rewrite (chunkLoop_step _ _ _ _ _ (-3)) by (vm_compute; reflexivity).
    apply IH; cbn; lia.
  - rewrite (chunkLoop_step _ _ _ _ _ (-2)) by (vm_compute; reflexivity).
    apply IH; cbn; lia.
  - rewrite (chunkLoop_step _ _ _ _ _ (-1)) by (vm_compute; reflexivity).
    apply IH; cbn; lia.
Qed.

(** C2.  With chunk size 10 and overlap 5 (an overlap below the chunk
    size) the loop never ends on the text "a. bbbbbbbbbbbbbbbbbbbb":
    the sentence end found at index 1 moves the right edge to 2, the
    next start is 2 - 5 = -3, behind the first one, and the start
    positions then cycle, so no amount of fuel gives a result. *)
Theorem chunkText_overlap_loops_forever (fuel : nat) :
  overlap cycling_chunker < chunkSize cycling_chunker
  /\ window_end cycling_chunker cycling_text 0 - overlap cycling_chunker = -3
  /\ chunkText fuel cycling_chunker cycling_text = None.
Proof.
  split; [reflexivity | split; [reflexivity |]].
  unfold chunkText.
  replace (len cycling_text =? 0) with false by reflexivity.
  replace (len (clean cycling_text) <=? chunkSize cycling_chunker) with false
    by reflexivity.
  replace (clean cycling_text) with cycling_text by reflexivity.
  destruct fuel as [|fuel]; [reflexivity |].
  rewrite (chunkLoop_step _ _ _ _ _ 2) by (vm_compute; reflexivity).
  apply chunkLoop_cycle; cbn; lia.
Qed.

End NoProgress.

(** ** Forward progress and termination *)

Section Progress.

Variable tc : TextChunker.
Variable c : jsstring.
Hypothesis overlap_nonneg : 0 <= overlap tc.
Hypothesis overlap_below_size : overlap tc < chunkSize tc.
Hypothesis overlap_below_search_zone : overlap tc <= Z.max (chunkSize tc - 100) 0.

(** The sentence search never moves the right edge further back than
    one position after the start of the search zone. *)
Lemma window_end_lower (start : Z) :
  start + Z.max (chunkSize tc - 100) 0 + 1 <= window_end tc c start.
Proof.
  unfold window_end.
  destruct (start + chunkSize tc <? len c); [| lia].
  destruct (match_sentence_ends _) as [|m ms]; [lia |].
  match goal with
  | |- context [lastIndexOf ?s ?p] =>
      destruct (lastIndexOf_range s p) as [H | H];
      destruct (lastIndexOf s p =? -1) eqn:E
  end; lia.
Qed.

(** Each iteration strictly advances the start position. *)
Lemma next_start_advances (start : Z) :
  start < window_end tc c start - overlap tc.
Proof. pose proof (window_end_lower start); lia. Qed.

Lemma chunkLoop_terminates (fuel : nat) :
  forall (start : Z) (chunks : list jsstring),
    Z.max 0 (len c - start) < Z.of_nat fuel ->
    exists out, chunkLoop fuel tc c start chunks = Some out.
Proof.
  induction fuel as [|fuel IH]; intros start chunks Hfuel; [lia |].
  simpl.
  destruct (start <? len c) eqn:Hs; [| eexists; reflexivity].
  destruct (window_end tc c start - overlap tc >=? len c) eqn:Hx;
    [eexists; reflexivity |].
  apply IH.
  pose proof (next_start_advances start).
  apply Z.ltb_lt in Hs. lia.
Qed.

End Progress.

(** ** Fuel *)

Section Fuel.

(** More fuel does not change a result. *)
Lemma chunkLoop_more_fuel (tc : TextChunker) (c : jsstring) (fuel k : nat) :
  forall (start : Z) (chunks out : list jsstring),
    chunkLoop fuel tc c start chunks = Some out ->
    chunkLoop (fuel + k) tc c start chunks = Some out.
Proof.
  induction fuel as [|fuel IH]; intros start chunks out H; [discriminate H |].
  simpl in *.
  destruct (start <? len c); [| exact H].
  destruct (window_end tc c start - overlap tc >=? len c); [exact H |].
  apply IH; exact H.
Qed.

Lemma chunkLoop_deterministic (tc : TextChunker) (c : jsstring) (f1 f2 : nat)
    (start : Z) (chunks out1 out2 : list jsstring) :
  chunkLoop f1 tc c start chunks = Some out1 ->
  chunkLoop f2 tc c start chunks = Some out2 ->
  out1 = out2.
Proof.
  intros H1 H2.
  apply (chunkLoop_more_fuel _ _ _ f2) in H1.
  apply (chunkLoop_more_fuel _ _ _ f1) in H2.
  rewrite Nat.add_comm in H2; congruence.
Qed.

Lemma chunkText_deterministic (tc : TextChunker) (text : jsstring) (f1 f2 : nat)
    (out1 out2 : list jsstring) :
  chunkText f1 tc text = Some out1 ->
  chunkText f2 tc text = Some out2 ->
  out1 = out2.
Proof.
  unfold chunkText.
  destruct (len text =? 0); [congruence |].
  destruct (len (clean text) <=? chunkSize tc); [congruence |].
  apply chunkLoop_deterministic.
Qed.

End Fuel.

(** ** Coverage of the cleaned text *)

Section Coverage.

Lemma substring_split (s : jsstring) (a b : Z) :
  let lo := Z.to_nat (Z.min (clamp (len s) a) (clamp (len s) b)) in
  let hi := Z.to_nat (Z.max (clamp (len s) a) (clamp (len s) b)) in
  s = firstn lo s ++ substring s a b ++ skipn hi s
  /\ List.length (firstn lo s) = lo
  /\ List.length (substring s a b) = (hi - lo)%nat.
Proof.
  intros lo hi.
  assert (Hlo : (lo <= hi)%nat) by (subst lo hi; lia).
  assert (Hhi : (hi <= List.length s)%nat)
    by (subst lo hi; unfold clamp, len; lia).
  assert (Hsub : substring s a b = firstn (hi - lo) (skipn lo s)).
  { unfold substring; subst lo hi; cbv zeta.
    f_equal; unfold clamp, len; lia. }
  rewrite Hsub; repeat split.
  - replace (skipn hi s) with (skipn (hi - lo) (skipn lo s))
      by (rewrite skipn_skipn; f_equal; lia).
    rewrite firstn_skipn, firstn_skipn; reflexivity.
  - rewrite length_firstn; lia.
  - rewrite length_firstn, length_skipn; lia.
Qed.




Variable tc : TextChunker.
Variable c : jsstring.
Hypothesis overlap_nonneg : 0 <= overlap tc.


End Coverage.

Section CoverageOfChunkText.





End CoverageOfChunkText.

(** ** Chunks of a review *)

Section ReviewChunks.

Lemma map_index_length {A B : Type} (f : A -> nat -> B) (l : list A) :
  forall i, List.length (map_index f i l) = List.length l.
Proof. induction l as [|x t IH]; intros i; simpl; [| rewrite IH]; reflexivity. Qed.

Lemma map_index_Forall {A B : Type} (f : A -> nat -> B) (P : B -> Prop) (l : list A) :
  (forall x k, P (f x k)) -> forall i, Forall P (map_index f i l).
Proof.
  intros HP; induction l as [|x t IH]; intros i; simpl; constructor; auto.
Qed.

Lemma map_index_map {A B C : Type} (f : A -> nat -> B) (g : B -> C) (h : nat -> C)
    (l : list A) :
  (forall x k, g (f x k) = h k) ->
  forall i, List.map g (map_index f i l) = List.map h (seq i (List.length l)).
Proof.
  intros Hg; induction l as [|x t IH]; intros i; simpl; [reflexivity |].
  rewrite Hg, IH; reflexivity.
Qed.

Lemma map_index_payload {A B : Type} (f : A -> nat -> B) (g : B -> A) (l : list A) :
  (forall x k, g (f x k) = x) ->
  forall i, List.map g (map_index f i l) = l.
Proof.
  intros Hg; induction l as [|x t IH]; intros i; simpl; [reflexivity |].
  rewrite Hg, IH; reflexivity.
Qed.

Variable fuel : nat.
Variable tc : TextChunker.
Variable fresh : nat -> jsstring.

(** What [chunkReview] returns is made from what [chunkText] returns
    for the text of the review. *)
Lemma chunkReview_Returns (r : review) (out : list review_chunk) :
  chunkReview fuel tc fresh r = Some (Returns out) ->
  exists chunks,
    chunkTextAny fuel tc (text_or_empty r) = Some (Returns chunks)
    /\ out = map_index
               (fun chunk index =>
                  {| reviewId := id_or_fresh fresh r index;
                     chunk_text := chunk;
                     chunkIndex := Z.of_nat index;
                     chunk_stars := stars_or_zero r;
                     originalReview := r |})
               0%nat chunks.
Proof.
  unfold chunkReview; intros H.
  destruct (chunkTextAny fuel tc (text_or_empty r)) as [[chunks|]|];
    [| discriminate H | discriminate H].
  injection H as <-; exists chunks; split; reflexivity.
Qed.

(** The chunks of a review are the chunks of its text in emission
    order, numbered 0, 1, 2, ...; when the review has a non-empty
    [review_id], every chunk carries it. *)
Theorem chunkReview_index_and_owner (r : review) (out : list review_chunk) :
  chunkReview fuel tc fresh r = Some (Returns out) ->
  chunkTextAny fuel tc (text_or_empty r)
  = Some (Returns (List.map Chunker.chunk_text out))
  /\ List.map chunkIndex out = List.map Z.of_nat (seq 0 (List.length out))
  /\ forall id, review_id r = Some id -> id <> [] ->
                Forall (fun ch => reviewId ch = id) out.
Proof.
  intros H.
  destruct (chunkReview_Returns r out H) as (chunks & Htext & ->).
  rewrite Htext.
  split; [| split].
  - do 2 f_equal; symmetry; apply map_index_payload; reflexivity.
  - rewrite map_index_length; apply map_index_map; reflexivity.
  - intros id Hid Hne.
    apply map_index_Forall; intros x k; simpl.
    unfold id_or_fresh; rewrite Hid.
    destruct (len id =? 0) eqn:E; [| reflexivity].
    apply Z.eqb_eq, len_nil_iff in E; contradiction.
Qed.

(** C10 (as amended).  Every chunk of a review carries the rating of
    the review, 0 standing for a missing one; it lies between 1 and 5
    when the rating of the review does. *)
Theorem chunkReview_stars (r : review) (out : list review_chunk) :
  chunkReview fuel tc fresh r = Some (Returns out) ->
  Forall (fun ch => chunk_stars ch = stars_or_zero r) out
  /\ forall n, stars r = Some n -> 1 <= n <= 5 ->
               Forall (fun ch => 1 <= chunk_stars ch <= 5) out.
Proof.
  intros H.
  destruct (chunkReview_Returns r out H) as (chunks & _ & ->).
  split.
  - apply map_index_Forall; reflexivity.
  - intros n Hn Hrange.
    apply map_index_Forall; intros x k; simpl.
    unfold stars_or_zero; rewrite Hn.
    destruct (n =? 0) eqn:E; [apply Z.eqb_eq in E |]; lia.
Qed.

End ReviewChunks.

Section IngestedChunks.
Import Ingestion.

(** During ingestion a dataset row with a label between 0 and 4 yields
    chunks that all carry the rating [label + 1], between 1 and 5, and
    the identifier made from the index of the row. *)
Theorem ingested_chunk_stars (fuel : nat) (tc : TextChunker)
    (fresh decimal : nat -> jsstring) (row : dataset_row) (index : nat)
    (out : list review_chunk) :
  0 <= label row <= 4 ->
  chunkReview fuel tc fresh (review_of_row decimal row index) = Some (Returns out) ->
  Forall (fun ch => chunk_stars ch = label row + 1
                    /\ 1 <= chunk_stars ch <= 5
                    /\ reviewId ch = str "yelp_" ++ decimal index) out.
Proof.
  intros Hl H.
  destruct (chunkReview_Returns _ _ _ _ _ H) as (chunks & _ & ->).
  apply map_index_Forall; intros x k; simpl.
  unfold stars_or_zero; simpl.
  destruct (label row + 1 =? 0) eqn:E; [apply Z.eqb_eq in E; lia |].
  repeat split; lia.
Qed.

Lemma ingested_chunk_stars_witness :
  Forall (fun ch => chunk_stars ch = label sample_row + 1
                    /\ 1 <= chunk_stars ch <= 5
                    /\ reviewId ch = str "yelp_" ++ digit 0)
         sample_ingested.
Proof.
  apply (ingested_chunk_stars 4 small_chunker counter_ids digit sample_row 0).
  - vm_compute; split; discriminate.
  - vm_compute; reflexivity.
Defined.

(** With the default configuration (500, 50) and with the one used for
    ingestion (300, 50) [chunkText] returns for every text, given more
    fuel than the cleaned text has characters. *)
Theorem chunkText_returns_in_use (text : jsstring) :
  (exists chunks,
      chunkText (S (List.length (clean text))) default_chunker text = Some chunks)
  /\ (exists chunks,
         chunkText (S (List.length (clean text))) ingestion_chunker text
         = Some chunks).
Proof.
  assert (H : forall tc, 0 <= overlap tc -> overlap tc < chunkSize tc ->
                overlap tc <= Z.max (chunkSize tc - 100) 0 ->
                exists chunks,
                  chunkText (S (List.length (clean text))) tc text = Some chunks).
  { intros tc H0 Hlt Hgap; unfold chunkText.
    destruct (len text =? 0); [eexists; reflexivity |].
    destruct (len (clean text) <=? chunkSize tc); [eexists; reflexivity |].
    apply (chunkLoop_terminates tc (clean text) H0 Hlt Hgap).
    unfold len; lia. }
  split; apply H; vm_compute; congruence.
Qed.

End IngestedChunks.

Section ReviewChunkExamples.

Lemma chunkReview_index_and_owner_witness :
  chunkTextAny 4 small_chunker (text_or_empty sample_review)
  = Some (Returns (List.map Chunker.chunk_text sample_chunks))
  /\ List.map chunkIndex sample_chunks
     = List.map Z.of_nat (seq 0 (List.length sample_chunks))
  /\ forall id, review_id sample_review = Some id -> id <> [] ->
                Forall (fun ch => reviewId ch = id) sample_chunks.
Proof.
  apply (chunkReview_index_and_owner 4 small_chunker counter_ids
           sample_review sample_chunks).
  vm_compute; reflexivity.
Defined.

(** C7.  For a review without [review_id] the identifier is
    generated again for every chunk: with chunk size 4 and no overlap
    the three chunks of "ab. cdefgh" carry the results of three
    evaluations of the fallback template, which differ as soon as two
    evaluations do. *)
Theorem chunkReview_fresh_id_per_chunk (fresh : nat -> jsstring) :
  (exists out,
      chunkReview 4 small_chunker fresh anonymous_review = Some (Returns out)
      /\ List.map reviewId out = [fresh 0%nat; fresh 1%nat; fresh 2%nat]
      /\ List.map chunkIndex out = [0; 1; 2])
  /\ counter_ids 0 <> counter_ids 1.
Proof.
  split; [| vm_compute; discriminate].
  eexists; split; [reflexivity |].
  split; reflexivity.
Qed.

Lemma chunkReview_stars_witness :
  Forall (fun ch => chunk_stars ch = stars_or_zero sample_review) sample_chunks
  /\ forall n, stars sample_review = Some n -> 1 <= n <= 5 ->
               Forall (fun ch => 1 <= chunk_stars ch <= 5) sample_chunks.
Proof.
  apply (chunkReview_stars 4 small_chunker counter_ids sample_review sample_chunks).
  vm_compute; reflexivity.
Defined.

(** C10, as stated, fails for a review without a rating: its chunks
    carry the rating 0. *)
Lemma chunkReview_stars_counterexample :
  ~ (forall (fuel : nat) (tc : TextChunker) (fresh : nat -> jsstring)
            (r : review) (out : list review_chunk),
        chunkReview fuel tc fresh r = Some (Returns out) ->
        Forall (fun ch => 1 <= chunk_stars ch <= 5) out).
Proof.
  intros H.
  pose proof (H 4%nat small_chunker counter_ids anonymous_review) as H'.
  let v := eval vm_compute in
             (chunkReview 4 small_chunker counter_ids anonymous_review) in
  match v with Some (Returns ?out) => specialize (H' out) end.
  assert (Hall := H' ltac:(vm_compute; reflexivity)).
  inversion Hall as [| ? ? H0 _]; subst.
  vm_compute in H0; destruct H0 as [H0 _]; apply H0; reflexivity.
Qed.

(** [chunkText] on values that are not strings: the falsy ones and
    those with a [length] of 0 give no chunk, the others make the call
    of [trim] throw. *)
Example chunkTextAny_values :
  List.map (chunkTextAny 4 small_chunker)
    [ JNull; JBool false; JNumber 0; JString []; JArray [];
      JObject [(str "length", JNumber 0)] ]
  = repeat (Some (Returns [])) 6
  /\ List.map (chunkTextAny 4 small_chunker)
       [ JBool true; JNumber 42; JArray [JString small_text]; JObject [] ]
     = repeat (Some TypeError) 4.
Proof. split; reflexivity. Qed.

End ReviewChunkExamples.

(* ================================================================== *)
(** * Properties of the embedding client *)
(* ================================================================== *)

Section EmbeddingClient.
Import Embedding.

Lemma is_embedding_Some (j : json) (v : embedding) :
  is_embedding j = Some v <-> j = JArray v /\ List.length v = 384%nat.
Proof.
  split.
  - destruct j; simpl; try discriminate.
    destruct (List.length items =? 384)%nat eqn:E; [| discriminate].
    intros [= <-]; apply Nat.eqb_eq in E; auto.
  - intros [-> Hlen]; simpl.
    apply Nat.eqb_eq in Hlen; rewrite Hlen; reflexivity.
Qed.

(** The vector is returned exactly for a response with a success
    status whose body is an array of 384 elements. *)
Lemma handle_response_Ok (o : fetch_outcome) (v : embedding) :
  handle_response o = Ok v
  <-> exists r, o = FetchResolved r /\ ok r = true
                /\ body_json r = Some (JArray v) /\ List.length v = 384%nat.
Proof.
  split.
  - destruct o as [|r]; simpl; [discriminate |].
    destruct (ok r) eqn:Hok; simpl; [| discriminate].
    destruct (body_json r) as [j|] eqn:Hj; [| discriminate].
    destruct (is_embedding j) as [e|] eqn:He; [| discriminate].
    intros [= ->]; apply is_embedding_Some in He as [-> Hlen].
    exists r; auto.
  - intros (r & -> & Hok & Hj & Hlen); simpl.
    rewrite Hok, Hj; simpl.
    apply Nat.eqb_eq in Hlen; rewrite Hlen; reflexivity.
Qed.

(** C8 (as amended).  [createEmbedding] returns a vector exactly when
    the request is answered with a success status and a body that is
    an array of 384 elements, and the vector is that array; in every
    other case it throws. *)
Theorem createEmbedding_returns_iff (svc : service) (text : jsstring) (w : world) :
  (forall v,
      fst (createEmbedding svc text w) = Ok v
      <-> exists r, svc (calls w) text = FetchResolved r /\ ok r = true
                    /\ body_json r = Some (JArray v)
                    /\ List.length v = 384%nat)
  /\ (~ (exists r v, svc (calls w) text = FetchResolved r /\ ok r = true
                      /\ body_json r = Some (JArray v)
                      /\ List.length v = 384%nat)
      -> exists e, fst (createEmbedding svc text w) = Throw e).
Proof.
  unfold createEmbedding; simpl; split.
  - intros v; apply handle_response_Ok.
  - intros Hbad.
    destruct (handle_response (svc (calls w) text)) as [v | e] eqn:E;
      [| exists e; reflexivity].
    apply handle_response_Ok in E as (r & Hr & Hok & Hj & Hlen).
    exfalso; apply Hbad; exists r, v; auto.
Qed.

(** C8, as stated, fails: a response whose body is an array of 384
    elements but whose status is 503 makes the call throw. *)
Lemma createEmbedding_status_counterexample :
  ~ (forall (svc : service) (text : jsstring) (w : world) (r : response)
            (v : embedding),
        svc (calls w) text = FetchResolved r ->
        body_json r = Some (JArray v) ->
        List.length v = 384%nat ->
        fst (createEmbedding svc text w) = Ok v).
Proof.
  intros H.
  specialize (H refusing_service [] start_world unavailable zero_vector
                eq_refl eq_refl eq_refl).
  discriminate H.
Qed.

(** ** Batches *)

Lemma batch_trace_prepend (t : jsstring) (rest : list jsstring) (l l' : list event)
    (e : embedding) (r : result (list embedding)) :
  item_trace t l (Ok e) ->
  batch_trace rest l' r ->
  batch_trace (t :: rest) (l ++ l') (prepend e r).
Proof.
  intros Hi Hb; destruct r; simpl;
    [apply batch_next | apply batch_fails_later with (e := e)]; assumption.
Qed.

Lemma extend_prepend (acc : list embedding) (e : embedding)
    (r : result (list embedding)) :
  extend (acc ++ [e]) r = extend acc (prepend e r).
Proof. destruct r; simpl; [rewrite <- app_assoc |]; reflexivity. Qed.

(** The loop run from any state: what it adds to the log is a batch
    trace for the remaining texts, answered by the service. *)
Lemma batchLoop_trace (svc : service) (texts : list jsstring) :
  forall (i n : Z) (acc : list embedding) (w : world),
  exists new res,
    snd (batchLoop svc texts i n acc w)
    = mkWorld (calls w + requests_in new) (log w ++ new)
    /\ fst (batchLoop svc texts i n acc w) = extend acc res
    /\ batch_trace texts new res
    /\ answered svc (calls w) new.
Proof.
  induction texts as [|t rest IH]; intros i n acc w.
  - exists [], (Ok []); simpl; rewrite !app_nil_r, Nat.add_0_r.
    destruct w; repeat split; constructor.
  - simpl; unfold createEmbedding.
    destruct (handle_response (svc (calls w) t)) as [e | x] eqn:E1.
    + destruct (i <? n - 1).
      * destruct (IH (i + 1) n (acc ++ [e])
                    (sleep 1000 (mkWorld (S (calls w)) (log w ++ [Request t (Ok e)]))))
          as (new & res & Hw & Hr & Ht & Ha).
        exists ([Request t (Ok e); Sleep 1000] ++ new), (prepend e res).
        rewrite Hw, Hr; simpl; repeat split.
        -- f_equal; [lia | rewrite <- !app_assoc; reflexivity].
        -- apply extend_prepend.
        -- apply (batch_trace_prepend t rest [Request t (Ok e); Sleep 1000]);
             [constructor | exact Ht].
        -- symmetry; exact E1.
        -- exact Ha.
      * destruct (IH (i + 1) n (acc ++ [e])
                    (mkWorld (S (calls w)) (log w ++ [Request t (Ok e)])))
          as (new & res & Hw & Hr & Ht & Ha).
        exists ([Request t (Ok e)] ++ new), (prepend e res).
        rewrite Hw, Hr; simpl; repeat split.
        -- f_equal; [lia | rewrite <- !app_assoc; reflexivity].
        -- apply extend_prepend.
        -- apply (batch_trace_prepend t rest [Request t (Ok e)]);
             [constructor | exact Ht].
        -- symmetry; exact E1.
        -- exact Ha.
    + simpl.
      destruct (handle_response (svc (S (calls w)) t)) as [e | y] eqn:E2.
      * destruct (IH (i + 1) n (acc ++ [e])
                    (mkWorld (S (S (calls w)))
                       (((log w ++ [Request t (Throw x)]) ++ [Sleep 3000])
                        ++ [Request t (Ok e)])))
          as (new & res & Hw & Hr & Ht & Ha).
        exists ([Request t (Throw x); Sleep 3000; Request t (Ok e)] ++ new),
               (prepend e res).
        rewrite Hw, Hr; simpl; repeat split.
        -- f_equal; [lia | rewrite <- !app_assoc; reflexivity].
        -- apply extend_prepend.
        -- apply (batch_trace_prepend t rest
                    [Request t (Throw x); Sleep 3000; Request t (Ok e)]);
             [constructor | exact Ht].
        -- symmetry; exact E1.
        -- symmetry; exact E2.
        -- exact Ha.
      * exists [Request t (Throw x); Sleep 3000; Request t (Throw y)], (Throw y).
        simpl; repeat split.
        -- f_equal; [lia | rewrite <- !app_assoc; reflexivity].
        -- apply batch_fails_here; constructor.
        -- symmetry; exact E1.
        -- symmetry; exact E2.
Qed.

End EmbeddingClient.

Section Batches.
Import Embedding.

Lemma requests_in_app (l l' : list event) :
  requests_in (l ++ l') = (requests_in l + requests_in l')%nat.
Proof.
  induction l as [|ev l IH]; simpl; [reflexivity |].
  destruct ev; simpl; rewrite IH; reflexivity.
Qed.

(** A text is requested once, or twice when the first request
    failed. *)
Lemma item_trace_requests (t : jsstring) (l : list event) (r : result embedding) :
  item_trace t l r -> (1 <= requests_in l <= 2)%nat.
Proof. intros H; destruct H; simpl; lia. Qed.

Lemma item_trace_Ok (t : jsstring) (l : list event) (e : embedding) :
  item_trace t l (Ok e) -> In (Request t (Ok e)) l.
Proof. intros H; inversion H; subst; simpl; auto. Qed.

Lemma batch_trace_requests (texts : list jsstring) (l : list event)
    (r : result (list embedding)) :
  batch_trace texts l r -> (requests_in l <= 2 * List.length texts)%nat.
Proof.
  induction 1 as [| t rest l l' e embs Hi _ IH | t rest l l' e err Hi _ IH
                  | t rest l err Hi]; simpl.
  - lia.
  - rewrite requests_in_app; apply item_trace_requests in Hi; lia.
  - rewrite requests_in_app; apply item_trace_requests in Hi; lia.
  - apply item_trace_requests in Hi; lia.
Qed.

(** A batch trace that ends well has one embedding per text, in the
    order of the texts, each the answer to a request for its text. *)
Lemma batch_trace_Ok (texts : list jsstring) (l : list event)
    (r : result (list embedding)) :
  batch_trace texts l r ->
  forall embs, r = Ok embs ->
    Forall2 (fun t e => In (Request t (Ok e)) l) texts embs.
Proof.
  induction 1 as [| t rest l l' e embs' Hi _ IH | t rest l l' e err Hi _ IH
                  | t rest l err Hi]; intros embs Hr; try discriminate Hr.
  - injection Hr as <-; constructor.
  - injection Hr as <-; constructor.
    + apply in_or_app; left; apply item_trace_Ok; exact Hi.
    + eapply Forall2_impl; [| exact (IH embs' eq_refl)].
      intros a b Hab; apply in_or_app; right; exact Hab.
Qed.

(** C9.  What [createBatchEmbeddings] adds to the log is a batch
    trace answered by the service: every text is requested in turn, a
    failed request is followed by the cooldown and exactly one more
    request for the same text, and the failure of that one is the
    failure of the batch.  A batch that returns has one embedding per
    text, the i-th one being the answer to a request for the i-th
    text. *)
Theorem createBatchEmbeddings_in_order (svc : service) (texts : list jsstring)
    (w : world) :
  exists new,
    log (snd (createBatchEmbeddings svc texts w)) = log w ++ new
    /\ answered svc (calls w) new
    /\ batch_trace texts new (fst (createBatchEmbeddings svc texts w))
    /\ (requests_in new <= 2 * List.length texts)%nat
    /\ forall embs,
         fst (createBatchEmbeddings svc texts w) = Ok embs ->
         List.length embs = List.length texts
         /\ Forall2 (fun t e => In (Request t (Ok e)) new) texts embs.
Proof.
  unfold createBatchEmbeddings.
  destruct (batchLoop_trace svc texts 0 (Z.of_nat (List.length texts)) [] w)
    as (new & res & Hw & Hr & Ht & Ha).
  assert (Hres : fst (batchLoop svc texts 0 (Z.of_nat (List.length texts)) [] w) = res)
    by (rewrite Hr; destruct res; reflexivity).
  exists new; rewrite Hw, Hres; simpl; repeat split; auto.
  - eapply batch_trace_requests; exact Ht.
  - symmetry; eapply Forall2_length, batch_trace_Ok; eauto.
  - eapply batch_trace_Ok; eauto.
Qed.

End Batches.

(* ================================================================== *)
(** * Properties of sorting *)
(* ================================================================== *)

Section SortFacts.

Context {A : Type}.
Variable before : A -> A -> bool.

Lemma insert_perm (x : A) (l : list A) :
  Permutation (OrderBy.insert before x l) (x :: l).
Proof.
  induction l as [|y t IH]; simpl; [reflexivity |].
  destruct (before x y); [reflexivity |].
  rewrite IH; apply perm_swap.
Qed.

(** Sorting rearranges, and neither adds nor drops an element. *)
Lemma sort_perm (l : list A) : Permutation (OrderBy.sort before l) l.
Proof.
  induction l as [|x t IH]; simpl; [reflexivity |].
  rewrite insert_perm, IH; reflexivity.
Qed.


Hypothesis before_total : forall a b, before a b = true \/ before b a = true.
Hypothesis before_trans :
  forall a b c, before a b = true -> before b c = true -> before a c = true.

Lemma insert_sorted (x : A) (l : list A) :
  StronglySorted (fun a b => before a b = true) l ->
  StronglySorted (fun a b => before a b = true) (OrderBy.insert before x l).
Proof.
  induction 1 as [| y t Hs IH Hy]; simpl.
  - repeat constructor.
  - destruct (before x y) eqn:E.
    + constructor; [constructor; assumption |].
      constructor; [exact E |].
      rewrite Forall_forall in *; intros z Hz.
      apply (before_trans x y z E); auto.
    + constructor; [exact IH |].
      rewrite Forall_forall in *; intros z Hz.
      apply (Permutation_in _ (insert_perm x t)) in Hz.
      destruct Hz as [<- | Hz]; [| auto].
      destruct (before_total x y) as [H | H]; congruence.
Qed.

(** The result of sorting is ordered: each element comes no later
    than all those after it. *)
Lemma sort_sorted (l : list A) :
  StronglySorted (fun a b => before a b = true) (OrderBy.sort before l).
Proof.
  induction l as [|x t IH]; simpl; [constructor | apply insert_sorted; exact IH].
Qed.

End SortFacts.

Section ListFacts.

Context {A B : Type}.

Lemma firstn_In (n : nat) (l : list A) (x : A) : In x (firstn n l) -> In x l.
Proof.
  revert l; induction n as [|n IH]; intros [|y t]; simpl; try tauto.
  intros [-> | H]; auto.
Qed.

Lemma firstn_sorted (R : A -> A -> Prop) (n : nat) (l : list A) :
  StronglySorted R l -> StronglySorted R (firstn n l).
Proof.
  intros H; revert n; induction H as [| y t Hs IH Hy]; intros [|n]; simpl;
    try constructor; auto.
  rewrite Forall_forall in *; intros z Hz; apply Hy, (firstn_In n); exact Hz.
Qed.

Lemma map_sorted (R : A -> A -> Prop) (R' : B -> B -> Prop) (f : A -> B)
    (l : list A) :
  (forall a b, In a l -> In b l -> R a b -> R' (f a) (f b)) ->
  StronglySorted R l -> StronglySorted R' (List.map f l).
Proof.
  intros Hf H; induction H as [| y t Hs IH Hy]; simpl; constructor.
  - apply IH; intros a b Ha Hb; apply Hf; right; assumption.
  - rewrite Forall_forall in *; intros z Hz.
    apply in_map_iff in Hz as (a & <- & Ha).
    apply Hf; [left; reflexivity | right; exact Ha | auto].
Qed.

End ListFacts.

(* ================================================================== *)
(** * Properties of the similarity search *)
(* ================================================================== *)

Section SimilaritySearch.
Import VectorStore.

Variable cosine_distance : vector -> vector -> float8.
Variable query : vector.







Lemma dimension_error_None (table : list review_chunks) (r : review_chunks)
    (e : vector) :
  dimension_error query table = None ->
  In r table -> embedding r = Some e -> List.length e = List.length query.
Proof.
  induction table as [|r0 rest IH]; simpl; [tauto |].
  intros H [-> | Hin] He.
  - rewrite He in H.
    destruct (List.length e =? List.length query)%nat eqn:Hd; [| discriminate H].
    apply Nat.eqb_eq; exact Hd.
  - destruct (embedding r0) as [e0|]; [| auto].
    destruct (List.length e0 =? List.length query)%nat; [auto | discriminate H].
Qed.





End SimilaritySearch.

Section SimilaritySearchExamples.
Import VectorStore.


End SimilaritySearchExamples.

(* ================================================================== *)
(** * Properties of the hybrid ranking *)
(* ================================================================== *)

Section RankOrder.
Import Hybrid.

(** The boolean test of the sort decides the ranking relation. *)
Lemma ranks_before_ranked (a b : SearchResult) :
  ranks_before a b = true <-> ranked a b.
Proof.
  unfold ranks_before, ranked.
  destruct (combinedScore b ?= combinedScore a)%Q eqn:Ec;
    [apply Qeq_alt in Ec | apply Qlt_alt in Ec | apply Qgt_alt in Ec].
  - destruct (score_or_zero (semanticScore b) ?= score_or_zero (semanticScore a))%Q
      eqn:Es;
      [apply Qeq_alt in Es | apply Qlt_alt in Es | apply Qgt_alt in Es].
    + rewrite Z.leb_le; split; [intros H; right; split; [exact Ec |]; right; auto |].
      intros [H | (_ & [H | (_ & H)])]; [lra | lra | exact H].
    + split; [intros _; right; split; [exact Ec | left; exact Es] | reflexivity].
    + split; [discriminate |].
      intros [H | (_ & [H | (H & _)])]; lra.
  - split; [intros _; left; exact Ec | reflexivity].
  - split; [discriminate |].
    intros [H | (H & _)]; lra.
Qed.

Lemma ranked_total (a b : SearchResult) : ranked a b \/ ranked b a.
Proof.
  unfold ranked.
  destruct (Q_dec (combinedScore a) (combinedScore b)) as [[H | H] | H];
    [right; left; exact H | left; left; exact H |].
  destruct (Q_dec (score_or_zero (semanticScore a)) (score_or_zero (semanticScore b)))
    as [[H' | H'] | H'].
  - right; right; split; [exact H | left; exact H'].
  - left; right; split; [symmetry; exact H | left; exact H'].
  - destruct (Z.le_ge_cases (chunkId a) (chunkId b)).
    + left; right; split; [symmetry; exact H |].
      right; split; [symmetry; exact H' | assumption].
    + right; right; split; [exact H |].
      right; split; [exact H' | assumption].
Qed.

Lemma ranked_trans (a b c : SearchResult) : ranked a b -> ranked b c -> ranked a c.
Proof.
  unfold ranked.
  intros [H1 | (H1 & [H1' | (H1' & H1'')])] [H2 | (H2 & [H2' | (H2' & H2'')])];
    try (left; lra);
    right; (split; [lra |]);
    try (left; lra);
    right; split; [lra | lia].
Qed.

Lemma ranks_before_total (a b : SearchResult) :
  ranks_before a b = true \/ ranks_before b a = true.
Proof. rewrite !ranks_before_ranked; apply ranked_total. Qed.

Lemma ranks_before_trans (a b c : SearchResult) :
  ranks_before a b = true -> ranks_before b c = true -> ranks_before a c = true.
Proof. rewrite !ranks_before_ranked; apply ranked_trans. Qed.

End RankOrder.

Section ScoreMap.
Import Hybrid.

Variable upd : SearchResult -> SearchResult.
Variable fresh : SearchResult.
Variable k : Z.
Hypothesis upd_key : forall r, chunkId (upd r) = chunkId r.
Hypothesis fresh_key : chunkId fresh = k.

Lemma record_keys (m : list SearchResult) (x : Z) :
  In x (keys (record upd fresh k m)) <-> In x (keys m) \/ x = k.
Proof.
  induction m as [|r t IH]; simpl.
  - rewrite fresh_key; intuition.
  - destruct (chunkId r =? k) eqn:E; simpl.
    + apply Z.eqb_eq in E; rewrite upd_key.
      split; [intros H; left; exact H |].
      intros [H | H]; [exact H | left; rewrite H; exact E].
    + rewrite IH; intuition.
Qed.

Lemma record_NoDup (m : list SearchResult) :
  NoDup (keys m) -> NoDup (keys (record upd fresh k m)).
Proof.
  induction m as [|r t IH]; simpl; intros H.
  - constructor; [intros [] | constructor].
  - apply NoDup_cons_iff in H as [Hr Ht].
    destruct (chunkId r =? k) eqn:E; simpl.
    + rewrite upd_key; constructor; assumption.
    + constructor; [| apply IH; exact Ht].
      rewrite record_keys; intros [Hin | Heq]; [exact (Hr Hin) |].
      apply Z.eqb_neq in E; exact (E Heq).
Qed.

(** Where an entry of the updated mapping comes from: it was there
    under another key, or it is the update of the entry of key [k],
    or it is the new entry and [k] was not a key. *)
Lemma record_entries (m : list SearchResult) (r' : SearchResult) :
  NoDup (keys m) ->
  In r' (record upd fresh k m) ->
  (In r' m /\ chunkId r' <> k)
  \/ (exists r, In r m /\ chunkId r = k /\ r' = upd r)
  \/ (r' = fresh /\ ~ In k (keys m)).
Proof.
  induction m as [|r t IH]; simpl; intros Hnd Hin.
  - destruct Hin as [<- | []]; right; right; auto.
  - apply NoDup_cons_iff in Hnd as [Hr Ht].
    destruct (chunkId r =? k) eqn:E.
    + apply Z.eqb_eq in E.
      destruct Hin as [<- | Hin].
      * right; left; exists r; auto.
      * left; split; [right; exact Hin |].
        intros Hk; apply Hr; rewrite E, <- Hk.
        apply in_map; exact Hin.
    + apply Z.eqb_neq in E.
      destruct Hin as [<- | Hin]; [left; auto |].
      destruct (IH Ht Hin) as [(H1 & H2) | [(r0 & H1 & H2 & H3) | (H1 & H2)]].
      * left; auto.
      * right; left; exists r0; auto.
      * right; right; split; [exact H1 |].
        intros [Hk | Hk]; [exact (E Hk) | exact (H2 Hk)].
Qed.

End ScoreMap.

Section Tracking.
Import Hybrid.

Lemma tracks_ext (SV KV SV' KV' : Z -> Q -> Prop) (m : list SearchResult) :
  (forall k s, SV k s <-> SV' k s) ->
  (forall k s, KV k s <-> KV' k s) ->
  tracks SV KV m -> tracks SV' KV' m.
Proof.
  intros HS HK (Hnd & Hkeys & Hall).
  assert (ES : forall k, (exists s, SV k s) <-> (exists s, SV' k s))
    by (intros k; split; intros (s & H); exists s; apply HS; exact H).
  assert (EK : forall k, (exists s, KV k s) <-> (exists s, KV' k s))
    by (intros k; split; intros (s & H); exists s; apply HK; exact H).
  split; [exact Hnd | split].
  - intros k; rewrite Hkeys, ES, EK; reflexivity.
  - eapply Forall_impl; [| exact Hall].
    intros r (H1 & H2 & H3 & H4).
    split; [rewrite <- ES; exact H1 |].
    split; [intros s Hs; apply HS, H2; exact Hs |].
    split; [rewrite <- EK; exact H3 |].
    intros s Hs; apply HK, H4; exact Hs.
Qed.

(** Recording a semantic hit adds its similarity to the scores
    held. *)
Lemma record_semantic_tracks (SV KV : Z -> Q -> Prop) (m : list SearchResult)
    (h : hit) :
  tracks SV KV m ->
  tracks (fun k s => SV k s \/ (k = h_chunkId h /\ s = h_score h)) KV
         (record_semantic m h).
Proof.
  intros (Hnd & Hkeys & Hall); unfold record_semantic.
  set (upd := set_semantic (h_score h)).
  set (fresh := new_entry h (Some (h_score h)) None).
  assert (upd_key : forall r, chunkId (upd r) = chunkId r) by reflexivity.
  assert (fresh_key : chunkId fresh = h_chunkId h) by reflexivity.
  split; [apply record_NoDup; assumption | split].
  - intros x; rewrite record_keys by assumption; rewrite Hkeys; split.
    + intros [[(s & H) | H] | ->].
      * left; exists s; left; exact H.
      * right; exact H.
      * left; exists (h_score h); right; auto.
    + intros [(s & [H | (-> & _)]) | H].
      * left; left; exists s; exact H.
      * right; reflexivity.
      * left; right; exact H.
  - rewrite Forall_forall in *; intros r' Hin.
    destruct (record_entries upd fresh (h_chunkId h) m r' Hnd Hin)
      as [(H1 & H2) | [(r & H1 & H2 & ->) | (-> & H2)]].
    + destruct (Hall r' H1) as (A & B & C & D).
      split; [| split; [| split; assumption]].
      * split.
        -- intros Hn (s & [Hs | (Hk & _)]); [| exact (H2 Hk)].
           apply A in Hn; apply Hn; exists s; exact Hs.
        -- intros Hne; apply A; intros (s & Hs); apply Hne.
           exists s; left; exact Hs.
      * intros s Hs; left; apply B; exact Hs.
    + destruct (Hall r H1) as (_ & _ & C & D); simpl.
      split; [| split; [| split; assumption]].
      * split; [discriminate |].
        intros Hn; exfalso; apply Hn; exists (h_score h); right; auto.
      * intros s [= <-]; right; auto.
    + simpl; split; [| split; [| split]].
      * split; [discriminate |].
        intros Hn; exfalso; apply Hn; exists (h_score h); right; auto.
      * intros s [= <-]; right; auto.
      * split; [| reflexivity].
        intros _ (s & Hs); apply H2, Hkeys; right; exists s; exact Hs.
      * discriminate.
Qed.

(** Recording a keyword hit adds its relevance, divided by [top], to
    the scores held. *)
Lemma record_keyword_tracks (top : Q) (SV KV : Z -> Q -> Prop)
    (m : list SearchResult) (h : hit) :
  tracks SV KV m ->
  tracks SV (fun k s => KV k s \/ (k = h_chunkId h /\ s = (h_score h / top)%Q))
         (record_keyword top m h).
Proof.
  intros (Hnd & Hkeys & Hall); unfold record_keyword.
  set (sc := (h_score h / top)%Q).
  set (upd := set_keyword sc).
  set (fresh := new_entry h None (Some sc)).
  assert (upd_key : forall r, chunkId (upd r) = chunkId r) by reflexivity.
  assert (fresh_key : chunkId fresh = h_chunkId h) by reflexivity.
  split; [apply record_NoDup; assumption | split].
  - intros x; rewrite record_keys by assumption; rewrite Hkeys; split.
    + intros [[H | (s & H)] | ->].
      * left; exact H.
      * right; exists s; left; exact H.
      * right; exists sc; right; auto.
    + intros [H | (s & [H | (-> & _)])].
      * left; left; exact H.
      * left; right; exists s; exact H.
      * right; reflexivity.
  - rewrite Forall_forall in *; intros r' Hin.
    destruct (record_entries upd fresh (h_chunkId h) m r' Hnd Hin)
      as [(H1 & H2) | [(r & H1 & H2 & ->) | (-> & H2)]].
    + destruct (Hall r' H1) as (A & B & C & D).
      split; [exact A | split; [exact B | split]].
      * split.
        -- intros Hn (s & [Hs | (Hk & _)]); [| exact (H2 Hk)].
           apply C in Hn; apply Hn; exists s; exact Hs.
        -- intros Hne; apply C; intros (s & Hs); apply Hne.
           exists s; left; exact Hs.
      * intros s Hs; left; apply D; exact Hs.
    + destruct (Hall r H1) as (A & B & _ & _); simpl.
      split; [exact A | split; [exact B | split]].
      * split; [discriminate |].
        intros Hn; exfalso; apply Hn; exists sc; right; auto.
      * intros s [= <-]; right; auto.
    + simpl; split; [| split; [| split]].
      * split; [| reflexivity].
        intros _ (s & Hs); apply H2, Hkeys; left; exists s; exact Hs.
      * discriminate.
      * split; [discriminate |].
        intros Hn; exfalso; apply Hn; exists sc; right; auto.
      * intros s [= <-]; right; auto.
Qed.

Lemma fold_semantic_tracks (KV : Z -> Q -> Prop) (hits : list hit) :
  forall (SV : Z -> Q -> Prop) (m : list SearchResult),
    tracks SV KV m ->
    tracks (fun k s => SV k s \/ scores_of (fun x => x) hits k s) KV
           (fold_left record_semantic hits m).
Proof.
  induction hits as [|h t IH]; intros SV m H; simpl.
  - eapply tracks_ext; [| | exact H]; [| reflexivity].
    intros k s; split; [left; assumption |].
    intros [Hs | (x & [] & _)]; exact Hs.
  - eapply tracks_ext; [| | exact (IH _ _ (record_semantic_tracks SV KV m h H))];
      [| reflexivity].
    intros k s; unfold scores_of; simpl; split.
    + intros [[Hs | (-> & ->)] | (x & Hx & Hk & Hv)].
      * left; exact Hs.
      * right; exists h; auto.
      * right; exists x; auto.
    + intros [Hs | (x & [<- | Hx] & Hk & Hv)].
      * left; left; exact Hs.
      * left; right; auto.
      * right; exists x; auto.
Qed.

Lemma fold_keyword_tracks (top : Q) (SV : Z -> Q -> Prop) (hits : list hit) :
  forall (KV : Z -> Q -> Prop) (m : list SearchResult),
    tracks SV KV m ->
    tracks SV (fun k s => KV k s \/ scores_of (fun x => (x / top)%Q) hits k s)
           (fold_left (record_keyword top) hits m).
Proof.
  induction hits as [|h t IH]; intros KV m H; simpl.
  - eapply tracks_ext; [| | exact H]; [reflexivity |].
    intros k s; split; [left; assumption |].
    intros [Hs | (x & [] & _)]; exact Hs.
  - eapply tracks_ext; [| | exact (IH _ _ (record_keyword_tracks top SV KV m h H))];
      [reflexivity |].
    intros k s; unfold scores_of; simpl; split.
    + intros [[Hs | (-> & ->)] | (x & Hx & Hk & Hv)].
      * left; exact Hs.
      * right; exists h; auto.
      * right; exists x; auto.
    + intros [Hs | (x & [<- | Hx] & Hk & Hv)].
      * left; left; exact Hs.
      * left; right; auto.
      * right; exists x; auto.
Qed.

(** The mapping built from the two hit lists holds exactly their
    scores: the similarities, and the relevances divided by the
    largest one. *)
Lemma score_map_tracks (semanticHits keywordHits : list hit) :
  tracks (scores_of (fun x => x) semanticHits)
         (scores_of (fun x => (x / max_relevance keywordHits)%Q) keywordHits)
         (score_map semanticHits keywordHits).
Proof.
  unfold score_map.
  assert (H0 : tracks (fun _ _ => False) (fun _ _ => False) []).
  { split; [constructor | split; [| constructor]].
    intros k; simpl; split; [intros [] | intros [(_ & []) | (_ & [])]]. }
  apply (fold_semantic_tracks _ semanticHits) in H0.
  apply (fold_keyword_tracks (max_relevance keywordHits) _ keywordHits) in H0.
  eapply tracks_ext; [| | exact H0]; intros k s; simpl; tauto.
Qed.

End Tracking.

Section HybridSearch.
Import Hybrid.

Lemma scores_of_ids (norm : Q -> Q) (hits : list hit) (k : Z) :
  (exists s, scores_of norm hits k s) <-> In k (List.map h_chunkId hits).
Proof.
  unfold scores_of; rewrite in_map_iff; split.
  - intros (s & h & Hin & Hk & _); exists h; auto.
  - intros (h & Hk & Hin); exists (norm (h_score h)), h; auto.
Qed.

Lemma sorted_impl {A : Type} (R R' : A -> A -> Prop) (l : list A) :
  (forall a b, R a b -> R' a b) -> StronglySorted R l -> StronglySorted R' l.
Proof.
  intros Himp H; rewrite <- (map_id l).
  apply (map_sorted R R' (fun x => x)); auto.
Qed.

Lemma keys_combine (q : Query) (m : list SearchResult) :
  keys (List.map (combine q) m) = keys m.
Proof. unfold keys; rewrite map_map; apply map_ext; reflexivity. Qed.

Lemma merge_perm (q : Query) (semanticHits keywordHits : list hit) :
  Permutation (merge q semanticHits keywordHits)
              (List.map (combine q) (score_map semanticHits keywordHits)).
Proof. apply sort_perm. Qed.

(** C1.  The merged list has exactly one result per chunk of the
    union of the two hit lists; a component score is absent exactly
    when the chunk is not in that hit list, and is otherwise the
    similarity, or the relevance divided by the largest relevance;
    the combined score is the weighted sum of the components, an
    absent one counting as 0, divided by the sum of the weights; the
    list is sorted by descending combined score, then descending
    semantic score, then ascending chunk identifier; and [search]
    returns its first [maxResults] results, in that order. *)
Theorem search_ranks_union (q : Query) (semanticHits keywordHits : list hit) :
  let merged := merge q semanticHits keywordHits in
  NoDup (keys merged)
  /\ (forall k, In k (keys merged)
                <-> In k (List.map h_chunkId semanticHits)
                    \/ In k (List.map h_chunkId keywordHits))
  /\ Forall (fun r =>
               (semanticScore r = None
                <-> ~ In (chunkId r) (List.map h_chunkId semanticHits))
               /\ (forall s, semanticScore r = Some s ->
                     exists h, In h semanticHits /\ h_chunkId h = chunkId r
                               /\ s = h_score h)
               /\ (keywordScore r = None
                   <-> ~ In (chunkId r) (List.map h_chunkId keywordHits))
               /\ (forall s, keywordScore r = Some s ->
                     exists h, In h keywordHits /\ h_chunkId h = chunkId r
                               /\ s = (h_score h / max_relevance keywordHits)%Q)
               /\ combinedScore r
                  = ((semanticWeight q * score_or_zero (semanticScore r)
                      + keywordWeight q * score_or_zero (keywordScore r))
                     / (semanticWeight q + keywordWeight q))%Q) merged
  /\ StronglySorted ranked merged
  /\ search q semanticHits keywordHits = firstn (maxResults q) merged
  /\ StronglySorted ranked (search q semanticHits keywordHits).
Proof.
  intros merged.
  destruct (score_map_tracks semanticHits keywordHits) as (Hnd & Hkeys & Hall).
  pose proof (merge_perm q semanticHits keywordHits) as Hperm.
  fold merged in Hperm.
  assert (Hpk : Permutation (keys merged) (keys (score_map semanticHits keywordHits))).
  { rewrite <- (keys_combine q (score_map semanticHits keywordHits)).
    apply Permutation_map; exact Hperm. }
  assert (Hsorted : StronglySorted ranked merged).
  { apply (sorted_impl (fun a b => ranks_before a b = true)).
    - intros a b; apply ranks_before_ranked.
    - apply sort_sorted; [apply ranks_before_total | apply ranks_before_trans]. }
  split; [| split; [| split; [| split; [| split]]]].
  - apply (Permutation_NoDup (Permutation_sym Hpk)); exact Hnd.
  - intros k; rewrite <- !(scores_of_ids (fun x => x) semanticHits).
    rewrite <- (scores_of_ids (fun x => (x / max_relevance keywordHits)%Q)
                  keywordHits).
    rewrite <- Hkeys; split; apply Permutation_in; [| symmetry]; exact Hpk.
  - rewrite Forall_forall in *; intros r Hr.
    apply (Permutation_in _ Hperm) in Hr.
    apply in_map_iff in Hr as (r0 & <- & Hr0).
    destruct (Hall r0 Hr0) as (A & B & C & D); simpl.
    rewrite <- !(scores_of_ids (fun x => x) semanticHits).
    rewrite <- (scores_of_ids (fun x => (x / max_relevance keywordHits)%Q)
                  keywordHits).
    split; [exact A | split; [| split; [exact C | split; [| reflexivity]]]].
    + intros s Hs; exact (B s Hs).
    + intros s Hs; exact (D s Hs).
  - exact Hsorted.
  - reflexivity.
  - apply firstn_sorted; exact Hsorted.
Qed.

End HybridSearch.

(* ================================================================== *)
(** * Worked examples *)
(* ================================================================== *)

Section Examples.

(** The scenario of the specification: with chunk size 15 and no
    overlap the text is cut after "food.", not inside a word. *)
Example chunkText_sentence_boundary :
  chunkText 3 (mkChunker 15 0) (str "Great food. Terrible service.")
  = Some [str "Great food."; str "Terrible servi"; str "ce."].
Proof. reflexivity. Qed.

(** The start positions of the looping configuration: 0, then -3, -6,
    -9, -4, -7, -10, -5, -8, and -3 again. *)
Example cycling_starts :
  List.map (fun start => window_end cycling_chunker cycling_text start
                         - overlap cycling_chunker)
           [0; -3; -6; -9; -4; -7; -10; -5; -8]
  = [-3; -6; -9; -4; -7; -10; -5; -8; -3].
Proof. reflexivity. Qed.

(** A service that fails every other request: both texts are embedded
    at the second attempt, after the cooldown. *)
Example batch_with_retries :
  Embedding.createBatchEmbeddings Embedding.flaky_service [str "a"; str "b"]
    Embedding.start_world
  = (Embedding.Ok [Embedding.zero_vector; Embedding.zero_vector],
     Embedding.mkWorld 4
       [ Embedding.Request (str "a") (Embedding.Throw Embedding.NetworkError);
         Embedding.Sleep 3000;
         Embedding.Request (str "a") (Embedding.Ok Embedding.zero_vector);
         Embedding.Request (str "b") (Embedding.Throw Embedding.NetworkError);
         Embedding.Sleep 3000;
         Embedding.Request (str "b") (Embedding.Ok Embedding.zero_vector) ]).
Proof. vm_compute; reflexivity. Qed.

(** A service that always refuses: the batch stops at the first text,
    after one retry. *)
Example batch_gives_up :
  fst (Embedding.createBatchEmbeddings Embedding.refusing_service
         [str "a"; str "b"] Embedding.start_world)
  = Embedding.Throw (Embedding.HttpError 503 Embedding.zero_vector_text)
  /\ Embedding.calls
       (snd (Embedding.createBatchEmbeddings Embedding.refusing_service
               [str "a"; str "b"] Embedding.start_world)) = 2%nat.
Proof. split; vm_compute; reflexivity. Qed.

(** Threshold 0.7 and limit 10 on the example table, for a query
    along the first axis: the chunk at distance 0 comes first, the one
    at distance 0.2 second, the one with the zero vector last; the
    chunk at distance 0.4 and the one without embedding are left
    out.  A query of three dimensions makes the call throw. *)
Example searchSimilar_sample :
  match VectorStore.searchSimilar VectorStore.sample_cosine_distance true
          VectorStore.sample_table (VectorStore.plane 1%Q 0%Q) (7 # 10)%Q 10 with
  | VectorStore.Returned (Some rows) =>
      List.map (fun m => (VectorStore.m_id m, VectorStore.similarity m)) rows
      = [ (5, Some (VectorStore.Num 1));
          (2, Some (VectorStore.Num (4 # 5)));
          (4, Some VectorStore.NaN) ]
  | _ => False
  end
  /\ VectorStore.searchSimilar VectorStore.sample_cosine_distance true
       VectorStore.sample_table [1%Q; 0%Q; 0%Q] (7 # 10)%Q 10
     = VectorStore.Thrown (VectorStore.DifferentDimensions 384 3).
Proof. split; vm_compute; reflexivity. Qed.

(** The ranking scenario of the specification: A has both scores, B
    only a keyword score; with equal weights A comes first. *)
Example search_scenario :
  List.map (fun r => (Hybrid.chunkId r, Hybrid.semanticScore r, Hybrid.keywordScore r))
    (Hybrid.search Hybrid.equal_weights [Hybrid.hit_A_semantic]
       [Hybrid.hit_B_keyword; Hybrid.hit_A_keyword])
  = [ (1, Some (9 # 10), Some (2 / 3)%Q); (2, None, Some (3 / 3)%Q) ].
Proof. reflexivity. Qed.

End Examples.

(* ================================================================== *)
(** * The shape of cleaned texts *)
(* ================================================================== *)

Section CleanShape.

Lemma trimStart_head (s : jsstring) (c : N) :
  hd_error (trimStart s) = Some c -> is_space c = false.
Proof.
  induction s as [|a t IH]; simpl; [discriminate |].
  destruct (is_space a) eqn:E; [exact IH |].
  simpl; intros [= <-]; exact E.
Qed.

Lemma trimEnd_last (s : jsstring) (c : N) :
  hd_error (rev (trimEnd s)) = Some c -> is_space c = false.
Proof.
  unfold trimEnd; rewrite rev_involutive; apply trimStart_head.
Qed.

Lemma trimEnd_head (s : jsstring) (c : N) :
  hd_error s = Some c -> is_space c = false -> hd_error (trimEnd s) = Some c.
Proof.
  intros Hhd Hc.
  destruct (trimEnd_split s) as (ws & Heq & Hws).
  destruct (trimEnd s) as [|c' t'] eqn:E.
  - simpl in Heq; subst ws.
    destruct s as [|a t]; [discriminate |].
    simpl in Hhd; injection Hhd as ->.
    inversion Hws; congruence.
  - rewrite Heq in Hhd; simpl in *; exact Hhd.
Qed.

(** [trim] leaves no white space at either end. *)
Lemma trim_no_outer_space (s : jsstring) : no_outer_space (trim s).
Proof.
  unfold trim; split.
  - intros c Hc.
    destruct (trimStart s) as [|c0 t] eqn:E; [discriminate Hc |].
    assert (H0 : is_space c0 = false)
      by (apply (trimStart_head s); rewrite E; reflexivity).
    rewrite (trimEnd_head (c0 :: t) c0 eq_refl H0) in Hc.
    injection Hc as <-; exact H0.
  - apply trimEnd_last.
Qed.

Lemma rev_head_tail (c : N) (t : jsstring) (x : N) :
  t <> [] -> hd_error (rev (c :: t)) = Some x -> hd_error (rev t) = Some x.
Proof.
  intros Hne; simpl.
  destruct (rev t) as [|y l] eqn:E.
  - exfalso; apply Hne.
    rewrite <- (rev_involutive t), E; reflexivity.
  - simpl; trivial.
Qed.

Lemma rev_head_nth (s : jsstring) (x : N) :
  hd_error (rev s) = Some x <-> (s <> [] /\ nth_error s (List.length s - 1) = Some x).
Proof.
  destruct (rev s) as [|y l] eqn:E.
  - assert (s = []) by (rewrite <- (rev_involutive s), E; reflexivity).
    subst; simpl; split; [discriminate | intros [H _]; contradiction].
  - assert (Hs : s = rev l ++ [y])
      by (rewrite <- (rev_involutive s), E; reflexivity).
    subst s; simpl; rewrite length_app, length_rev; simpl.
    rewrite nth_error_app2 by (rewrite length_rev; lia).
    rewrite length_rev.
    replace (List.length l + 1 - 1 - List.length l)%nat with 0%nat by lia; simpl.
    split; [intros H; split; [destruct (rev l); discriminate | exact H] | tauto].
Qed.

(** After [replace], a white-space code unit is a U+0020 followed by a
    code unit that is not white space, provided that the text did not
    end with white space. *)
Lemma replace_spaces_next (s : jsstring) :
  (forall x, hd_error (rev s) = Some x -> is_space x = false) ->
  forall i ch,
    nth_error (replace_spaces s) i = Some ch -> is_space ch = true ->
    ch = space
    /\ exists b, nth_error (replace_spaces s) (S i) = Some b /\ is_space b = false.
Proof.
  induction s as [|c t IH]; intros Hend i ch Hnth Hch.
  - destruct i; discriminate Hnth.
  - assert (Hend' : t <> [] -> forall x, hd_error (rev t) = Some x -> is_space x = false).
    { intros Hne x Hx; apply Hend.
      simpl; destruct (rev t) as [|y l]; [discriminate Hx |].
      simpl in *; exact Hx. }
    simpl in Hnth |- *.
    destruct (is_space c) eqn:Ec.
    + destruct t as [|c' t'].
      * exfalso; rewrite (Hend c eq_refl) in Ec; discriminate.
      * destruct (is_space c') eqn:Ec'.
        -- apply IH; auto; apply Hend'; discriminate.
        -- destruct i as [|i].
           ++ simpl in Hnth; injection Hnth as <-.
              split; [reflexivity |].
              exists c'; simpl; rewrite Ec'; simpl; auto.
           ++ simpl in Hnth |- *.
              apply IH; auto; apply Hend'; discriminate.
    + destruct i as [|i].
      * simpl in Hnth; injection Hnth as <-; congruence.
      * simpl in Hnth |- *.
        destruct t as [|c' t']; [destruct i; discriminate Hnth |].
        apply IH; auto; apply Hend'; discriminate.
Qed.

Lemma replace_spaces_head (s : jsstring) (c : N) :
  hd_error s = Some c -> is_space c = false ->
  hd_error (replace_spaces s) = Some c.
Proof.
  destruct s as [|a t]; [discriminate |].
  simpl; intros [= ->] Hc; rewrite Hc; reflexivity.
Qed.

(** Every white-space code unit of a cleaned text is a single U+0020
    between two code units that are not white space: the text has no
    white space at its ends, no run of two, and no tab, line break or
    other white space than the space. *)
Theorem clean_single_spaced (text : jsstring) : single_spaced (clean text).
Proof.
  unfold clean; intros i ch Hnth Hch.
  destruct (trim_no_outer_space text) as (Hhd & Hlast).
  pose proof (replace_spaces_next (trim text) Hlast) as Hnext.
  destruct (Hnext i ch Hnth Hch) as (Hsp & Hb).
  split; [exact Hsp | split; [| exact Hb]].
  destruct i as [|j].
  - exfalso.
    destruct (trim text) as [|c0 t] eqn:E; [discriminate Hnth |].
    pose proof (replace_spaces_head (c0 :: t) c0 eq_refl (Hhd c0 eq_refl)) as H0.
    destruct (replace_spaces (c0 :: t)) as [|y l]; [discriminate H0 |].
    simpl in H0, Hnth; injection H0 as ->; injection Hnth as ->.
    rewrite (Hhd ch eq_refl) in Hch; discriminate.
  - replace (S j - 1)%nat with j by lia.
    destruct (nth_error (replace_spaces (trim text)) j) as [a|] eqn:Ea.
    + exists a; split; [lia | split; [reflexivity |]].
      destruct (is_space a) eqn:Esp; [| reflexivity].
      destruct (Hnext j a Ea Esp) as (_ & b & Hb1 & Hb2).
      rewrite Hnth in Hb1; injection Hb1 as ->; congruence.
    + apply nth_error_None in Ea.
      assert (S j < List.length (replace_spaces (trim text)))%nat
        by (apply nth_error_Some; rewrite Hnth; discriminate).
      lia.
Qed.

(** A cleaned text has no white space at its ends. *)
Lemma clean_no_outer_space (text : jsstring) : no_outer_space (clean text).
Proof.
  unfold clean.
  destruct (trim_no_outer_space text) as (Hhd & Hlast).
  pose proof (replace_spaces_next (trim text) Hlast) as Hnext.
  split; intros c Hc.
  - destruct (trim text) as [|c0 t] eqn:E; [discriminate Hc |].
    rewrite (replace_spaces_head (c0 :: t) c0 eq_refl (Hhd c0 eq_refl)) in Hc.
    injection Hc as <-; exact (Hhd c0 eq_refl).
  - destruct (is_space c) eqn:Esp; [| reflexivity].
    apply rev_head_nth in Hc as (Hne & Hc).
    destruct (Hnext _ c Hc Esp) as (_ & b & Hb & _).
    assert (S (List.length (replace_spaces (trim text)) - 1)
            < List.length (replace_spaces (trim text)))%nat
      by (apply nth_error_Some; rewrite Hb; discriminate).
    lia.
Qed.

Lemma trim_fixed (s : jsstring) : no_outer_space s -> trim s = s.
Proof.
  intros (Hhd & Hlast).
  assert (Hstart : forall x : jsstring,
             (forall c, hd_error x = Some c -> is_space c = false) -> trimStart x = x).
  { intros [|a t] Hx; [reflexivity |]; simpl; rewrite (Hx a eq_refl); reflexivity. }
  unfold trim, trimEnd.
  rewrite (Hstart s Hhd), (Hstart (rev s) Hlast); apply rev_involutive.
Qed.

Lemma replace_spaces_fixed (s : jsstring) :
  (forall i ch, nth_error s i = Some ch -> is_space ch = true ->
                ch = space
                /\ exists b, nth_error s (S i) = Some b /\ is_space b = false) ->
  replace_spaces s = s.
Proof.
  induction s as [|c t IH]; intros H; [reflexivity |].
  assert (Ht : replace_spaces t = t)
    by (apply IH; intros i ch Hi Hch; exact (H (S i) ch Hi Hch)).
  simpl; destruct (is_space c) eqn:Ec.
  - destruct (H 0%nat c eq_refl Ec) as (-> & b & Hb & Hbs).
    destruct t as [|c' t']; [discriminate Hb |].
    simpl in Hb; injection Hb as ->.
    rewrite Hbs, Ht; reflexivity.
  - rewrite Ht; reflexivity.
Qed.

(** Cleaning a cleaned text changes nothing. *)
Theorem clean_idempotent (text : jsstring) : clean (clean text) = clean text.
Proof.
  unfold clean at 1.
  rewrite (trim_fixed _ (clean_no_outer_space text)).
  apply replace_spaces_fixed.
  unfold clean.
  apply replace_spaces_next.
  apply (trim_no_outer_space text).
Qed.

End CleanShape.

(* ================================================================== *)
(** * The sentence search *)
(* ================================================================== *)

Section SentenceSearch.

Lemma starts_with_prefix (p s : jsstring) :
  starts_with p s = true <-> exists rest, s = p ++ rest.
Proof.
  revert s; induction p as [|a p IH]; intros s; simpl.
  - split; [intros _; exists s; reflexivity | reflexivity].
  - destruct s as [|b s]; [split; [discriminate | intros (r & H); discriminate H] |].
    rewrite andb_true_iff, N.eqb_eq, IH; split.
    + intros (-> & r & ->); exists r; reflexivity.
    + intros (r & [= -> ->]); split; [reflexivity | exists r; reflexivity].
Qed.

(** What the scan answers is the accumulator or an index at which the
    pattern starts. *)
Lemma lastIndexOf_from_occurrence (p s : jsstring) :
  forall i acc,
    lastIndexOf_from p s i acc = acc
    \/ exists pre rest,
         s = pre ++ p ++ rest
         /\ lastIndexOf_from p s i acc = i + len pre.
Proof.
  induction s as [|c t IH]; intros i acc; simpl.
  - destruct (starts_with p []) eqn:E; [| left; reflexivity].
    apply starts_with_prefix in E as (r & Hr).
    right; exists [], r; split; [exact Hr | unfold len; simpl; lia].
  - destruct (IH (i + 1) (if starts_with p (c :: t) then i else acc))
      as [H | (pre & rest & Hs & H)].
    + rewrite H; destruct (starts_with p (c :: t)) eqn:E; [| left; reflexivity].
      apply starts_with_prefix in E as (r & Hr).
      right; exists [], r; split; [exact Hr | unfold len; simpl; lia].
    + right; exists (c :: pre), rest; split; [rewrite Hs; reflexivity |].
      rewrite H; unfold len; simpl; lia.
Qed.

(** The scan does not miss an occurrence: its answer is not before any
    index at which the pattern starts. *)
Lemma lastIndexOf_from_max (p : jsstring) (pre : jsstring) :
  forall s rest i acc,
    s = pre ++ p ++ rest ->
    i + len pre <= lastIndexOf_from p s i acc.
Proof.
  induction pre as [|c pre IH]; intros s rest i acc Hs.
  - assert (E : starts_with p s = true)
      by (apply starts_with_prefix; exists rest; exact Hs).
    unfold len; simpl.
    destruct s as [|a t]; simpl; rewrite E; [lia |].
    destruct (lastIndexOf_from_range p t (i + 1) i); lia.
  - subst s; simpl.
    pose proof (IH (pre ++ p ++ rest) rest (i + 1)
                  (if starts_with p (c :: pre ++ p ++ rest) then i else acc) eq_refl).
    unfold len in *; simpl; lia.
Qed.

Lemma lastIndexOf_occurrence (s p : jsstring) :
  lastIndexOf s p <> -1 ->
  exists pre rest, s = pre ++ p ++ rest /\ lastIndexOf s p = len pre.
Proof.
  unfold lastIndexOf; intros Hne.
  destruct (lastIndexOf_from_occurrence p s 0 (-1)) as [H | (pre & rest & Hs & H)];
    [contradiction |].
  exists pre, rest; split; [exact Hs | lia].
Qed.

Lemma lastIndexOf_max (s p pre rest : jsstring) :
  s = pre ++ p ++ rest -> len pre <= lastIndexOf s p.
Proof.
  intros Hs; unfold lastIndexOf.
  pose proof (lastIndexOf_from_max p pre s rest 0 (-1) Hs); lia.
Qed.

Lemma terminal_not_space (c : N) : is_terminal c = true -> is_space c = false.
Proof.
  unfold is_terminal; rewrite !orb_true_iff, !N.eqb_eq.
  intros [[-> | ->] | ->]; reflexivity.
Qed.

Lemma pattern_at_app (pre s : jsstring) (j : nat) :
  pattern_at (pre ++ s) (List.length pre + j) <-> pattern_at s j.
Proof.
  unfold pattern_at.
  replace (S (List.length pre + j)) with (List.length pre + S j)%nat by lia.
  rewrite !nth_error_app2 by lia.
  replace (List.length pre + j - List.length pre)%nat with j by lia.
  replace (List.length pre + S j - List.length pre)%nat with (S j) by lia.
  reflexivity.
Qed.

Lemma pattern_at_tail (c : N) (s : jsstring) (j : nat) :
  pattern_at (c :: s) (S j) <-> pattern_at s j.
Proof. apply (pattern_at_app [c] s j). Qed.

Lemma pattern_at_head (c d : N) (t : jsstring) :
  pattern_at (c :: d :: t) 0 <-> is_terminal c && is_space d = true.
Proof.
  unfold pattern_at; simpl; rewrite andb_true_iff; split.
  - intros (a & b & [= <-] & Ha & [= <-] & Hb); auto.
  - intros (Ha & Hb); exists c, d; auto.
Qed.

Lemma pattern_at_cases_head (s : jsstring) :
  pattern_at s 0 -> exists a, hd_error s = Some a /\ is_terminal a = true.
Proof.
  intros (a & b & Ha & Hta & _); exists a; split; [| exact Hta].
  destruct s; [discriminate Ha | exact Ha].
Qed.

(** No match means that the pattern matches nowhere. *)
Lemma match_none (n : nat) :
  forall s, (List.length s <= n)%nat ->
    match_sentence_ends s = [] -> forall j, ~ pattern_at s j.
Proof.
  induction n as [|n IH]; intros s Hlen Hm j Hp.
  - destruct s; [| simpl in Hlen; lia].
    destruct Hp as (a & b & Ha & _); destruct j; discriminate Ha.
  - destruct s as [|c [|d t]].
    + destruct Hp as (a & b & Ha & _); destruct j; discriminate Ha.
    + destruct Hp as (a & b & _ & _ & Hb & _); destruct j; discriminate Hb.
    + simpl in Hm.
      destruct (is_terminal c && is_space d) eqn:E; [discriminate Hm |].
      destruct j as [|j].
      * apply pattern_at_head in Hp; congruence.
      * apply pattern_at_tail in Hp.
        apply (IH (d :: t)) in Hp; auto; simpl in *; lia.
Qed.

Lemma last_cons (A : Type) (x d : A) (l : list A) : last (x :: l) d = last l x.
Proof.
  revert x d; induction l as [|y l IH]; intros x d; [reflexivity |].
  change (last (x :: y :: l) d) with (last (y :: l) d).
  rewrite (IH y d), (IH y x); reflexivity.
Qed.

(** The last match is a terminal followed by white space, and the
    pattern matches at no later index. *)
Lemma match_last (n : nat) :
  forall s m ms,
    (List.length s <= n)%nat ->
    match_sentence_ends s = m :: ms ->
    exists q a b,
      last ms m = [a; b]
      /\ nth_error s q = Some a /\ nth_error s (S q) = Some b
      /\ is_terminal a = true /\ is_space b = true
      /\ forall j, (q < j)%nat -> ~ pattern_at s j.
Proof.
  induction n as [|n IH]; intros s m ms Hlen Hm.
  - destruct s; [discriminate Hm | simpl in Hlen; lia].
  - destruct s as [|c [|d t]]; [discriminate Hm | discriminate Hm |].
    simpl in Hm.
    destruct (is_terminal c && is_space d) eqn:E.
    + injection Hm as <- Hms.
      apply andb_true_iff in E as (Ec & Ed).
      destruct ms as [|m' ms'].
      * exists 0%nat, c, d; repeat split; auto.
        intros [|[|j]] Hj; [lia | |].
        -- rewrite pattern_at_tail; intros Hp.
           apply pattern_at_cases_head in Hp as (a & Ha & Hta).
           injection Ha as <-.
           apply terminal_not_space in Hta; congruence.
        -- rewrite !pattern_at_tail.
           apply (match_none (List.length t) t (le_n _)); auto.
      * destruct (IH t m' ms') as (q & a & b & Hl & Ha & Hb & Hta & Hsb & Hmax);
          [simpl in Hlen; lia | auto |].
        exists (S (S q)), a, b; rewrite last_cons; repeat split; auto.
        intros [|[|j]] Hj; [lia | lia |].
        rewrite !pattern_at_tail; apply Hmax; lia.
    + destruct (IH (d :: t) m ms) as (q & a & b & Hl & Ha & Hb & Hta & Hsb & Hmax);
        [simpl in *; lia | auto |].
      exists (S q), a, b; repeat split; auto.
      intros [|j] Hj; [lia |].
      rewrite pattern_at_tail; apply Hmax; lia.
Qed.

End SentenceSearch.

Section WindowEnd.

Lemma substring_exact (s : jsstring) (a b : Z) :
  0 <= a -> a <= b -> b <= len s ->
  s = firstn (Z.to_nat a) s ++ substring s a b ++ skipn (Z.to_nat b) s
  /\ List.length (firstn (Z.to_nat a) s) = Z.to_nat a
  /\ len (substring s a b) = b - a.
Proof.
  intros Ha Hab Hb.
  destruct (substring_split s a b) as (H1 & H2 & H3).
  replace (Z.min (clamp (len s) a) (clamp (len s) b)) with a in *
    by (unfold clamp; lia).
  replace (Z.max (clamp (len s) a) (clamp (len s) b)) with b in *
    by (unfold clamp; lia).
  repeat split; auto.
  unfold len; rewrite H3; lia.
Qed.

Lemma substring_nth (s : jsstring) (a b : Z) (j : nat) :
  0 <= a -> a <= b -> b <= len s ->
  Z.of_nat j < b - a ->
  nth_error (substring s a b) j = nth_error s (Z.to_nat a + j).
Proof.
  intros Ha Hab Hb Hj.
  destruct (substring_exact s a b Ha Hab Hb) as (H1 & H2 & H3).
  rewrite H1 at 2.
  rewrite nth_error_app2 by lia.
  rewrite H2.
  replace (Z.to_nat a + j - Z.to_nat a)%nat with j by lia.
  rewrite nth_error_app1 by (unfold len in H3; lia).
  reflexivity.
Qed.

Lemma substring_pattern (s : jsstring) (a b : Z) (j : nat) :
  0 <= a -> a <= b -> b <= len s ->
  Z.of_nat (S j) < b - a ->
  pattern_at (substring s a b) j <-> pattern_at s (Z.to_nat a + j).
Proof.
  intros Ha Hab Hb Hj; unfold pattern_at.
  rewrite (substring_nth s a b j), (substring_nth s a b (S j)) by lia.
  replace (Z.to_nat a + S j)%nat with (S (Z.to_nat a + j)) by lia.
  reflexivity.
Qed.

Lemma substring_len_le (s : jsstring) (a b : Z) :
  len (substring s a b) <= Z.abs (b - a).
Proof.
  destruct (substring_split s a b) as (_ & _ & H3).
  unfold len at 1; rewrite H3; unfold clamp; lia.
Qed.

Lemma occurrence_of_nth (s : jsstring) (q : nat) (a b : N) :
  nth_error s q = Some a -> nth_error s (S q) = Some b ->
  exists pre rest, s = pre ++ [a; b] ++ rest /\ List.length pre = q.
Proof.
  intros Ha Hb.
  apply nth_error_split in Ha as (l1 & l2 & -> & Hl).
  rewrite nth_error_app2 in Hb by lia.
  replace (S q - List.length l1)%nat with 1%nat in Hb by lia.
  destruct l2 as [|b' l2]; [discriminate Hb |].
  simpl in Hb; injection Hb as ->.
  exists l1, l2; auto.
Qed.

Lemma pattern_of_occurrence (pre rest : jsstring) (a b : N) :
  is_terminal a = true -> is_space b = true ->
  pattern_at (pre ++ [a; b] ++ rest) (List.length pre).
Proof.
  intros Ha Hb.
  rewrite <- (Nat.add_0_r (List.length pre)); apply pattern_at_app.
  exists a, b; auto.
Qed.

(** The right edge of a window, for a start position inside the text:
    either the window is cut at [start + chunkSize], and then, if that
    is before the end of the text, no sentence ends inside the search
    zone (the last 100 characters of the window); or the edge stands
    just after a sentence end in the search zone, and it is the last
    one there. *)
Theorem window_end_last_sentence_end (tc : TextChunker) (c : jsstring) (start : Z) :
  0 <= start ->
  0 <= chunkSize tc ->
  (window_end tc c start = start + chunkSize tc
   /\ (start + chunkSize tc < len c ->
       forall e', Z.max (start + chunkSize tc - 100) start < e' < start + chunkSize tc ->
                  ~ sentence_end_at c e'))
  \/ (sentence_end_at c (window_end tc c start)
      /\ Z.max (start + chunkSize tc - 100) start
         < window_end tc c start < start + chunkSize tc
      /\ forall e', window_end tc c start < e' < start + chunkSize tc ->
                    ~ sentence_end_at c e').
Proof.
  intros Hs Hcs; unfold window_end.
  set (end0 := start + chunkSize tc).
  set (searchStart := Z.max (end0 - 100) start).
  destruct (end0 <? len c) eqn:Hlt;
    [apply Z.ltb_lt in Hlt | apply Z.ltb_ge in Hlt; left; split; [reflexivity | lia]].
  assert (Hss : 0 <= searchStart <= end0) by (subst searchStart end0; lia).
  destruct (substring_exact c searchStart end0) as (_ & _ & Hlen); try lia.
  set (w := substring c searchStart end0) in *.
  assert (Hmap : forall e', searchStart < e' < end0 ->
            (sentence_end_at c e'
             <-> pattern_at w (Z.to_nat (e' - 1 - searchStart)))).
  { intros e' He'; unfold sentence_end_at.
    subst w; rewrite (substring_pattern c searchStart end0) by lia.
    replace (Z.to_nat searchStart + Z.to_nat (e' - 1 - searchStart))%nat
      with (Z.to_nat (e' - 1)) by lia.
    intuition lia. }
  destruct (match_sentence_ends w) as [|m ms] eqn:Em.
  - left; split; [reflexivity |].
    intros _ e' He'; rewrite Hmap by lia.
    apply (match_none (List.length w) w (le_n _) Em).
  - destruct (match_last (List.length w) w m ms (le_n _) Em)
      as (q & a & b & Hp & Ha & Hb & Hta & Hsb & Hmax).
    destruct (occurrence_of_nth w q a b Ha Hb) as (pre0 & rest0 & Hw0 & Hq).
    rewrite Hp.
    assert (Hge : Z.of_nat q <= lastIndexOf w [a; b]).
    { pose proof (lastIndexOf_max w [a; b] pre0 rest0 Hw0); unfold len in *; lia. }
    destruct (lastIndexOf w [a; b] =? -1) eqn:E; [apply Z.eqb_eq in E; lia |].
    apply Z.eqb_neq in E.
    destruct (lastIndexOf_occurrence w [a; b] E) as (pre & rest & Hw & Hr).
    rewrite Hr in *.
    assert (Hfit : len pre + 2 <= len w).
    { pose proof (f_equal len Hw) as Hl; rewrite !len_app in Hl.
      change (len [a; b]) with 2 in Hl.
      pose proof (len_nonneg rest); lia. }
    assert (Hpat : pattern_at w (List.length pre))
      by (rewrite Hw; apply pattern_of_occurrence; assumption).
    right; split; [| split].
    + apply Hmap; [unfold len in *; lia |].
      replace (Z.to_nat (searchStart + len pre + 1 - 1 - searchStart))
        with (List.length pre) by (unfold len; lia).
      exact Hpat.
    + pose proof (len_nonneg pre); subst searchStart end0; lia.
    + intros e' He'; rewrite Hmap by (pose proof (len_nonneg pre); lia).
      apply Hmax; unfold len in *; lia.
Qed.

Lemma window_end_last_sentence_end_witness :
  (window_end (mkChunker 15 0) (str "Great food. Terrible service.") 0 = 0 + 15
   /\ (0 + 15 < len (str "Great food. Terrible service.") ->
       forall e', Z.max (0 + 15 - 100) 0 < e' < 0 + 15 ->
                  ~ sentence_end_at (str "Great food. Terrible service.") e'))
  \/ (sentence_end_at (str "Great food. Terrible service.")
        (window_end (mkChunker 15 0) (str "Great food. Terrible service.") 0)
      /\ Z.max (0 + 15 - 100) 0
         < window_end (mkChunker 15 0) (str "Great food. Terrible service.") 0
         < 0 + 15
      /\ forall e',
           window_end (mkChunker 15 0) (str "Great food. Terrible service.") 0 < e'
           < 0 + 15 ->
           ~ sentence_end_at (str "Great food. Terrible service.") e').
Proof.
  apply (window_end_last_sentence_end (mkChunker 15 0)
           (str "Great food. Terrible service.") 0).
  - lia.
  - vm_compute; discriminate.
Defined.

End WindowEnd.

(* ================================================================== *)
(** * The shape of chunks *)
(* ================================================================== *)

Section ChunkShape.

(** The right edge of a window is never before its start nor after
    [start + chunkSize], wherever the window starts. *)
Lemma window_end_range (tc : TextChunker) (c : jsstring) (start : Z) :
  0 <= chunkSize tc ->
  start <= window_end tc c start <= start + chunkSize tc.
Proof.
  intros Hcs; unfold window_end.
  set (end0 := start + chunkSize tc).
  set (searchStart := Z.max (end0 - 100) start).
  destruct (end0 <? len c); [| lia].
  set (w := substring c searchStart end0).
  destruct (match_sentence_ends w) as [|m ms] eqn:Em; [lia |].
  destruct (match_last (List.length w) w m ms (le_n _) Em)
    as (q & a & b & Hp & _).
  rewrite Hp.
  destruct (lastIndexOf w [a; b] =? -1) eqn:E; [lia |].
  apply Z.eqb_neq in E.
  destruct (lastIndexOf_occurrence w [a; b] E) as (pre & rest & Hw & Hr).
  rewrite Hr.
  pose proof (f_equal len Hw) as Hl; rewrite !len_app in Hl.
  change (len [a; b]) with 2 in Hl.
  pose proof (len_nonneg rest); pose proof (len_nonneg pre).
  pose proof (substring_len_le c searchStart end0) as Hle; fold w in Hle.
  subst searchStart end0; lia.
Qed.

Lemma chunkLoop_Forall (P : jsstring -> Prop) (tc : TextChunker) (c : jsstring) :
  (forall start,
      0 < len (trim (substring c start (window_end tc c start))) ->
      P (trim (substring c start (window_end tc c start)))) ->
  forall fuel start chunks out,
    chunkLoop fuel tc c start chunks = Some out ->
    Forall P chunks -> Forall P out.
Proof.
  intros HP; induction fuel as [|fuel IH]; intros start chunks out Hrun Hall;
    [discriminate Hrun |].
  simpl in Hrun.
  destruct (start <? len c); [| injection Hrun as <-; exact Hall].
  assert (Hpush : Forall P (push_chunk c start (window_end tc c start) chunks)).
  { unfold push_chunk.
    destruct (0 <? len (trim (substring c start (window_end tc c start)))) eqn:E;
      [| exact Hall].
    apply Forall_app; split; [exact Hall |].
    constructor; [apply HP, Z.ltb_lt; exact E | constructor]. }
  destruct (window_end tc c start - overlap tc >=? len c).
  - injection Hrun as <-; exact Hpush.
  - exact (IH _ _ _ Hrun Hpush).
Qed.

Lemma occurs_in_trans (x y z : jsstring) :
  occurs_in x y -> occurs_in y z -> occurs_in x z.
Proof.
  intros (p1 & q1 & ->) (p2 & q2 & ->).
  exists (p2 ++ p1), (q1 ++ q2).
  rewrite <- !app_assoc; reflexivity.
Qed.

Lemma trimmed_window_occurs (c : jsstring) (a b : Z) :
  occurs_in (trim (substring c a b)) c.
Proof.
  apply (occurs_in_trans _ (substring c a b)).
  - destruct (trim_split (substring c a b)) as (l & r & Hw & _ & _).
    exists l, r; exact Hw.
  - destruct (substring_split c a b) as (Hc & _ & _).
    eexists _, _; exact Hc.
Qed.

(** Every chunk returned by [chunkText], for a chunk size that is not
    negative, is a run of consecutive characters of the cleaned text
    and is no longer than the chunk size. *)
Theorem chunkText_chunks_bounded (fuel : nat) (tc : TextChunker) (text : jsstring)
    (chunks : list jsstring) :
  0 <= chunkSize tc ->
  chunkText fuel tc text = Some chunks ->
  Forall (fun ch => occurs_in ch (clean text) /\ len ch <= chunkSize tc) chunks.
Proof.
  intros Hcs; unfold chunkText.
  destruct (len text =? 0); [intros [= <-]; constructor |].
  destruct (len (clean text) <=? chunkSize tc) eqn:E.
  - intros [= <-]; constructor; [| constructor].
    split; [exists [], []; rewrite app_nil_r; reflexivity | apply Z.leb_le; exact E].
  - intros Hrun.
    refine (chunkLoop_Forall _ tc (clean text) _ fuel 0 [] chunks Hrun (Forall_nil _)).
    intros start _; split; [apply trimmed_window_occurs |].
    pose proof (trim_len_le (substring (clean text) start
                               (window_end tc (clean text) start))).
    pose proof (substring_len_le (clean text) start
                  (window_end tc (clean text) start)).
    pose proof (window_end_range tc (clean text) start Hcs).
    lia.
Qed.

Lemma chunkText_chunks_bounded_witness :
  Forall (fun ch => occurs_in ch (clean small_text)
                    /\ len ch <= chunkSize small_chunker)
         [str "ab."; str "cde"; str "fgh"].
Proof.
  apply (chunkText_chunks_bounded 4 small_chunker small_text).
  - vm_compute; discriminate.
  - vm_compute; reflexivity.
Defined.

(** No chunk returned by [chunkText] starts or ends with white space,
    and none is empty unless the whole text is empty after cleaning. *)
Theorem chunkText_chunks_trimmed (fuel : nat) (tc : TextChunker) (text : jsstring)
    (chunks : list jsstring) :
  chunkText fuel tc text = Some chunks ->
  Forall (fun ch => no_outer_space ch /\ (clean text <> [] -> ch <> [])) chunks.
Proof.
  unfold chunkText.
  destruct (len text =? 0); [intros [= <-]; constructor |].
  destruct (len (clean text) <=? chunkSize tc).
  - intros [= <-]; constructor; [| constructor].
    split; [apply clean_no_outer_space | trivial].
  - intros Hrun.
    refine (chunkLoop_Forall _ tc (clean text) _ fuel 0 [] chunks Hrun (Forall_nil _)).
    intros start Hpos; split; [apply trim_no_outer_space |].
    intros _ Hnil; rewrite Hnil in Hpos; unfold len in Hpos; simpl in Hpos; lia.
Qed.

Lemma chunkText_chunks_trimmed_witness :
  Forall (fun ch => no_outer_space ch
                    /\ (clean (str "Great food. Terrible service.") <> [] -> ch <> []))
         [str "Great food."; str "Terrible servi"; str "ce."].
Proof.
  apply (chunkText_chunks_trimmed 3 (mkChunker 15 0)
           (str "Great food. Terrible service.")).
  vm_compute; reflexivity.
Defined.

End ChunkShape.

(* ================================================================== *)
(** * More on batches of embeddings *)
(* ================================================================== *)

Section BatchRuns.
Import Embedding BatchLog.

Lemma batchLoop_steady (svc : service) (texts : list jsstring) :
  (forall k t, exists e, handle_response (svc k t) = Ok e) ->
  forall (i n : Z) (acc : list embedding) (w : world),
    n = i + Z.of_nat (List.length texts) ->
    batchLoop svc texts i n acc w
    = (Ok (acc ++ map_index (fun t k => embedding_of (answer svc k t)) (calls w) texts),
       mkWorld (calls w + List.length texts) (log w ++ paced svc (calls w) texts)).
Proof.
  intros Hok; induction texts as [|t rest IH]; intros i n acc w Hn.
  - simpl; rewrite !app_nil_r, Nat.add_0_r; destruct w; reflexivity.
  - simpl; unfold createEmbedding.
    destruct (Hok (calls w) t) as (e & He).
    unfold answer, embedding_of; rewrite He.
    destruct rest as [|t' rest'].
    + replace (i <? n - 1) with false
        by (symmetry; apply Z.ltb_ge; simpl in Hn; lia).
      simpl; f_equal; f_equal; lia.
    + replace (i <? n - 1) with true
        by (symmetry; apply Z.ltb_lt; simpl in Hn; lia).
      rewrite IH by (simpl in *; lia).
      unfold sleep; cbn [calls log].
      f_equal; [rewrite <- app_assoc; reflexivity |].
      f_equal; [simpl; lia |].
      rewrite <- !app_assoc; reflexivity.
Qed.

Lemma paced_sleeps (svc : service) (texts : list jsstring) :
  forall k, sleeps (paced svc k texts) = repeat 1000 (List.length texts - 1).
Proof.
  induction texts as [|t rest IH]; intros k; [reflexivity |].
  destruct rest as [|t' rest']; [reflexivity |].
  change (sleeps (paced svc k (t :: t' :: rest')))
    with (1000 :: sleeps (paced svc (S k) (t' :: rest'))).
  rewrite IH; simpl; rewrite Nat.sub_0_r; reflexivity.
Qed.

Lemma paced_requests (svc : service) (texts : list jsstring) :
  forall k, requests_in (paced svc k texts) = List.length texts.
Proof.
  induction texts as [|t rest IH]; intros k; [reflexivity |].
  destruct rest as [|t' rest']; [reflexivity |].
  change (requests_in (paced svc k (t :: t' :: rest')))
    with (S (requests_in (paced svc (S k) (t' :: rest')))).
  rewrite IH; reflexivity.
Qed.

(** When the service answers every request with an embedding, a batch
    makes exactly one request per text, in order, waits 1000 ms between
    two requests and not after the last one, never waits 3000 ms, and
    returns the answers in the order of the texts. *)
Theorem createBatchEmbeddings_steady (svc : service) (texts : list jsstring) (w : world) :
  (forall k t, exists e, handle_response (svc k t) = Ok e) ->
  createBatchEmbeddings svc texts w
  = (Ok (map_index (fun t k => embedding_of (answer svc k t)) (calls w) texts),
     mkWorld (calls w + List.length texts) (log w ++ paced svc (calls w) texts))
  /\ requests_in (paced svc (calls w) texts) = List.length texts
  /\ sleeps (paced svc (calls w) texts) = repeat 1000 (List.length texts - 1).
Proof.
  intros Hok; unfold createBatchEmbeddings.
  rewrite (batchLoop_steady svc texts Hok) by lia.
  split; [reflexivity | split; [apply paced_requests | apply paced_sleeps]].
Qed.

Lemma createBatchEmbeddings_steady_witness :
  createBatchEmbeddings steady_service [str "a"; str "b"; str "c"] start_world
  = (Ok (map_index (fun t k => embedding_of (answer steady_service k t))
           (calls start_world) [str "a"; str "b"; str "c"]),
     mkWorld (calls start_world + 3)
       (log start_world
        ++ paced steady_service (calls start_world) [str "a"; str "b"; str "c"]))
  /\ requests_in (paced steady_service (calls start_world)
                    [str "a"; str "b"; str "c"]) = 3%nat
  /\ sleeps (paced steady_service (calls start_world) [str "a"; str "b"; str "c"])
     = repeat 1000 (3 - 1).
Proof.
  apply (createBatchEmbeddings_steady steady_service
           [str "a"; str "b"; str "c"] start_world).
  intros k t; exists zero_vector; reflexivity.
Defined.

Lemma embedded_app (l l' : list event) : embedded (l ++ l') = embedded l ++ embedded l'.
Proof.
  induction l as [|ev l IH]; [reflexivity |].
  destruct ev as [t [e | x] | ms]; simpl; rewrite IH; reflexivity.
Qed.

Lemma item_trace_embedded (t : jsstring) (l : list event) (e : embedding) :
  item_trace t l (Ok e) -> embedded l = [t].
Proof. intros H; inversion H; reflexivity. Qed.

Lemma batch_trace_Throw (texts : list jsstring) (l : list event)
    (r : result (list embedding)) :
  batch_trace texts l r ->
  forall err, r = Throw err ->
    exists pre i t x,
      l = pre ++ [Request t (Throw x); Sleep 3000; Request t (Throw err)]
      /\ nth_error texts i = Some t
      /\ embedded pre = firstn i texts.
Proof.
  induction 1 as [| t rest l l' e embs Hi _ IH | t rest l l' e err' Hi _ IH
                  | t rest l err' Hi]; intros err Hr; try discriminate Hr.
  - destruct (IH err Hr) as (pre & i & t' & x & Hl & Hn & He).
    exists (l ++ pre), (S i), t', x; split; [| split].
    + rewrite Hl, app_assoc; reflexivity.
    + exact Hn.
    + rewrite embedded_app, (item_trace_embedded t l e Hi), He; reflexivity.
  - injection Hr as ->.
    inversion Hi; subst.
    exists [], 0%nat, t, x; repeat split.
Qed.

(** A batch that fails stops at the first text whose retry fails: the
    log ends with the failed request for that text, the 3000 ms
    cooldown and the failed retry, whose error is the one thrown; the
    texts before it, and only they, were embedded, and nothing is
    requested for the texts after it. *)
Theorem createBatchEmbeddings_failure (svc : service) (texts : list jsstring)
    (w : world) (err : error) :
  fst (createBatchEmbeddings svc texts w) = Throw err ->
  exists pre i t x,
    log (snd (createBatchEmbeddings svc texts w))
    = log w ++ pre ++ [Request t (Throw x); Sleep 3000; Request t (Throw err)]
    /\ nth_error texts i = Some t
    /\ embedded pre = firstn i texts.
Proof.
  unfold createBatchEmbeddings; intros Hf.
  destruct (batchLoop_trace svc texts 0 (Z.of_nat (List.length texts)) [] w)
    as (new & res & Hw & Hr & Ht & _).
  rewrite Hr in Hf.
  assert (Hres : res = Throw err) by (destruct res; [discriminate Hf | exact Hf]).
  destruct (batch_trace_Throw texts new res Ht err Hres)
    as (pre & i & t & x & Hl & Hn & He).
  exists pre, i, t, x; rewrite Hw, Hl; auto.
Qed.

Lemma createBatchEmbeddings_failure_witness :
  exists pre i t x,
    log (snd (createBatchEmbeddings refusing_service [str "a"; str "b"] start_world))
    = log start_world
      ++ pre ++ [Request t (Throw x); Sleep 3000;
                 Request t (Throw (HttpError 503 zero_vector_text))]
    /\ nth_error [str "a"; str "b"] i = Some t
    /\ embedded pre = firstn i [str "a"; str "b"].
Proof.
  apply (createBatchEmbeddings_failure refusing_service [str "a"; str "b"]
           start_world (HttpError 503 zero_vector_text)).
  vm_compute; reflexivity.
Defined.

End BatchRuns.

(* ================================================================== *)
(** * Properties of the model probe *)
(* ================================================================== *)

Section ModelProbe.
Import Embedding TestApi.

(** A model that the probe reports as working is reported under the
    address and name given, with at least one dimension; the embedding
    client accepts the same response when the dimension is 384 and
    refuses it, as an invalid format, for any other dimension. *)
Theorem testModel_working (o : fetch_outcome) (modelUrl modelName u n : jsstring)
    (d : nat) :
  testModel o modelUrl modelName = Working u n d ->
  u = modelUrl /\ n = modelName /\ (0 < d)%nat
  /\ ((d = 384%nat /\ exists v, handle_response o = Ok v /\ List.length v = 384%nat)
      \/ (d <> 384%nat /\ handle_response o = Throw InvalidFormat)).
Proof.
  unfold testModel; intros H.
  destruct o as [|r]; [discriminate H |].
  unfold handle_response.
  destruct (ok r); cbn [negb] in *; [| discriminate H].
  destruct (body_json r) as [j|]; [| discriminate H].
  destruct j as [| | | |result|]; try discriminate H.
  destruct (0 <? List.length result)%nat eqn:E0; [| discriminate H].
  destruct (forallb is_number (firstn 5 result)); [| discriminate H].
  injection H as <- <- <-; apply Nat.ltb_lt in E0.
  split; [reflexivity | split; [reflexivity | split; [exact E0 |]]].
  unfold is_embedding.
  destruct (List.length result =? 384)%nat eqn:E.
  - apply Nat.eqb_eq in E; left; split; [exact E | exists result; auto].
  - apply Nat.eqb_neq in E; right; auto.
Qed.

Lemma testModel_working_witness :
  str "u" = str "u" /\ str "n" = str "n" /\ (0 < 384)%nat
  /\ ((384%nat = 384%nat
       /\ exists v, handle_response (FetchResolved good) = Ok v
                    /\ List.length v = 384%nat)
      \/ (384%nat <> 384%nat
          /\ handle_response (FetchResolved good) = Throw InvalidFormat)).
Proof.
  apply (testModel_working (FetchResolved good) (str "u") (str "n")
           (str "u") (str "n") 384).
  vm_compute; reflexivity.
Defined.

Lemma try_models_run (svc : nat -> jsstring -> fetch_outcome) (models : list jsstring) :
  forall k,
    match fst (try_models svc k models) with
    | Some r =>
        exists i url,
          nth_error models i = Some url
          /\ r = verdict svc (k + i) url
          /\ r <> Failed
          /\ (forall j u, (j < i)%nat -> nth_error models j = Some u ->
                          verdict svc (k + j) u = Failed)
          /\ probed (snd (try_models svc k models)) = firstn (S i) models
          /\ waited (snd (try_models svc k models)) = repeat 2000 i
    | None =>
        (forall j u, nth_error models j = Some u -> verdict svc (k + j) u = Failed)
        /\ probed (snd (try_models svc k models)) = models
        /\ waited (snd (try_models svc k models)) = repeat 2000 (List.length models)
    end.
Proof.
  induction models as [|url rest IH]; intros k.
  - simpl; repeat split; intros [|j] u Hj; discriminate Hj.
  - simpl.
    fold (verdict svc k url).
    destruct (verdict svc k url) as [|u0 n0 d0] eqn:E.
    + specialize (IH (S k)).
      destruct (try_models svc (S k) rest) as (found, events); simpl in *.
      destruct found as [r|].
      * destruct IH as (i & u & Hn & Hr & Hw & Hbefore & Hp & Hwt).
        exists (S i), u; repeat split; auto.
        -- rewrite Hr; f_equal; lia.
        -- intros [|j] u' Hj Hn'.
           ++ simpl in Hn'; injection Hn' as <-; rewrite Nat.add_0_r; exact E.
           ++ replace (k + S j)%nat with (S k + j)%nat by lia.
              apply Hbefore; [lia | exact Hn'].
        -- rewrite Hp; reflexivity.
        -- rewrite Hwt; reflexivity.
      * destruct IH as (Hall & Hp & Hwt); repeat split.
        -- intros [|j] u' Hn'.
           ++ simpl in Hn'; injection Hn' as <-; rewrite Nat.add_0_r; exact E.
           ++ replace (k + S j)%nat with (S k + j)%nat by lia.
              apply Hall; exact Hn'.
        -- rewrite Hp; reflexivity.
        -- rewrite Hwt; reflexivity.
    + simpl; exists 0%nat, url; rewrite Nat.add_0_r; repeat split; auto.
      * discriminate.
      * intros j u Hj; lia.
Qed.

(** [findWorkingModel] returns the verdict on the first model of
    [MODELS_TO_TRY], in order, that the probe finds working; it probes
    that model and the ones before it, no other, and waits 2000 ms
    after each failure.  When no model works it has probed all of them;
    without an API key it probes none. *)
Theorem findWorkingModel_first_working (HF_API_KEY : option jsstring)
    (svc : nat -> jsstring -> fetch_outcome) :
  match fst (findWorkingModel HF_API_KEY svc) with
  | Some r =>
      exists key i url,
        HF_API_KEY = Some key /\ key <> []
        /\ nth_error MODELS_TO_TRY i = Some url
        /\ r = verdict svc i url
        /\ r <> Failed
        /\ (forall j u, (j < i)%nat -> nth_error MODELS_TO_TRY j = Some u ->
                        verdict svc j u = Failed)
        /\ probed (snd (findWorkingModel HF_API_KEY svc)) = firstn (S i) MODELS_TO_TRY
        /\ waited (snd (findWorkingModel HF_API_KEY svc)) = repeat 2000 i
  | None =>
      ((HF_API_KEY = None \/ HF_API_KEY = Some [])
       /\ snd (findWorkingModel HF_API_KEY svc) = [])
      \/ ((forall j u, nth_error MODELS_TO_TRY j = Some u -> verdict svc j u = Failed)
          /\ probed (snd (findWorkingModel HF_API_KEY svc)) = MODELS_TO_TRY
          /\ waited (snd (findWorkingModel HF_API_KEY svc)) = repeat 2000 4)
  end.
Proof.
  unfold findWorkingModel.
  destruct HF_API_KEY as [key|]; [| left; auto].
  destruct (len key =? 0) eqn:Ek.
  - apply Z.eqb_eq, len_nil_iff in Ek; subst key; left; auto.
  - assert (Hkey : key <> [])
      by (intros ->; discriminate Ek).
    pose proof (try_models_run svc MODELS_TO_TRY 0) as H.
    destruct (fst (try_models svc 0 MODELS_TO_TRY)) as [r|].
    + destruct H as (i & url & H1 & H2 & H3 & H4 & H5 & H6).
      exists key, i, url; repeat split; auto.
    + right; exact H.
Qed.

End ModelProbe.

Section ModelNames.
Import TestApi.

Lemma split_slash_nonempty (s : jsstring) : forall cur, split_slash cur s <> [].
Proof.
  induction s as [|c t IH]; intros cur; simpl; [discriminate |].
  destruct (c =? slash)%N; [discriminate | apply IH].
Qed.

Lemma last_any_default (A : Type) (l : list A) (d d' : A) :
  l <> [] -> last l d = last l d'.
Proof.
  destruct l as [|x l]; [contradiction |].
  intros _; rewrite !last_cons; reflexivity.
Qed.

Lemma split_slash_last (s : jsstring) :
  forall cur,
    ~ In slash cur ->
    ~ In slash (last (split_slash cur s) [])
    /\ exists pre,
         cur ++ s = pre ++ last (split_slash cur s) []
         /\ (pre = [] \/ exists p, pre = p ++ [slash]).
Proof.
  induction s as [|c t IH]; intros cur Hcur; simpl.
  - split; [exact Hcur |].
    exists []; rewrite app_nil_r; auto.
  - destruct (c =? slash)%N eqn:E.
    + apply N.eqb_eq in E; subst c.
      rewrite last_cons.
      rewrite (last_any_default _ _ cur []) by apply split_slash_nonempty.
      destruct (IH [] (fun H => H)) as (Hno & pre & Heq & Hpre).
      split; [exact Hno |].
      simpl in Heq.
      exists (cur ++ slash :: pre); split.
      * rewrite Heq at 1; rewrite <- app_assoc; reflexivity.
      * right; destruct Hpre as [-> | (p & ->)].
        -- exists cur; reflexivity.
        -- exists (cur ++ slash :: p); rewrite <- app_assoc; reflexivity.
    + apply N.eqb_neq in E.
      destruct (IH (cur ++ [c])) as (Hno & pre & Heq & Hpre).
      { intros H; apply in_app_or in H as [H | [H | []]]; [exact (Hcur H) |].
        apply E; exact H. }
      split; [exact Hno |].
      exists pre; split; [| exact Hpre].
      rewrite <- Heq, <- app_assoc; reflexivity.
Qed.

(** The name under which a model is probed is the part of its address
    after the last slash: it holds no slash, and the address is the
    name preceded by nothing or by a text that ends with a slash. *)
Theorem model_name_last_segment (modelUrl : jsstring) :
  ~ In slash (model_name modelUrl)
  /\ exists pre,
       modelUrl = pre ++ model_name modelUrl
       /\ (pre = [] \/ exists p, pre = p ++ [slash]).
Proof.
  unfold model_name.
  destruct (split_slash_last modelUrl [] (fun H => H)) as (Hno & pre & Heq & Hpre).
  split; [exact Hno | exists pre; split; [exact Heq | exact Hpre]].
Qed.

Example model_names :
  List.map model_name MODELS_TO_TRY
  = [ str "all-MiniLM-L6-v2"; str "bge-small-en-v1.5"; str "gte-small";
      str "all-mpnet-base-v2" ].
Proof. vm_compute; reflexivity. Qed.

Example findWorkingModel_second :
  fst (findWorkingModel (Some (str "hf_key")) second_only)
  = Some (Working (str "https://api-inference.huggingface.co/models/BAAI/bge-small-en-v1.5")
            (str "bge-small-en-v1.5") 384)
  /\ waited (snd (findWorkingModel (Some (str "hf_key")) second_only)) = [2000].
Proof. split; vm_compute; reflexivity. Qed.

End ModelNames.

(* ================================================================== *)
(** * Properties of chunking a list of reviews *)
(* ================================================================== *)

Section ManyReviews.
Import Reviews.

(** What [chunkReview] builds from the chunks of a review. *)
Lemma chunkReview_chunks (fuel : nat) (tc : TextChunker) (fresh : nat -> jsstring)
    (r : review) (chs : list review_chunk) :
  chunkReview fuel tc fresh r = Some (Returns chs) ->
  chunkTextAny fuel tc (text_or_empty r)
  = Some (Returns (List.map Chunker.chunk_text chs))
  /\ List.map chunkIndex chs = List.map Z.of_nat (seq 0 (List.length chs))
  /\ Forall (fun ch => originalReview ch = r
                       /\ chunk_stars ch = stars_or_zero r
                       /\ (forall id, review_id r = Some id -> id <> [] ->
                                      reviewId ch = id)) chs.
Proof.
  intros H.
  destruct (chunkReview_Returns _ _ _ _ _ H) as (chunks & Htext & ->).
  rewrite Htext.
  split; [| split].
  - do 2 f_equal; symmetry; apply map_index_payload; reflexivity.
  - rewrite map_index_length; apply map_index_map; reflexivity.
  - apply map_index_Forall; intros x k; simpl.
    split; [reflexivity | split; [reflexivity |]].
    intros id Hid Hne; unfold id_or_fresh; rewrite Hid.
    destruct (len id =? 0) eqn:E; [| reflexivity].
    apply Z.eqb_eq, len_nil_iff in E; contradiction.
Qed.

Lemma forEachReview_run (fuel : nat) (tc : TextChunker) (fresh : nat -> jsstring)
    (logProgress : bool) (total : Z) (reviews : list review) :
  forall index base allChunks console out console',
    forEachReview fuel tc fresh logProgress total index base reviews allChunks console
    = Some (Returns out, console') ->
    exists per,
      out = allChunks ++ List.concat per
      /\ Forall2 (fun r chs => exists f, chunkReview fuel tc f r = Some (Returns chs))
                 reviews per
      /\ console'
         = console
           ++ (if logProgress
               then List.map (fun i => ChunkingReview (Z.of_nat i + 1) total)
                      (filter (fun i => (i mod 100 =? 0)%nat)
                              (seq index (List.length reviews)))
               else []).
Proof.
  induction reviews as [|r rest IH]; intros index base allChunks console out console' H.
  - simpl in H; injection H as <- <-.
    exists []; simpl; rewrite app_nil_r.
    split; [reflexivity | split; [constructor |]].
    destruct logProgress; simpl; rewrite app_nil_r; reflexivity.
  - cbn [forEachReview] in H.
    destruct (chunkReview fuel tc (fun k => fresh (base + k)%nat) r)
      as [[chs|]|] eqn:E; [| discriminate H | discriminate H].
    destruct (IH _ _ _ _ _ _ H) as (per & Hout & Hall & Hcon).
    exists (chs :: per); split; [| split].
    + rewrite Hout; simpl; rewrite app_assoc; reflexivity.
    + constructor; [eexists; exact E | exact Hall].
    + rewrite Hcon.
      destruct logProgress; cbn [andb]; [| rewrite !app_nil_r; reflexivity].
      cbn [List.length seq filter].
      destruct (index mod 100 =? 0)%nat; cbn [List.map];
        [rewrite <- app_assoc |]; reflexivity.
Qed.

(** When the loop throws, it is [chunkReview] that throws, on one of
    the reviews. *)
Lemma forEachReview_throws (fuel : nat) (tc : TextChunker) (fresh : nat -> jsstring)
    (logProgress : bool) (total : Z) (reviews : list review) :
  forall index base allChunks console console',
    forEachReview fuel tc fresh logProgress total index base reviews allChunks console
    = Some (TypeError, console') ->
    exists r, In r reviews
              /\ chunkTextAny fuel tc (text_or_empty r) = Some TypeError.
Proof.
  induction reviews as [|r rest IH]; intros index base allChunks console console' H.
  - discriminate H.
  - cbn [forEachReview] in H.
    destruct (chunkReview fuel tc (fun k => fresh (base + k)%nat) r)
      as [[chs|]|] eqn:E; [| | discriminate H].
    + destruct (IH _ _ _ _ _ H) as (r' & Hin & Hr').
      exists r'; split; [right; exact Hin | exact Hr'].
    + exists r; split; [left; reflexivity |].
      unfold chunkReview in E.
      destruct (chunkTextAny fuel tc (text_or_empty r)) as [[chunks|]|];
        [discriminate E | reflexivity | discriminate E].
Qed.

(** [chunkReviews] returns the chunks of the reviews one review after
    the other, in the order of the reviews: the chunks of each review
    are those of [chunkText] on its text, numbered from 0, and carry
    the review, its rating and, when it has one, its identifier.  With
    [logProgress] it writes one line for every hundredth review and a
    last line with the number of chunks returned; without, nothing. *)
Theorem chunkReviews_concat (fuel : nat) (tc : TextChunker) (fresh : nat -> jsstring)
    (reviews : list review) (logProgress : bool)
    (out : list review_chunk) (console : list console_line) :
  chunkReviews fuel tc fresh reviews logProgress = Some (Returns out, console) ->
  (exists per,
      out = List.concat per
      /\ Forall2
           (fun r chs =>
              chunkTextAny fuel tc (text_or_empty r)
              = Some (Returns (List.map Chunker.chunk_text chs))
              /\ List.map chunkIndex chs = List.map Z.of_nat (seq 0 (List.length chs))
              /\ Forall (fun ch => originalReview ch = r
                                   /\ chunk_stars ch = stars_or_zero r
                                   /\ (forall id, review_id r = Some id -> id <> [] ->
                                                  reviewId ch = id)) chs)
           reviews per)
  /\ console
     = if logProgress
       then progress_lines (List.length reviews)
            ++ [TotalChunks (Z.of_nat (List.length out))]
       else [].
Proof.
  unfold chunkReviews; intros H.
  destruct (forEachReview fuel tc fresh logProgress (Z.of_nat (List.length reviews))
              0 0 reviews [] []) as [[[all|] con]|] eqn:E;
    [| discriminate H | discriminate H].
  injection H as <- <-.
  destruct (forEachReview_run _ _ _ _ _ _ _ _ _ _ _ _ E) as (per & Hout & Hall & Hcon).
  simpl in Hout, Hcon; subst all con.
  split.
  - exists per; split; [reflexivity |].
    eapply Forall2_impl; [| exact Hall].
    intros r chs (f & Hf); exact (chunkReview_chunks fuel tc f r chs Hf).
  - destruct logProgress; reflexivity.
Qed.

Lemma chunkReviews_concat_witness :
  (exists per,
      sample_chunks ++ sample_chunks = List.concat per
      /\ Forall2
           (fun r chs =>
              chunkTextAny 4 small_chunker (text_or_empty r)
              = Some (Returns (List.map Chunker.chunk_text chs))
              /\ List.map chunkIndex chs = List.map Z.of_nat (seq 0 (List.length chs))
              /\ Forall (fun ch => originalReview ch = r
                                   /\ chunk_stars ch = stars_or_zero r
                                   /\ (forall id, review_id r = Some id -> id <> [] ->
                                                  reviewId ch = id)) chs)
           [sample_review; sample_review] per)
  /\ [ChunkingReview 1 2; TotalChunks 6]
     = if true
       then progress_lines (List.length [sample_review; sample_review])
            ++ [TotalChunks (Z.of_nat (List.length (sample_chunks ++ sample_chunks)))]
       else [].
Proof.
  apply (chunkReviews_concat 4 small_chunker counter_ids
           [sample_review; sample_review] true).
  vm_compute; reflexivity.
Defined.

End ManyReviews.

(* ================================================================== *)
(** * Properties of the download *)
(* ================================================================== *)

Section Downloads.
Import Ingestion Download.

Lemma map_injective (A B : Type) (f : A -> B) :
  (forall x y, f x = f y -> x = y) ->
  forall l l', List.map f l = List.map f l' -> l = l'.
Proof.
  intros Hf; induction l as [|x l IH]; intros [|y l'] H; try discriminate H.
  - reflexivity.
  - simpl in H; injection H as Hxy Hl.
    rewrite (Hf _ _ Hxy), (IH _ Hl); reflexivity.
Qed.

Lemma str_injective (a b : string) : str a = str b -> a = b.
Proof.
  unfold str; intros H.
  apply map_injective in H.
  - rewrite <- (string_of_list_ascii_of_string a),
            <- (string_of_list_ascii_of_string b), H; reflexivity.
  - intros x y Hxy.
    rewrite <- (ascii_N_embedding x), <- (ascii_N_embedding y), Hxy; reflexivity.
Qed.

(** Two indices with the same decimal digits are equal. *)
Lemma decimal_injective (a b : nat) : decimal a = decimal b -> a = b.
Proof.
  unfold decimal; intros H; apply str_injective in H.
  apply (f_equal NilEmpty.uint_of_string) in H.
  rewrite !NilEmpty.usu in H; injection H as H.
  apply (f_equal Nat.of_uint) in H.
  rewrite !Unsigned.of_to in H; exact H.
Qed.

Lemma NoDup_firstn (A : Type) (n : nat) (l : list A) : NoDup l -> NoDup (firstn n l).
Proof.
  intros H; revert n; induction H as [|x l Hx Hl IH]; intros [|n]; simpl;
    try constructor; auto.
  intros Hin; apply Hx, (firstn_In n); exact Hin.
Qed.

Lemma slice_to_firstn (A : Type) (l : list A) (limit : Z) :
  exists n, slice_to l limit = firstn n l.
Proof. unfold slice_to; destruct (0 <=? limit); eexists; reflexivity. Qed.

Lemma map_index_In (A B : Type) (f : A -> nat -> B) (l : list A) (y : B) :
  forall i, In y (map_index f i l) -> exists x k, In x l /\ y = f x k.
Proof.
  induction l as [|x t IH]; intros i; simpl; [intros [] |].
  intros [<- | H]; [exists x, i; auto |].
  destruct (IH _ H) as (x' & k & Hx & Hy); exists x', k; auto.
Qed.

(** Every review that the download returns has an identifier, which is
    not empty, and a rating. *)
Lemma downloaded_review_identified (o : rows_outcome) (limit : Z) :
  Forall (fun r => exists id s,
                     review_id r = Some id /\ id <> [] /\ Chunker.stars r = Some s)
         (downloadYelpDataset o limit).
Proof.
  assert (Hsample : Forall (fun r => exists id s,
                              review_id r = Some id /\ id <> []
                              /\ Chunker.stars r = Some s)
                           sample_data).
  { repeat constructor; eexists _, _; repeat split; discriminate. }
  unfold downloadYelpDataset.
  destruct o as [|r]; [exact Hsample |].
  destruct (negb (rows_ok r)); [exact Hsample |].
  destruct (data_rows r) as [rows|]; [| exact Hsample].
  destruct (0 <? List.length rows)%nat; [| exact Hsample].
  destruct (slice_to_firstn _ (map_index (review_of_row decimal) 0 rows) limit)
    as (n & ->).
  rewrite Forall_forall; intros x Hx.
  apply firstn_In, map_index_In in Hx as (row & k & _ & ->).
  eexists _, _; repeat split; discriminate.
Qed.

(** The reviews that the download returns have pairwise different
    identifiers, none of them missing or empty, whatever the server
    answers and whatever the limit. *)
Theorem downloadYelpDataset_distinct_ids (o : rows_outcome) (limit : Z) :
  NoDup (List.map review_id (downloadYelpDataset o limit))
  /\ Forall (fun r => exists id, review_id r = Some id /\ id <> [])
            (downloadYelpDataset o limit).
Proof.
  split.
  - assert (Hsample : NoDup (List.map review_id sample_data)).
    { repeat constructor; simpl; intuition discriminate. }
    unfold downloadYelpDataset.
    destruct o as [|r]; [exact Hsample |].
    destruct (negb (rows_ok r)); [exact Hsample |].
    destruct (data_rows r) as [rows|]; [| exact Hsample].
    destruct (0 <? List.length rows)%nat; [| exact Hsample].
    destruct (slice_to_firstn _ (map_index (review_of_row decimal) 0 rows) limit)
      as (n & ->).
    rewrite <- firstn_map; apply NoDup_firstn.
    rewrite (map_index_map _ review_id (fun k => Some (str "yelp_" ++ decimal k)))
      by reflexivity.
    apply Injective_map_NoDup; [| apply seq_NoDup].
    intros a b H; injection H as H.
    apply decimal_injective; exact H.
  - eapply Forall_impl; [| apply (downloaded_review_identified o limit)].
    intros r (id & s & H1 & H2 & _); exists id; auto.
Qed.

(** For a limit of at least 1 the download returns the three samples,
    or else the rows that the server answered, as reviews and in
    order, cut after the first [limit] of them: at least one review,
    at most [limit], and all of the rows when they are no more than
    [limit]. *)
Theorem downloadYelpDataset_size (o : rows_outcome) (limit : Z) :
  1 <= limit ->
  downloadYelpDataset o limit = sample_data
  \/ exists r rows,
       o = RowsResolved r /\ rows_ok r = true /\ data_rows r = Some rows
       /\ downloadYelpDataset o limit
          = firstn (Z.to_nat limit) (map_index (review_of_row decimal) 0 rows)
       /\ Z.of_nat (List.length (downloadYelpDataset o limit))
          = Z.min limit (Z.of_nat (List.length rows))
       /\ 1 <= Z.of_nat (List.length (downloadYelpDataset o limit)) <= limit.
Proof.
  intros Hl.
  unfold downloadYelpDataset.
  destruct o as [|r]; [left; reflexivity |].
  destruct (rows_ok r) eqn:Hok; [| left; reflexivity].
  destruct (data_rows r) as [rows|] eqn:Hrows; [| left; reflexivity].
  cbn [negb].
  destruct (0 <? List.length rows)%nat eqn:E; [| left; reflexivity].
  apply Nat.ltb_lt in E.
  right; exists r, rows.
  unfold slice_to.
  replace (0 <=? limit) with true by (symmetry; apply Z.leb_le; lia).
  rewrite length_firstn, map_index_length.
  repeat split; auto; lia.
Qed.

Lemma downloadYelpDataset_size_witness :
  1 <= 1
  /\ (downloadYelpDataset two_rows 1 = sample_data
      \/ exists r rows,
           two_rows = RowsResolved r /\ rows_ok r = true /\ data_rows r = Some rows
           /\ downloadYelpDataset two_rows 1
              = firstn (Z.to_nat 1) (map_index (review_of_row decimal) 0 rows)
           /\ Z.of_nat (List.length (downloadYelpDataset two_rows 1))
              = Z.min 1 (Z.of_nat (List.length rows))
           /\ 1 <= Z.of_nat (List.length (downloadYelpDataset two_rows 1)) <= 1).
Proof.
  split; [lia |].
  apply (downloadYelpDataset_size two_rows 1); lia.
Defined.

(** In the ingestion pipeline every chunk carries the identifier of its
    own review: the reviews come from the download, which gives each of
    them an identifier, so the fallback identifier of [chunkReview] is
    never used. *)
Theorem ingestion_chunks_owned (fuel : nat) (tc : TextChunker)
    (fresh : nat -> jsstring) (o : rows_outcome) (limit : Z) (logProgress : bool)
    (out : list review_chunk) (console : list Reviews.console_line) :
  Reviews.chunkReviews fuel tc fresh (downloadYelpDataset o limit) logProgress
  = Some (Returns out, console) ->
  Forall (fun ch => In (originalReview ch) (downloadYelpDataset o limit)
                    /\ review_id (originalReview ch) = Some (reviewId ch)
                    /\ reviewId ch <> []) out.
Proof.
  unfold Reviews.chunkReviews; intros H.
  destruct (Reviews.forEachReview fuel tc fresh logProgress
              (Z.of_nat (List.length (downloadYelpDataset o limit)))
              0 0 (downloadYelpDataset o limit) [] []) as [[[all|] con]|] eqn:E;
    [| discriminate H | discriminate H].
  injection H as <- _.
  destruct (forEachReview_run _ _ _ _ _ _ _ _ _ _ _ _ E) as (per & Hout & Hall & _).
  simpl in Hout; subst all.
  pose proof (downloaded_review_identified o limit) as Hid.
  set (reviews0 := downloadYelpDataset o limit) in *.
  assert (Hgen : forall reviews per,
             Forall2 (fun r chs => exists f, chunkReview fuel tc f r = Some (Returns chs))
                     reviews per ->
             (forall r, In r reviews -> In r reviews0) ->
             Forall (fun ch => In (originalReview ch) reviews0
                               /\ review_id (originalReview ch) = Some (reviewId ch)
                               /\ reviewId ch <> []) (List.concat per)).
  { clear - Hid.
    induction 1 as [| r chs rs pers (f & Hf) _ IH]; intros Hsub; simpl; [constructor |].
    apply Forall_app; split; [| apply IH; intros x Hx; apply Hsub; right; exact Hx].
    destruct (chunkReview_chunks fuel tc f r chs Hf) as (_ & _ & Hch).
    assert (Hr : In r reviews0) by (apply Hsub; left; reflexivity).
    rewrite Forall_forall in Hid.
    destruct (Hid r Hr) as (id & _ & Hrid & Hne & _).
    eapply Forall_impl; [| exact Hch].
    intros ch (Ho & _ & Howner); rewrite Ho, (Howner id Hrid Hne).
    auto. }
  exact (Hgen _ _ Hall (fun r H => H)).
Qed.

Lemma ingestion_chunks_owned_witness :
  Forall (fun ch => In (originalReview ch) (downloadYelpDataset two_rows 1)
                    /\ review_id (originalReview ch) = Some (reviewId ch)
                    /\ reviewId ch <> [])
         sample_ingested.
Proof.
  apply (ingestion_chunks_owned 4 small_chunker counter_ids two_rows 1 false
           sample_ingested []).
  vm_compute; reflexivity.
Defined.

End Downloads.

(* ================================================================== *)
(** * Properties of the table *)
(* ================================================================== *)

Section Tables.
Import Store.

Variable sv : server.

Lemma stored_rows_invariant (P : stored_row -> Prop) (d : database)
    (rows : list insert_row) :
  Forall P (table d) ->
  (forall r j, In r rows -> P (store sv d r j)) ->
  Forall P (table (snd (insert_statement sv d rows))).
Proof.
  intros Hd Hrows; unfold insert_statement.
  destruct (carried sv (statements d)); simpl; [| exact Hd].
  apply Forall_app; split; [exact Hd |].
  clear Hd; generalize 0%nat.
  induction rows as [|r rest IH]; intros j; simpl; constructor.
  - apply Hrows; left; reflexivity.
  - apply IH; intros r' j' Hin; apply Hrows; right; exact Hin.
Qed.

Lemma store_row (d : database) (r : insert_row) (j : nat) :
  s_row (store sv d r j) = r.
Proof. unfold store; destruct (i_id r); reflexivity. Qed.

Lemma perform_from_sequence (d : database) (c : call) :
  from_sequence sv d -> from_sequence sv (perform sv d c).
Proof.
  unfold from_sequence; intros H.
  assert (Hins : forall rows,
             Forall (identified sv) (table (snd (insert_statement sv d rows)))).
  { intros rows; apply stored_rows_invariant; [exact H |].
    intros r j _; unfold identified, store.
    destruct (i_id r) as [given|] eqn:E; simpl; rewrite E;
      [reflexivity | eexists; reflexivity]. }
  destruct c as [a b c e s | chunks | |]; simpl.
  - apply Hins.
  - apply Hins.
  - unfold getReviewCount; destruct (carried sv (statements d)); exact H.
  - unfold clearAllData; destruct (carried sv (statements d)); simpl; [| exact H].
    rewrite Forall_forall in *; intros r Hr.
    apply filter_In in Hr as (Hr & _); auto.
Qed.

Lemma perform_without_sent_zero (d : database) (c : call) :
  sends_no_zero c -> without_sent_zero d -> without_sent_zero (perform sv d c).
Proof.
  unfold without_sent_zero; intros Hc H.
  destruct c as [a b c e s | chunks | |]; simpl in *.
  - apply stored_rows_invariant; [exact H |].
    intros r j [<- | []]; simpl; discriminate.
  - apply stored_rows_invariant; [exact H |].
    rewrite Forall_forall in Hc.
    intros r j Hin; rewrite store_row; apply Hc; exact Hin.
  - unfold getReviewCount; destruct (carried sv (statements d)); exact H.
  - unfold clearAllData; destruct (carried sv (statements d)); simpl; [| exact H].
    rewrite Forall_forall in *; intros r Hr.
    apply filter_In in Hr as (Hr & _); auto.
Qed.

Lemma after_invariants (calls : list call) :
  from_sequence sv (after sv calls)
  /\ (Forall sends_no_zero calls -> without_sent_zero (after sv calls)).
Proof.
  unfold after.
  assert (H : forall d,
             (from_sequence sv d ->
              from_sequence sv (fold_left (perform sv) calls d))
             /\ (Forall sends_no_zero calls -> without_sent_zero d ->
                 without_sent_zero (fold_left (perform sv) calls d))).
  { induction calls as [|c cs IH]; intros d; simpl; [tauto |].
    destruct (IH (perform sv d c)) as (IH1 & IH2).
    split.
    - intros Hd; apply IH1, perform_from_sequence; exact Hd.
    - intros Hcs Hd; apply Forall_cons_iff in Hcs as (Hc & Hcs).
      apply IH2; [exact Hcs | apply perform_without_sent_zero; assumption]. }
  destruct (H empty_database) as (H1 & H2).
  split; [apply H1; constructor | intros Hc; apply H2; [exact Hc | constructor]].
Qed.

(** [clearAllData] deletes the rows whose identifier is not 0.  On a
    table that was filled through the client, starting from an empty
    one, and with a sequence that never yields 0, the rows that it
    leaves are those that a caller of [insertBatchChunks] sent with
    the identifier 0, and a count that follows it answers their
    number.  When no call sent such a row it leaves no row, and the
    count answers 0. *)
Theorem clearAllData_then_count (calls : list call) :
  (forall j, serial sv j <> 0) ->
  carried sv (statements (after sv calls)) = true ->
  carried sv (S (statements (after sv calls))) = true ->
  table (snd (clearAllData sv (after sv calls)))
  = filter (fun r => match i_id (s_row r) with
                     | Some given => given =? 0
                     | None => false
                     end) (table (after sv calls))
  /\ fst (getReviewCount sv (snd (clearAllData sv (after sv calls))))
     = inr (Z.of_nat (List.length (table (snd (clearAllData sv (after sv calls))))))
  /\ (Forall sends_no_zero calls ->
      table (snd (clearAllData sv (after sv calls))) = []
      /\ fst (getReviewCount sv (snd (clearAllData sv (after sv calls)))) = inr 0).
Proof.
  intros Hserial Hc1 Hc2.
  destruct (after_invariants calls) as (Hseq & Hzero).
  unfold clearAllData, getReviewCount; rewrite Hc1; simpl; rewrite Hc2; simpl.
  unfold from_sequence, without_sent_zero in *.
  assert (Hleft : filter (fun r => s_id r =? 0) (table (after sv calls))
                  = filter (fun r => match i_id (s_row r) with
                                     | Some given => given =? 0
                                     | None => false
                                     end) (table (after sv calls))).
  { clear Hzero; induction (table (after sv calls)) as [|r t IH]; [reflexivity |].
    apply Forall_cons_iff in Hseq as (Hr & Ht); simpl.
    rewrite (IH Ht); unfold identified in Hr.
    destruct (i_id (s_row r)) as [given|]; [rewrite Hr; reflexivity |].
    destruct Hr as (j & Hj).
    destruct (s_id r =? 0) eqn:E; [| reflexivity].
    apply Z.eqb_eq in E; rewrite Hj in E; destruct (Hserial j E). }
  split; [exact Hleft | split; [reflexivity |]].
  intros Hcalls; specialize (Hzero Hcalls).
  rewrite Hleft.
  assert (Hnil : filter (fun r => match i_id (s_row r) with
                                  | Some given => given =? 0
                                  | None => false
                                  end) (table (after sv calls)) = []).
  { clear Hleft Hseq; induction (table (after sv calls)) as [|r t IH]; [reflexivity |].
    apply Forall_cons_iff in Hzero as (Hz & Hzt); simpl.
    rewrite (IH Hzt).
    destruct (i_id (s_row r)) as [given|]; [| reflexivity].
    destruct (given =? 0) eqn:E; [| reflexivity].
    apply Z.eqb_eq in E; subst given; destruct (Hz eq_refl). }
  rewrite Hnil; split; reflexivity.
Qed.

End Tables.

Section TableExamples.
Import Store.

Lemma clearAllData_then_count_witness :
  (forall j, serial willing j <> 0)
  /\ table (snd (clearAllData willing (after willing sample_calls)))
     = filter (fun r => match i_id (s_row r) with
                        | Some given => given =? 0
                        | None => false
                        end) (table (after willing sample_calls))
  /\ fst (getReviewCount willing
            (snd (clearAllData willing (after willing sample_calls))))
     = inr (Z.of_nat
              (List.length
                 (table (snd (clearAllData willing (after willing sample_calls))))))
  /\ (Forall sends_no_zero sample_calls ->
      table (snd (clearAllData willing (after willing sample_calls))) = []
      /\ fst (getReviewCount willing
                (snd (clearAllData willing (after willing sample_calls)))) = inr 0).
Proof.
  assert (Hserial : forall j, serial willing j <> 0) by (intros j; simpl; lia).
  split; [exact Hserial |].
  apply (clearAllData_then_count willing sample_calls Hserial); reflexivity.
Defined.

(** A row that a caller sent with the identifier 0 is not deleted:
    after [clearAllData] the count is 1. *)
Example clearAllData_keeps_zero :
  fst (getReviewCount willing
         (snd (clearAllData willing
                 (after willing
                    [CallInsertBatchChunks
                       [mkInsert (Some 0) (Some (str "r")) (Some (str "t")) (Some 0)
                          None (Some 5) None None;
                        mkInsert (Some 7) (Some (str "r")) (Some (str "u")) (Some 1)
                          None (Some 5) None None]]))))
  = inr 1.
Proof. reflexivity. Qed.

End TableExamples.

(* ================================================================== *)
(** * Properties of the ingestion pipeline *)
(* ================================================================== *)

Section PipelineRuns.
Import Embedding Store Pipeline.

(** What a batch of embeddings that succeeds adds to the log. *)
Lemma createBatchEmbeddings_Ok (svc : service) (texts : list jsstring) (w : world)
    (embs : list embedding) (w1 : world) :
  createBatchEmbeddings svc texts w = (Ok embs, w1) ->
  exists new,
    log w1 = log w ++ new
    /\ Forall2 (fun t e => In (Request t (Ok e)) new) texts embs.
Proof.
  unfold createBatchEmbeddings; intros H.
  destruct (batchLoop_trace svc texts 0 (Z.of_nat (List.length texts)) [] w)
    as (new & res & Hw & Hr & Ht & _).
  rewrite H in Hw, Hr; simpl in Hw, Hr.
  exists new; split; [rewrite Hw; reflexivity |].
  apply (batch_trace_Ok texts new res Ht).
  destruct res; simpl in Hr; [injection Hr as ->; reflexivity | discriminate Hr].
Qed.

Lemma createBatchEmbeddings_log (svc : service) (texts : list jsstring) (w : world) :
  exists new, log (snd (createBatchEmbeddings svc texts w)) = log w ++ new.
Proof.
  unfold createBatchEmbeddings.
  destruct (batchLoop_trace svc texts 0 (Z.of_nat (List.length texts)) [] w)
    as (new & res & Hw & _).
  exists new; rewrite Hw; reflexivity.
Qed.

(** The rows made from a batch and its embeddings, once stored. *)
Lemma stored_batch (l : list event) (f : insert_row -> nat -> stored_row)
    (all : list embedding) :
  (forall r j, s_row (f r j) = r) ->
  forall (batch : list review_chunk) (embs : list embedding) (k : nat),
    Forall2 (fun t e => In (Request t (Ok e)) l)
            (List.map Chunker.chunk_text batch) embs ->
    (forall j, nth_error all (k + j) = nth_error embs j) ->
    forall m,
      let stored :=
        map_index f m
          (map_index
             (fun chunk index =>
                mkInsert None (Some (reviewId chunk))
                         (Some (Chunker.chunk_text chunk))
                         (Some (chunkIndex chunk)) (nth_error all index)
                         (Some (chunk_stars chunk)) None None)
             k batch) in
      Forall2 row_of_chunk batch stored /\ Forall (embedded_row l) stored.
Proof.
  intros Hf; induction batch as [|ch batch IH]; intros embs k H2 Hnth m; simpl.
  - split; constructor.
  - inversion H2 as [| t e ts es Hin Hrest]; subst.
    destruct (IH es (S k) Hrest) with (m := S m) as (IH1 & IH2).
    { intros j; pose proof (Hnth (S j)) as Hj; simpl in Hj; rewrite <- Hj;
      f_equal; lia. }
    split; constructor; auto.
    + unfold row_of_chunk; rewrite Hf; simpl; auto.
    + unfold embedded_row; rewrite Hf; simpl.
      exists (Chunker.chunk_text ch), e; repeat split; auto.
      rewrite <- (Nat.add_0_r k), (Hnth 0%nat); reflexivity.
Qed.

Lemma embedded_row_more (l l' l'' : list event) (r : stored_row) :
  embedded_row l r -> embedded_row (l' ++ l ++ l'') r.
Proof.
  intros (t & e & H1 & H2 & H3); exists t, e; repeat split; auto.
  apply in_or_app; right; apply in_or_app; left; exact H3.
Qed.

(** What the loop adds: whole batches only. *)
Lemma batchesLoop_run (svc : service) (sv : server) (chunks : list review_chunk)
    (fuel : nat) :
  forall (i : nat) (st st' : state),
    batchesLoop fuel svc sv chunks i st = Some st' ->
    exists new_rows new_log starts,
      table (db_of st') = table (db_of st) ++ new_rows
      /\ log (world_of st') = log (world_of st) ++ new_log
      /\ processedCount st' = processedCount st + Z.of_nat (List.length new_rows)
      /\ Forall (embedded_row new_log) new_rows
      /\ Forall2 row_of_chunk (List.concat (List.map (batch_at chunks) starts)) new_rows
      /\ StronglySorted lt starts
      /\ Forall (fun p => exists j, p = (i + j * batchSize)%nat
                                    /\ (p < List.length chunks)%nat) starts.
Proof.
  induction fuel as [|fuel IH]; intros i st st' H; [discriminate H |].
  cbn [batchesLoop] in H.
  destruct (i <? List.length chunks)%nat eqn:Ei.
  2:{ injection H as <-.
      exists [], [], []; rewrite !app_nil_r; simpl.
      repeat split; try constructor; lia. }
  apply Nat.ltb_lt in Ei.
  set (batch := firstn batchSize (skipn i chunks)) in *.
  assert (Hlater : forall starts,
             Forall (fun p => exists j, p = (i + batchSize + j * batchSize)%nat
                                        /\ (p < List.length chunks)%nat) starts ->
             Forall (fun p => exists j, p = (i + j * batchSize)%nat
                                        /\ (p < List.length chunks)%nat) starts
             /\ Forall (lt i) starts).
  { intros starts Hs; split; (eapply Forall_impl; [| exact Hs]);
      intros p (j & -> & Hp); [exists (S j); split; [lia | exact Hp] |].
    unfold batchSize; lia. }
  destruct (createBatchEmbeddings svc (List.map Chunker.chunk_text batch) (world_of st))
    as [[embs | err] w1] eqn:Eb.
  - destruct (createBatchEmbeddings_Ok _ _ _ _ _ Eb) as (l1 & Hl1 & H2).
    unfold insertBatchChunks, insert_statement in H.
    destruct (carried sv (statements (db_of st))) eqn:Ec.
    + apply IH in H
        as (rows & lg & starts & Ht & Hlog & Hcount & Hemb & Hrows & Hsort & Hst).
      cbn [db_of world_of processedCount table] in *.
      destruct (stored_batch l1 (store sv (db_of st)) embs
                  (store_row sv (db_of st)) batch embs 0%nat H2
                  (fun j => eq_refl) 0%nat)
        as (Hb1 & Hb2).
      fold (insertData batch embs) in Hb1, Hb2.
      set (stored := map_index (store sv (db_of st)) 0 (insertData batch embs)) in *.
      destruct (Hlater starts Hst) as (Hst' & Hgt).
      exists (stored ++ rows), (l1 ++ [Sleep 1000] ++ lg), (i :: starts).
      split; [rewrite Ht, <- app_assoc; reflexivity |].
      split; [rewrite Hlog; unfold sleep; simpl; rewrite Hl1, <- !app_assoc;
              reflexivity |].
      split.
      { rewrite Hcount, length_app.
        rewrite <- (Forall2_length Hb1); lia. }
      split.
      { apply Forall_app; split.
        - eapply Forall_impl; [| exact Hb2].
          intros r Hr; apply (embedded_row_more l1 [] ([Sleep 1000] ++ lg)); exact Hr.
        - eapply Forall_impl; [| exact Hemb].
          intros r Hr.
          replace (l1 ++ [Sleep 1000] ++ lg) with ((l1 ++ [Sleep 1000]) ++ lg ++ [])
            by (rewrite app_nil_r, <- app_assoc; reflexivity).
          apply embedded_row_more; exact Hr. }
      split; [simpl; apply Forall2_app; assumption |].
      split; [constructor; assumption |].
      constructor; [exists 0%nat; split; [lia | exact Ei] | exact Hst'].
    + apply IH in H
        as (rows & lg & starts & Ht & Hlog & Hcount & Hemb & Hrows & Hsort & Hst).
      cbn [db_of world_of processedCount table] in *.
      destruct (Hlater starts Hst) as (Hst' & _).
      exists rows, (l1 ++ lg), starts.
      split; [exact Ht |].
      split; [rewrite Hlog, Hl1, <- app_assoc; reflexivity |].
      split; [exact Hcount |].
      split; [| auto].
      eapply Forall_impl; [| exact Hemb].
      intros r Hr; apply (embedded_row_more lg l1 []) in Hr.
      rewrite app_nil_r in Hr; exact Hr.
  - destruct (createBatchEmbeddings_log svc (List.map Chunker.chunk_text batch)
                (world_of st)) as (l1 & Hl1).
    rewrite Eb in Hl1; simpl in Hl1.
    apply IH in H
      as (rows & lg & starts & Ht & Hlog & Hcount & Hemb & Hrows & Hsort & Hst).
    cbn [db_of world_of processedCount table] in *.
    destruct (Hlater starts Hst) as (Hst' & _).
    exists rows, (l1 ++ lg), starts.
    split; [exact Ht |].
    split; [rewrite Hlog, Hl1, <- app_assoc; reflexivity |].
    split; [exact Hcount |].
    split; [| auto].
    eapply Forall_impl; [| exact Hemb].
    intros r Hr; apply (embedded_row_more lg l1 []) in Hr.
    rewrite app_nil_r in Hr; exact Hr.
Qed.

(** The loop is left after at most one iteration per chunk. *)
Lemma batchesLoop_returns (svc : service) (sv : server) (chunks : list review_chunk)
    (fuel : nat) :
  forall (i : nat) (st : state),
    (List.length chunks - i < fuel)%nat ->
    exists st', batchesLoop fuel svc sv chunks i st = Some st'.
Proof.
  induction fuel as [|fuel IH]; intros i st Hfuel; [lia |].
  cbn [batchesLoop].
  destruct (i <? List.length chunks)%nat eqn:Ei; [| eexists; reflexivity].
  apply Nat.ltb_lt in Ei.
  assert (Hnext : (List.length chunks - (i + batchSize) < fuel)%nat)
    by (unfold batchSize; lia).
  destruct (createBatchEmbeddings _ _ _) as [[embs | err] w1]; [| apply IH; exact Hnext].
  destruct (insertBatchChunks _ _ _) as [[err | data] d1]; apply IH; exact Hnext.
Qed.

(** The loop of [processDataset] is left after at most one iteration
    per chunk, and what it stores are whole batches: the rows added to
    the table are, in order, the chunks of some of the batches
    [chunks.slice(p, p + 10)], taken at increasing start indices [p],
    every one of them with the embedding that the service returned for
    its text.  [processedCount] grows by the number of rows added. *)
Theorem batchesLoop_stores_whole_batches (fuel : nat) (svc : service) (sv : server)
    (chunks : list review_chunk) (i : nat) (st : state) :
  (List.length chunks - i < fuel)%nat ->
  exists st' new_rows new_log starts,
    batchesLoop fuel svc sv chunks i st = Some st'
    /\ table (db_of st') = table (db_of st) ++ new_rows
    /\ log (world_of st') = log (world_of st) ++ new_log
    /\ processedCount st' = processedCount st + Z.of_nat (List.length new_rows)
    /\ Forall (embedded_row new_log) new_rows
    /\ Forall2 row_of_chunk (List.concat (List.map (batch_at chunks) starts)) new_rows
    /\ StronglySorted lt starts
    /\ Forall (fun p => exists j, p = (i + j * batchSize)%nat
                                  /\ (p < List.length chunks)%nat) starts.
Proof.
  intros Hfuel.
  destruct (batchesLoop_returns svc sv chunks fuel i st Hfuel) as (st' & Hrun).
  destruct (batchesLoop_run svc sv chunks fuel i st st' Hrun)
    as (new_rows & new_log & starts & Hall).
  exists st', new_rows, new_log, starts.
  split; [exact Hrun | exact Hall].
Qed.

Lemma batchesLoop_stores_whole_batches_witness :
  (List.length sample_chunks - 0 < 4)%nat
  /\ exists st' new_rows new_log starts,
       batchesLoop 4 BatchLog.steady_service willing sample_chunks 0
         (mkState start_world empty_database 0) = Some st'
       /\ table (db_of st')
          = table (db_of (mkState start_world empty_database 0)) ++ new_rows
       /\ log (world_of st')
          = log (world_of (mkState start_world empty_database 0)) ++ new_log
       /\ processedCount st'
          = processedCount (mkState start_world empty_database 0)
            + Z.of_nat (List.length new_rows)
       /\ Forall (embedded_row new_log) new_rows
       /\ Forall2 row_of_chunk
            (List.concat (List.map (batch_at sample_chunks) starts)) new_rows
       /\ StronglySorted lt starts
       /\ Forall (fun p => exists j, p = (0 + j * batchSize)%nat
                                     /\ (p < List.length sample_chunks)%nat) starts.
Proof.
  split; [simpl; lia |].
  apply (batchesLoop_stores_whole_batches 4 BatchLog.steady_service willing
           sample_chunks 0 (mkState start_world empty_database 0)).
  simpl; lia.
Defined.

(** With the configuration used for ingestion [chunkText] returns once
    the fuel exceeds the length of the cleaned text. *)
Lemma chunkText_ingestion_returns (fuel : nat) (text : jsstring) :
  (List.length (clean text) < fuel)%nat ->
  exists chunks, chunkText fuel Ingestion.ingestion_chunker text = Some chunks.
Proof.
  intros Hfuel; unfold chunkText.
  destruct (len text =? 0); [eexists; reflexivity |].
  destruct (len (clean text) <=? chunkSize Ingestion.ingestion_chunker);
    [eexists; reflexivity |].
  apply (chunkLoop_terminates Ingestion.ingestion_chunker (clean text));
    [vm_compute; congruence | vm_compute; congruence | vm_compute; congruence |].
  unfold len; lia.
Qed.

Lemma chunkTextAny_ingestion_returns (text : json) :
  exists n, forall fuel, (n <= fuel)%nat ->
    exists c, chunkTextAny fuel Ingestion.ingestion_chunker text = Some c.
Proof.
  unfold chunkTextAny.
  destruct (negb (truthy (Some text)) || length_is_zero text);
    [exists 0%nat; intros; eexists; reflexivity |].
  destruct text as [| b | q | s | items | fields];
    try (exists 0%nat; intros; eexists; reflexivity).
  exists (S (List.length (clean s))); intros fuel Hfuel.
  destruct (chunkText_ingestion_returns fuel s) as (chunks & ->); [lia |].
  eexists; reflexivity.
Qed.

(** [chunkText] throws exactly on the values that pass its guard and
    are not strings. *)
Lemma chunkTextAny_throws (fuel : nat) (tc : TextChunker) (v : json) :
  chunkTextAny fuel tc v = Some TypeError
  <-> truthy (Some v) = true /\ length_is_zero v = false
      /\ forall s, v <> JString s.
Proof.
  unfold chunkTextAny.
  destruct (truthy (Some v)) eqn:Ht, (length_is_zero v) eqn:Hl; simpl.
  - split; [discriminate | intros (_ & H & _); discriminate H].
  - destruct v as [| b | q | s | items | fields];
      try (split; [intros _; repeat split; discriminate | reflexivity]).
    split.
    + destruct (chunkText fuel tc s); discriminate.
    + intros (_ & _ & H); destruct (H s eq_refl).
  - split; [discriminate | intros (H & _); discriminate H].
  - split; [discriminate | intros (H & _); discriminate H].
Qed.

Lemma text_or_empty_throws (fuel : nat) (tc : TextChunker) (r : review) :
  chunkTextAny fuel tc (text_or_empty r) = Some TypeError <-> unreadable r.
Proof.
  rewrite chunkTextAny_throws; unfold text_or_empty, unreadable.
  destruct (text r) as [v|].
  - destruct (truthy (Some v)) eqn:Ht.
    + split.
      * intros H; exists v; split; [reflexivity | exact H].
      * intros (v' & [= <-] & H); exact H.
    + split.
      * intros (_ & _ & H); destruct (H [] eq_refl).
      * intros (v' & [= <-] & H & _); congruence.
  - split.
    + intros (_ & _ & H); destruct (H [] eq_refl).
    + intros (v' & H & _); discriminate H.
Qed.

Lemma forEachReview_returns (fresh : nat -> jsstring) (logProgress : bool) (total : Z)
    (reviews : list review) :
  exists n, forall fuel, (n <= fuel)%nat ->
    forall index base allChunks console,
    exists out,
      Reviews.forEachReview fuel Ingestion.ingestion_chunker fresh logProgress total
        index base reviews allChunks console = Some out.
Proof.
  induction reviews as [|r rest (n & IH)].
  - exists 0%nat; intros; eexists; reflexivity.
  - destruct (chunkTextAny_ingestion_returns (text_or_empty r)) as (n0 & Hn0).
    exists (Nat.max n n0).
    intros fuel Hfuel index base allChunks console.
    cbn [Reviews.forEachReview]; unfold chunkReview.
    destruct (Hn0 fuel) as ([chunks|] & ->); [lia | | eexists; reflexivity].
    apply IH; lia.
Qed.

(** The fuel has no part in what [chunkText] and [forEachReview]
    return. *)
Lemma chunkTextAny_fuel (tc : TextChunker) (f1 f2 : nat) (v : json)
    (c1 c2 : completion (list jsstring)) :
  chunkTextAny f1 tc v = Some c1 -> chunkTextAny f2 tc v = Some c2 -> c1 = c2.
Proof.
  unfold chunkTextAny.
  destruct (negb (truthy (Some v)) || length_is_zero v); [congruence |].
  destruct v as [| b | q | s | items | fields]; try congruence.
  destruct (chunkText f1 tc s) as [a1|] eqn:E1; [| discriminate].
  destruct (chunkText f2 tc s) as [a2|] eqn:E2; [| discriminate].
  rewrite (chunkText_deterministic _ _ _ _ _ _ E1 E2); simpl; congruence.
Qed.

Lemma forEachReview_fuel (tc : TextChunker) (fresh : nat -> jsstring)
    (logProgress : bool) (total : Z) (f1 f2 : nat) (reviews : list review) :
  forall index base allChunks console out1 out2,
    Reviews.forEachReview f1 tc fresh logProgress total index base reviews
      allChunks console = Some out1 ->
    Reviews.forEachReview f2 tc fresh logProgress total index base reviews
      allChunks console = Some out2 ->
    out1 = out2.
Proof.
  induction reviews as [|r rest IH]; intros index base allChunks console out1 out2 H1 H2.
  - simpl in H1, H2; congruence.
  - cbn [Reviews.forEachReview] in H1, H2; unfold chunkReview in H1, H2.
    destruct (chunkTextAny f1 tc (text_or_empty r)) as [c1|] eqn:E1;
      [| discriminate H1].
    destruct (chunkTextAny f2 tc (text_or_empty r)) as [c2|] eqn:E2;
      [| discriminate H2].
    pose proof (chunkTextAny_fuel _ _ _ _ _ _ E1 E2) as Hc; subst c2.
    destruct c1 as [chunks|]; [| congruence].
    exact (IH _ _ _ _ _ _ H1 H2).
Qed.

(** When the loop returns, no review was unreadable. *)
Lemma forEachReview_readable (fuel : nat) (tc : TextChunker) (fresh : nat -> jsstring)
    (logProgress : bool) (total : Z) (reviews : list review) :
  forall index base allChunks console out console',
    Reviews.forEachReview fuel tc fresh logProgress total index base reviews
      allChunks console = Some (Returns out, console') ->
    Forall (fun r => ~ unreadable r) reviews.
Proof.
  intros index base allChunks console out console' H.
  destruct (forEachReview_run _ _ _ _ _ _ _ _ _ _ _ _ H) as (per & _ & Hall & _).
  clear H; induction Hall as [| r chs rest per' (f & Hr) _ IH]; constructor; [| exact IH].
  intros Hbad; apply (text_or_empty_throws fuel tc) in Hbad.
  apply chunkReview_chunks in Hr as (Hr & _); congruence.
Qed.

(** [processDataset] with an API key runs to its end.  When the text
    of a downloaded review is a value on which [chunkText] throws, it
    exits with code 1 before anything is requested or stored.
    Otherwise its two totals agree with the table: the rows it added,
    every one with the embedding that the service returned for its
    text, are as many as [processedCount]; when the last count
    succeeds the total written is the number of rows the table had
    before plus [processedCount], and it exits with code 1 exactly
    when that count fails. *)
Theorem processDataset_accounts (key : jsstring) (fresh : nat -> jsstring)
    (o : Download.rows_outcome) (svc : service) (sv : server) (w : world)
    (d : database) :
  key <> [] ->
  exists n m, forall fuel loop_fuel, (n <= fuel)%nat -> (m <= loop_fuel)%nat ->
    exists e st new_rows new_log,
      processDataset fuel loop_fuel (Some key) fresh o svc sv w d = Some (e, st)
      /\ table (db_of st) = table d ++ new_rows
      /\ log (world_of st) = log w ++ new_log
      /\ Forall (embedded_row new_log) new_rows
      /\ processedCount st = Z.of_nat (List.length new_rows)
      /\ (forall p t, e = Finished p t ->
                      p = processedCount st
                      /\ t = Z.of_nat (List.length (table d)) + p)
      /\ (Exists unreadable (Download.downloadYelpDataset o 50) ->
          e = Exit1 /\ st = mkState w d 0)
      /\ (~ Exists unreadable (Download.downloadYelpDataset o 50) ->
          (e = Exit1 <-> carried sv (Nat.pred (statements (db_of st))) = false)).
Proof.
  intros Hkey.
  set (reviews := Download.downloadYelpDataset o 50).
  destruct (forEachReview_returns fresh true (Z.of_nat (List.length reviews)) reviews)
    as (n & Hn).
  assert (Hlen : (len key =? 0) = false).
  { apply Z.eqb_neq; intros H0; apply Hkey, len_nil_iff; exact H0. }
  destruct (Hn n (Nat.le_refl n) 0%nat 0%nat [] []) as ([[chunks|] con] & Hrun0).
  - (* the reviews are chunked *)
    exists n, (S (List.length chunks)); intros fuel loop_fuel Hfuel Hloop.
    destruct (Hn fuel Hfuel 0%nat 0%nat [] []) as (out & Hrun).
    rewrite (forEachReview_fuel _ _ _ _ _ _ _ _ _ _ _ _ _ Hrun Hrun0) in Hrun.
    pose proof (forEachReview_readable _ _ _ _ _ _ _ _ _ _ _ _ Hrun) as Hread.
    clear Hrun0 Hn.
    destruct (batchesLoop_returns svc sv chunks loop_fuel 0 (mkState w d 0))
      as (st & Hloop_run); [lia |].
    destruct (batchesLoop_run svc sv chunks loop_fuel 0 _ st Hloop_run)
      as (new_rows & new_log & starts & Ht & Hlog & Hcount & Hemb & _).
    cbn [db_of world_of processedCount] in Ht, Hlog, Hcount.
    assert (Hnone : ~ Exists unreadable reviews).
    { intros Hex; apply Exists_exists in Hex as (r & Hin & Hbad).
      rewrite Forall_forall in Hread; exact (Hread r Hin Hbad). }
    unfold processDataset, Reviews.chunkReviews; rewrite Hlen.
    fold reviews; rewrite Hrun, Hloop_run.
    unfold getReviewCount.
    destruct (carried sv (statements (db_of st))) eqn:Ecount.
    + exists (Finished (processedCount st)
                       (Z.of_nat (List.length (table (db_of st))))).
      eexists; exists new_rows, new_log.
      split; [reflexivity |].
      cbn [db_of world_of processedCount table statements Nat.pred].
      split; [exact Ht |].
      split; [exact Hlog |].
      split; [exact Hemb |].
      split; [lia |].
      split; [| split].
      * intros p t [= <- <-]; split; [reflexivity |].
        rewrite Ht, length_app, Hcount; lia.
      * intros Hbad; destruct (Hnone Hbad).
      * intros _; split; [discriminate | congruence].
    + exists Exit1; eexists; exists new_rows, new_log.
      split; [reflexivity |].
      cbn [db_of world_of processedCount table statements Nat.pred].
      split; [exact Ht |].
      split; [exact Hlog |].
      split; [exact Hemb |].
      split; [lia |].
      split; [| split].
      * discriminate.
      * intros Hbad; destruct (Hnone Hbad).
      * intros _; split; [intros _; exact Ecount | reflexivity].
  - (* [chunkReviews] throws *)
    exists n, 0%nat; intros fuel loop_fuel Hfuel _.
    destruct (Hn fuel Hfuel 0%nat 0%nat [] []) as (out & Hrun).
    rewrite (forEachReview_fuel _ _ _ _ _ _ _ _ _ _ _ _ _ Hrun Hrun0) in Hrun.
    destruct (forEachReview_throws _ _ _ _ _ _ _ _ _ _ _ Hrun) as (r & Hin & Hr).
    apply text_or_empty_throws in Hr.
    exists Exit1, (mkState w d 0), [], [].
    unfold processDataset, Reviews.chunkReviews; rewrite Hlen.
    fold reviews; rewrite Hrun.
    cbn [db_of world_of processedCount table].
    rewrite !app_nil_r.
    split; [reflexivity |].
    split; [reflexivity |].
    split; [reflexivity |].
    split; [constructor |].
    split; [reflexivity |].
    split; [discriminate |].
    split; [intros _; split; reflexivity |].
    intros Hnone; exfalso; apply Hnone, Exists_exists; exists r; auto.
Qed.

Lemma processDataset_accounts_witness :
  str "hf_key" <> []
  /\ exists n m, forall fuel loop_fuel, (n <= fuel)%nat -> (m <= loop_fuel)%nat ->
       exists e st new_rows new_log,
         processDataset fuel loop_fuel (Some (str "hf_key")) counter_ids
           Download.two_rows BatchLog.steady_service willing start_world
           empty_database = Some (e, st)
         /\ table (db_of st) = table empty_database ++ new_rows
         /\ log (world_of st) = log start_world ++ new_log
         /\ Forall (embedded_row new_log) new_rows
         /\ processedCount st = Z.of_nat (List.length new_rows)
         /\ (forall p t, e = Finished p t ->
                         p = processedCount st
                         /\ t = Z.of_nat (List.length (table empty_database)) + p)
         /\ (Exists unreadable (Download.downloadYelpDataset Download.two_rows 50) ->
             e = Exit1 /\ st = mkState start_world empty_database 0)
         /\ (~ Exists unreadable (Download.downloadYelpDataset Download.two_rows 50) ->
             (e = Exit1
              <-> carried willing (Nat.pred (statements (db_of st))) = false)).
Proof.
  split; [discriminate |].
  apply (processDataset_accounts (str "hf_key") counter_ids Download.two_rows
           BatchLog.steady_service willing start_world empty_database).
  discriminate.
Defined.

(** The run on the two-row answer: two chunks processed, two counted. *)
Example processDataset_two_rows :
  option_map fst smooth_run = Some (Finished 2 2).
Proof. vm_compute; reflexivity. Qed.

(** A row whose text is the number 42: the run exits before anything
    is requested or stored. *)
Example processDataset_number_text :
  broken_run = Some (Exit1, mkState start_world empty_database 0).
Proof. vm_compute; reflexivity. Qed.

(** Without an API key nothing is requested and nothing is stored. *)
Example processDataset_no_key :
  processDataset 0 0 None counter_ids Download.two_rows BatchLog.steady_service
    willing start_world empty_database
  = Some (Exit1, mkState start_world empty_database 0).
Proof. reflexivity. Qed.

End PipelineRuns.
